(** * r2dec-js core2: expression simplifier and control-flow graph analyses

    A shallow embedding of [core2/analysis/ir/simplify.js] (the rewrite
    rules and the fixed-point driver) and of the graph module that travels
    with it ([Directed], [DFSpanningTree], [DominatorTree]), followed by the
    properties stated for them. *)

From Stdlib Require Import ZArith NArith QArith Qabs List String Ascii Bool Lia.
From Stdlib Require Import DecimalString DecimalN Sorted.
Import ListNotations.

Local Close Scope Q_scope.
Local Open Scope Z_scope.

(** ** JavaScript numbers

    The simplifier computes on the [value] of [Expr.Val] nodes with the
    JavaScript operators [+ - * / % & | ^ << ~], [Math.abs], [<] and [===].
    A number is an IEEE 754 double: the result of [+ - * /] is the double
    nearest to the exact result, ties going to the even significand; it is
    an infinity from [2^1024] on, and a zero carries a sign. *)
Module Number.

(** A double: an integer, a finite number that is not an integer, the
    negative zero, an infinity or NaN.  [Int 0] is the positive zero. *)
Inductive number : Type :=
| Int (z : Z)
| Frac (q : Q)
| NegZero
| Inf (negative : bool)
| NaN.

(** An exact rational, stored as an integer whenever it is one. *)
Definition of_Q (q : Q) : number :=
  let r := Qred q in
  if Pos.eqb (Qden r) 1 then Int (Qnum r) else Frac r.

Definition to_Q (x : number) : Q :=
  match x with
  | Int z => inject_Z z
  | Frac q => q
  | _ => 0%Q
  end.

Definition is_zero (x : number) : bool :=
  match x with
  | Int z => z =? 0
  | Frac q => Qnum q =? 0
  | NegZero => true
  | _ => false
  end.

(** The sign bit. *)
Definition is_negative (x : number) : bool :=
  match x with
  | Int z => z <? 0
  | Frac q => Qnum q <? 0
  | NegZero => true
  | Inf n => n
  | NaN => false
  end.

(** The zero of the given sign. *)
Definition zero (negative : bool) : number :=
  if negative then NegZero else Int 0.

(** The integer nearest to [n / d], the even one of two that are equally
    near; [0 <= n] and [0 < d]. *)
Definition nearest_even (n d : Z) : Z :=
  let q := n / d in
  match 2 * (n mod d) ?= d with
  | Lt => q
  | Gt => q + 1
  | Eq => if Z.even q then q else q + 1
  end.

(** The double nearest to the integer [z]: [z] itself when it has no more
    than 53 significant bits, else [z] rounded to 53 bits. *)
Definition round_Z (z : Z) : number :=
  let p := Z.log2 (Z.abs z) - 52 in
  if p <=? 0 then Int z
  else
    let m := nearest_even (Z.abs z) (2 ^ p) in
    if 2 ^ 1024 <=? m * 2 ^ p then Inf (z <? 0)
    else Int (Z.sgn z * (m * 2 ^ p)).

(** The largest [e] with [2 ^ e <= n / d], for [0 < n] and [0 < d]. *)
Definition log2_ratio (n d : Z) : Z :=
  let e := Z.log2 n - Z.log2 d in
  if 0 <=? e then (if d * 2 ^ e <=? n then e else e - 1)
  else (if d <=? n * 2 ^ (- e) then e else e - 1).

(** The double nearest to [n / d] with the sign [negative], for [0 < n] and
    [0 < d]: 53 significant bits, fewer below [2 ^ -1022] where the doubles
    are [2 ^ -1074] apart. *)
Definition round (negative : bool) (n d : Z) : number :=
  let p := Z.max (log2_ratio n d) (-1022) - 52 in
  let m := if 0 <=? p then nearest_even n (d * 2 ^ p)
           else nearest_even (n * 2 ^ (- p)) d in
  let s := if negative then - m else m in
  if m =? 0 then zero negative
  else if 0 <=? p then
    if 2 ^ 1024 <=? m * 2 ^ p then Inf negative else Int (s * 2 ^ p)
  else of_Q (s # Z.to_pos (2 ^ (- p))).

(** The double nearest to the rational [q]; [negative] is the sign of the
    result when [q] is zero. *)
Definition round_Q (negative : bool) (q : Q) : number :=
  if Qnum q =? 0 then zero negative
  else round (Qnum q <? 0) (Z.abs (Qnum q)) (Zpos (Qden q)).

(** [-x] *)
Definition neg (x : number) : number :=
  match x with
  | Int z => if z =? 0 then NegZero else Int (- z)
  | Frac q => Frac (Qopp q)
  | NegZero => Int 0
  | Inf n => Inf (negb n)
  | NaN => NaN
  end.

(** [a + b]: a sum that is zero is the positive zero, unless both operands
    are the negative zero. *)
Definition add (a b : number) : number :=
  match a, b with
  | NaN, _ => NaN
  | _, NaN => NaN
  | Int x, Int y => round_Z (x + y)
  | Inf s, Inf t => if Bool.eqb s t then Inf s else NaN
  | Inf s, _ => Inf s
  | _, Inf t => Inf t
  | NegZero, _ => b
  | _, NegZero => a
  | _, _ => round_Q false (Qplus (to_Q a) (to_Q b))
  end.

(** [a - b] *)
Definition sub (a b : number) : number :=
  match a, b with
  | Int x, Int y => round_Z (x - y)
  | _, _ => add a (neg b)
  end.

(** [a * b]: the sign of the product, zero or not, is the exclusive or of
    the signs. *)
Definition mul (a b : number) : number :=
  match a, b with
  | NaN, _ => NaN
  | _, NaN => NaN
  | Int x, Int y =>
      if x * y =? 0 then zero (xorb (x <? 0) (y <? 0)) else round_Z (x * y)
  | Inf s, _ => if is_zero b then NaN else Inf (xorb s (is_negative b))
  | _, Inf t => if is_zero a then NaN else Inf (xorb t (is_negative a))
  | _, _ =>
      round_Q (xorb (is_negative a) (is_negative b)) (Qmult (to_Q a) (to_Q b))
  end.

(** [a / b]: no exception on a zero divisor, the result is an infinity or
    NaN. *)
Definition div (a b : number) : number :=
  match a, b with
  | NaN, _ => NaN
  | _, NaN => NaN
  | Inf _, Inf _ => NaN
  | Inf s, _ => Inf (xorb s (is_negative b))
  | _, Inf t => zero (xorb (is_negative a) t)
  | _, _ =>
      if is_zero b then
        if is_zero a then NaN else Inf (xorb (is_negative a) (is_negative b))
      else
        round_Q (xorb (is_negative a) (is_negative b))
          (Qdiv (to_Q a) (to_Q b))
  end.

(** The integer part of a finite number, rounding toward zero. *)
Definition trunc (x : number) : Z :=
  match x with
  | Int z => z
  | Frac q => Z.quot (Qnum q) (Zpos (Qden q))
  | _ => 0
  end.

(** [a % b]: the remainder is exact and has the sign of the dividend, also
    when it is zero; NaN on a zero divisor. *)
Definition rem (a b : number) : number :=
  match a, b with
  | NaN, _ => NaN
  | _, NaN => NaN
  | Inf _, _ => NaN
  | _, Inf _ => a
  | Int x, Int y =>
      if y =? 0 then NaN
      else if Z.rem x y =? 0 then zero (x <? 0) else Int (Z.rem x y)
  | _, _ =>
      if is_zero b then NaN
      else
        let k := Z.quot (Qnum (Qdiv (to_Q a) (to_Q b)))
                   (Zpos (Qden (Qdiv (to_Q a) (to_Q b)))) in
        let r := Qminus (to_Q a) (Qmult (to_Q b) (inject_Z k)) in
        if Qnum r =? 0 then zero (is_negative a) else of_Q r
  end.

(** Wrap-around to a signed 32-bit integer. *)
Definition wrap32 (z : Z) : Z := (z + 2 ^ 31) mod 2 ^ 32 - 2 ^ 31.

(** [ToInt32]: NaN, the zeros and the infinities become 0. *)
Definition ToInt32 (x : number) : Z := wrap32 (trunc x).

(** [ToUint32] *)
Definition ToUint32 (x : number) : Z := trunc x mod 2 ^ 32.

(** [a & b], [a | b], [a ^ b]: on the 32-bit two's complement operands. *)
Definition band (a b : number) : number := Int (Z.land (ToInt32 a) (ToInt32 b)).
Definition bor (a b : number) : number := Int (Z.lor (ToInt32 a) (ToInt32 b)).
Definition bxor (a b : number) : number := Int (Z.lxor (ToInt32 a) (ToInt32 b)).

(** [a << b]: the shift count is taken modulo 32 and the result wraps. *)
Definition shl (a b : number) : number :=
  Int (wrap32 (Z.shiftl (ToInt32 a) (ToUint32 b mod 32))).

(** [~a] *)
Definition bnot (a : number) : number := Int (Z.lnot (ToInt32 a)).

(** [Math.abs(a)] *)
Definition abs (a : number) : number :=
  match a with
  | Int z => Int (Z.abs z)
  | Frac q => Frac (Qabs q)
  | NegZero => Int 0
  | Inf _ => Inf false
  | NaN => NaN
  end.

(** [a < b]: the two zeros compare equal. *)
Definition lt (a b : number) : bool :=
  match a, b with
  | NaN, _ => false
  | _, NaN => false
  | Int x, Int y => x <? y
  | Inf s, Inf t => s && negb t
  | Inf s, _ => s
  | _, Inf t => negb t
  | _, _ => match Qcompare (to_Q a) (to_Q b) with Lt => true | _ => false end
  end.

(** [a === b]: NaN differs from itself, the two zeros are equal. *)
Definition strict_eq (a b : number) : bool :=
  match a, b with
  | NaN, _ => false
  | _, NaN => false
  | Int x, Int y => x =? y
  | Inf s, Inf t => Bool.eqb s t
  | Inf _, _ => false
  | _, Inf _ => false
  | _, _ => Qeq_bool (to_Q a) (to_Q b)
  end.

(** The integers that are doubles. *)
Definition is_double (z : Z) : Prop := round_Z z = Int z.

Arguments round_Z : simpl never.
Arguments round_Q : simpl never.

End Number.

(** ** Expressions

    [core2/analysis/ir/expressions] is required by the simplifier but is not
    part of this file set; its data model is taken from the specification. *)
Module Expr.

Import Number.

(** The sub-variants of a unary expression. *)
Inductive uop : Type := Neg | Not | BoolNot | AddrOf | Deref.

(** The sub-variants of a binary expression. *)
Inductive bop : Type :=
| Add | Sub | Mul | Div | Mod
| And | Or | Xor | Shl | Shr
| BoolAnd | BoolOr
| EQ | NE | LT | LE | GT | GE.

(** The comparison constructors are known under two names. *)
Abbreviation NEQ := NE.
Abbreviation LTE := LE.
Abbreviation GTE := GE.

(** The leaf placeholders. *)
Inductive unknown : Type := Register | Variable_ | Memory.

(** Modelled from the spec: the expression classes of the absent
    [expressions] module.  A [Val] is built by [new Expr.Val(value, size)];
    an omitted [size] argument leaves the attribute [undefined], here
    [None].  The leaves carry their size; the size attribute of an operator
    node is whatever the absent module derives for it, see [node_size]
    below. *)
Inductive expr : Type :=
| Val (value : number) (size : option N)
| Leaf (kind : unknown) (name : string) (size : option N)
| UExpr (op : uop) (operand : expr)
| BExpr (op : bop) (lhand rhand : expr).

Definition uop_eqb (a b : uop) : bool :=
  match a, b with
  | Neg, Neg | Not, Not | BoolNot, BoolNot | AddrOf, AddrOf | Deref, Deref => true
  | _, _ => false
  end.

Definition bop_index (o : bop) : nat :=
  match o with
  | Add => 0 | Sub => 1 | Mul => 2 | Div => 3 | Mod => 4
  | And => 5 | Or => 6 | Xor => 7 | Shl => 8 | Shr => 9
  | BoolAnd => 10 | BoolOr => 11
  | EQ => 12 | NE => 13 | LT => 14 | LE => 15 | GT => 16 | GE => 17
  end%nat.

(** [a.constructor === b.constructor] on binary expressions. *)
Definition bop_eqb (a b : bop) : bool := Nat.eqb (bop_index a) (bop_index b).

Definition unknown_eqb (a b : unknown) : bool :=
  match a, b with
  | Register, Register | Variable_, Variable_ | Memory, Memory => true
  | _, _ => false
  end.

(** [a === b] on a size attribute: a number or [undefined]. *)
Definition size_eqb (a b : option N) : bool :=
  match a, b with
  | Some x, Some y => N.eqb x y
  | None, None => true
  | _, _ => false
  end.

(** A size attribute read as a number: [undefined] converts to NaN. *)
Definition size_number (s : option N) : number :=
  match s with
  | Some n => Int (Z.of_N n)
  | None => NaN
  end.

(** [e instanceof Expr.Val] *)
Definition is_Val (e : expr) : bool :=
  match e with
  | Val _ _ => true
  | _ => false
  end.

(** A position in a tree: the operand indices from the root down. *)
Definition path : Type := list nat.

Definition below (i : nat) (o : path * expr) : path * expr :=
  (i :: fst o, snd o).

(** Modelled from the spec: [iter_operands(true)] yields every
    subexpression, the root included, in post-order; each one is listed with
    its position, which stands for the parent link of the object. *)
Fixpoint iter_operands (e : expr) : list (path * expr) :=
  match e with
  | Val _ _ | Leaf _ _ _ => [([], e)]
  | UExpr _ x => map (below 0) (iter_operands x) ++ [([], e)]
  | BExpr _ l r =>
      map (below 0) (iter_operands l) ++ map (below 1) (iter_operands r)
        ++ [([], e)]
  end.

(** Modelled from the spec: [o.replace(alt)] puts [alt] in the operand slot
    that holds [o]; [p] is the position of [o] in the tree [e], and the
    result is the tree after the update. *)
Fixpoint replace (p : path) (alt e : expr) : expr :=
  match p with
  | [] => alt
  | i :: p' =>
      match e, i with
      | UExpr o x, O => UExpr o (replace p' alt x)
      | BExpr o l r, O => BExpr o (replace p' alt l) r
      | BExpr o l r, S O => BExpr o l (replace p' alt r)
      | _, _ => e
      end
  end.

Section Size.

(** The size attribute of an operator node, as the absent module computes
    it from the operator and the operands. *)
Variable node_size : expr -> option N.

(** [e.size] *)
Definition size (e : expr) : option N :=
  match e with
  | Val _ s => s
  | Leaf _ _ s => s
  | _ => node_size e
  end.

(** Modelled from the spec: [a.equals(b)] holds when both are the same
    variant with the same size, equal scalar attributes and pairwise equal
    operands. *)
Fixpoint equals (a b : expr) : bool :=
  match a, b with
  | Val v s, Val v' s' => strict_eq v v' && size_eqb s s'
  | Leaf k n s, Leaf k' n' s' =>
      unknown_eqb k k' && String.eqb n n' && size_eqb s s'
  | UExpr o x, UExpr o' x' =>
      uop_eqb o o' && size_eqb (node_size a) (node_size b) && equals x x'
  | BExpr o l r, BExpr o' l' r' =>
      bop_eqb o o' && size_eqb (node_size a) (node_size b)
        && equals l l' && equals r r'
  | _, _ => false
  end.

End Size.

End Expr.

(** ** The simplifier: [simplify.js] *)
Module Simplify.

Import Number.
Import Expr.

Section Rules.

Variable node_size : expr -> option N.

Local Abbreviation size := (Expr.size node_size).
Local Abbreviation equals := (Expr.equals node_size).

(** A rule returns a replacement, or [null] (here [None]). *)
Definition rule : Type := expr -> option expr.

Definition assoc_ops (o : bop) : bool :=
  match o with
  | Add | Mul | And | Or | Xor => true
  | _ => false
  end.

(** [((x op c1) op c0)] becomes [(x op (c1 op c0))]. *)
Definition _ctx_fold_assoc : rule := fun expr =>
  match expr with
  | BExpr oexpr_op olhand orhand =>
      if assoc_ops oexpr_op then
        match olhand with
        | BExpr iexpr_op ilhand irhand =>
            if assoc_ops iexpr_op then
              if bop_eqb oexpr_op iexpr_op && is_Val orhand && is_Val irhand
              then
                let new_lhand := ilhand in
                let new_rhand := BExpr iexpr_op irhand orhand in
                Some (BExpr oexpr_op new_lhand new_rhand)
              else None
            else None
        | _ => None
        end
      else None
  | _ => None
  end.

Definition arith_ops (o : bop) : bool :=
  match o with
  | Add | Sub => true
  | _ => false
  end.

(** [((x op1 c1) op0 c0)] becomes [(x op0 (sign * c1 + c0))]. *)
Definition _ctx_fold_arith : rule := fun expr =>
  match expr with
  | BExpr oexpr_op olhand orhand =>
      if arith_ops oexpr_op then
        match olhand with
        | BExpr iexpr_op ilhand irhand =>
            if arith_ops iexpr_op then
              match orhand, irhand with
              | Val ovalue _, Val ivalue isize =>
                  let sign := if bop_eqb oexpr_op iexpr_op then Int 1 else Int (-1) in
                  let new_lhand := ilhand in
                  let new_rhand := Val (add (mul ivalue sign) ovalue) isize in
                  Some (BExpr oexpr_op new_lhand new_rhand)
              | _, _ => None
              end
            else None
        | _ => None
        end
      else None
  | _ => None
  end.

(** The table of [_constant_folding], indexed by the constructor name. *)
Definition operations (o : bop) : option (number -> number -> number) :=
  match o with
  | Add => Some add
  | Sub => Some sub
  | Mul => Some mul
  | Div => Some div
  | Mod => Some rem
  | And => Some band
  | Or => Some bor
  | Xor => Some bxor
  | _ => None
  end.

Definition _constant_folding : rule := fun expr =>
  match expr with
  | BExpr o lhand rhand =>
      match operations o with
      | Some op =>
          match lhand, rhand with
          | Val lvalue lsize, Val rvalue _ => Some (Val (op lvalue rvalue) lsize)
          | _, _ => None
          end
      | None => None
      end
  | _ => None
  end.

Definition _correct_arith : rule := fun expr =>
  match expr with
  | BExpr o lhand rhand =>
      match o with
      | Add | Sub =>
          let ZERO := Val (Int 0) (size rhand) in
          if equals rhand ZERO then Some lhand else None
      | Mul | Div =>
          let ONE := Val (Int 1) (size rhand) in
          if equals rhand ONE then Some lhand else None
      | _ => None
      end
  | _ => None
  end.

Definition _negate : rule := fun expr =>
  match expr with
  | UExpr BoolNot op =>
      match op with
      | BExpr o inner_lhand inner_rhand =>
          match o with
          | BoolAnd =>
              Some (BExpr BoolOr (UExpr BoolNot inner_lhand) (UExpr BoolNot inner_rhand))
          | BoolOr =>
              Some (BExpr BoolAnd (UExpr BoolNot inner_lhand) (UExpr BoolNot inner_rhand))
          | EQ => Some (BExpr NEQ inner_lhand inner_rhand)
          | NEQ => Some (BExpr EQ inner_lhand inner_rhand)
          | GT => Some (BExpr LTE inner_lhand inner_rhand)
          | GTE => Some (BExpr LT inner_lhand inner_rhand)
          | LT => Some (BExpr GTE inner_lhand inner_rhand)
          | LTE => Some (BExpr GT inner_lhand inner_rhand)
          | Add => Some (BExpr EQ inner_lhand (UExpr Neg inner_rhand))
          | Sub => Some (BExpr EQ inner_lhand inner_rhand)
          | _ => None
          end
      | UExpr BoolNot inner_op => Some inner_op
      | _ => None
      end
  | _ => None
  end.

Definition isNegativeValue (e : expr) : bool :=
  match e with
  | Val value _ => lt value (Int 0)
  | _ => false
  end.

(** [rhand.value = Math.abs(rhand.value)]: the operand after the update. *)
Definition abs_value (e : expr) : expr :=
  match e with
  | Val value s => Val (abs value) s
  | _ => e
  end.

Definition _correct_sign : rule := fun expr =>
  match expr with
  | BExpr Add lhand rhand =>
      if isNegativeValue rhand then Some (BExpr Sub lhand (abs_value rhand))
      else None
  | BExpr Sub lhand rhand =>
      if isNegativeValue rhand then Some (BExpr Add lhand (abs_value rhand))
      else None
  | _ => None
  end.

Definition _correct_ref : rule := fun expr =>
  match expr with
  | UExpr AddrOf (UExpr Deref x) => Some x
  | UExpr Deref (UExpr AddrOf x) => Some x
  | _ => None
  end.

(** [(1 << lhand.size) - 1] *)
Definition all_ones (s : option N) : number :=
  sub (shl (Int 1) (size_number s)) (Int 1).

Definition _correct_bitwise : rule := fun expr =>
  match expr with
  | BExpr o lhand rhand =>
      let ZERO := Val (Int 0) (size lhand) in
      let FF := Val (all_ones (size lhand)) (size lhand) in
      match o with
      | Xor =>
          if equals rhand ZERO then Some lhand
          else if equals rhand lhand then Some ZERO
          else if equals rhand FF then Some (UExpr Not lhand)
          else None
      | Or =>
          if equals rhand ZERO || equals rhand lhand then Some lhand
          else if equals rhand FF then Some FF
          else None
      | And =>
          if equals rhand ZERO || equals rhand lhand then Some rhand
          else if equals rhand FF then Some lhand
          else None
      | Shl =>
          match lhand, rhand with
          | BExpr Shr inner_lhand inner_rhand, Val rvalue rsize =>
              if is_Val inner_rhand && equals inner_rhand rhand then
                let mask := Val (bnot (sub (shl (Int 1) rvalue) (Int 1))) rsize in
                Some (BExpr And inner_lhand mask)
              else None
          | _, _ => None
          end
      | _ => None
      end
  | _ => None
  end.

Definition _equality : rule := fun expr =>
  match expr with
  | BExpr EQ lhand rhand =>
      match lhand with
      | BExpr lop x y =>
          let constants :=
            match y, rhand with
            | Val c1 _, Val c2 _ =>
                match lop with
                | Add => Some (BExpr EQ x (Val (sub c2 c1) None))
                | Sub => Some (BExpr EQ x (Val (add c2 c1) None))
                | _ => None
                end
            | _, _ => None
            end in
          match constants with
          | Some alt => Some alt
          | None =>
              if equals rhand (Val (Int 0) (size rhand)) then
                match lop with
                | Sub => Some (BExpr EQ x y)
                | Add => Some (BExpr EQ x (UExpr Neg y))
                | _ => None
                end
              else None
          end
      | _ => None
      end
  | _ => None
  end.

Definition _converged_cond : rule := fun expr =>
  match expr with
  | BExpr BoolOr lhand rhand =>
      match lhand, rhand with
      | BExpr lop x0 y0, BExpr rop x1 y1 =>
          if equals x0 x1 && equals y0 y1 then
            match lop, rop with
            | GT, EQ => Some (BExpr GE x0 y0)
            | LT, EQ => Some (BExpr LE x0 y0)
            | LT, GT => Some (BExpr NE x0 y0)
            | _, _ => None
            end
          else None
      | _, _ => None
      end
  | _ => None
  end.

Definition rules : list rule :=
  [ _correct_arith;
    _correct_sign;
    _correct_ref;
    _correct_bitwise;
    _equality;
    _negate;
    _converged_cond;
    _constant_folding;
    _ctx_fold_assoc;
    _ctx_fold_arith ].

(** The inner loop of [_reduce_expr_once]: the first rule of [rs] that
    returns a replacement for [o]. *)
Fixpoint first_alt (rs : list rule) (o : expr) : option expr :=
  match rs with
  | [] => None
  | r :: rs' =>
      match r o with
      | Some alt => Some alt
      | None => first_alt rs' o
      end
  end.

(** The outer loop: the first listed subexpression that some rule
    rewrites, with its replacement. *)
Fixpoint first_rewrite (operands : list (path * expr)) : option (path * expr) :=
  match operands with
  | [] => None
  | (p, o) :: rest =>
      match first_alt rules o with
      | Some alt => Some (p, alt)
      | None => first_rewrite rest
      end
  end.

(** One pass.  The source returns [alt] and updates the tree in place; the
    loop in [_reduce_expr] only tests the result, so the value here is the
    tree after [o.replace(alt)], and [None] when no rule fired. *)
Definition _reduce_expr_once (expr : expr) : option Expr.expr :=
  match first_rewrite (iter_operands expr) with
  | Some (p, alt) => Some (replace p alt expr)
  | None => None
  end.

(** [while (_reduce_expr_once(expr)) {}] run for at most [fuel] passes;
    [None] when a rewrite is still possible after them. *)
Fixpoint reduce_loop (fuel : nat) (expr : expr) : option Expr.expr :=
  match _reduce_expr_once expr with
  | None => Some expr
  | Some expr' =>
      match fuel with
      | O => None
      | S fuel' => reduce_loop fuel' expr'
      end
  end.

End Rules.

(** The measure that every rewrite decreases: an operator counts its left
    operand twice, [BoolNot] doubles its operand, and a negative constant
    is heavier than any other leaf. *)
Fixpoint weight (e : expr) : nat :=
  match e with
  | Val value _ => if lt value (Int 0) then 3 else 2
  | Leaf _ _ _ => 2
  | UExpr BoolNot x => 2 * weight x
  | UExpr _ x => weight x + 1
  | BExpr _ l r => 2 * weight l + weight r + 1
  end%nat.

(** [_reduce_expr]: the loop stops within [weight expr] passes
    ([reduce_loop_total] below), so the result is the tree it stops at. *)
Definition _reduce_expr (node_size : expr -> option N) (expr : expr) : Expr.expr :=
  match reduce_loop node_size (weight expr) expr with
  | Some reduced => reduced
  | None => expr
  end.

(** A rule is decreasing when its replacement is lighter than the
    expression it replaces. *)
Definition decreasing (r : rule) : Prop :=
  forall e alt, r e = Some alt -> (weight alt < weight e)%nat.

(** One rewrite anywhere: some rule of the list fires at some subexpression
    [o] of [e] and [o] is replaced. *)
Definition rewrites (node_size : expr -> option N) (e e' : expr) : Prop :=
  exists p o r alt,
    In (p, o) (iter_operands e) /\ In r (rules node_size) /\ r o = Some alt
    /\ e' = replace p alt e.

Definition is_some {A : Type} (o : option A) : bool :=
  match o with
  | Some _ => true
  | None => false
  end.

(** Every [Val] of the tree has a size. *)
Fixpoint values_sized (e : expr) : bool :=
  match e with
  | Val _ s => is_some s
  | Leaf _ _ _ => true
  | UExpr _ x => values_sized x
  | BExpr _ l r => values_sized l && values_sized r
  end.

(** Every node of the tree has a size. *)
Fixpoint sized (node_size : expr -> option N) (e : expr) : bool :=
  match e with
  | Val _ s => is_some s
  | Leaf _ _ s => is_some s
  | UExpr _ x => is_some (node_size e) && sized node_size x
  | BExpr _ l r =>
      is_some (node_size e) && sized node_size l && sized node_size r
  end.

(** A rule keeps the sizes when, on a tree whose nodes all have one, the
    [Val]s of its replacement all have one. *)
Definition sizing (node_size : expr -> option N) (r : rule) : Prop :=
  forall e alt, sized node_size e = true -> r e = Some alt ->
  values_sized alt = true.

(** A size attribute to run the simplifier with: an operator node has the
    width of its first operand. *)
Fixpoint operand_size (e : expr) : option N :=
  match e with
  | Val _ s => s
  | Leaf _ _ s => s
  | UExpr _ x => operand_size x
  | BExpr _ l _ => operand_size l
  end.

(** Operands for concrete trees: two 32-bit registers and constants of 32
    and of 8 bits. *)
Definition eax : expr := Leaf Register "eax"%string (Some 32%N).
Definition ebx : expr := Leaf Register "ebx"%string (Some 32%N).
Definition imm32 (z : Z) : expr := Val (Int z) (Some 32%N).
Definition imm8 (z : Z) : expr := Val (Int z) (Some 8%N).

End Simplify.

(** ** Graphs: [Directed], [DFSpanningTree] and [DominatorTree] *)
Module Graph.

(** The option monad: [None] is an uncaught exception, a [TypeError] on
    a property of [undefined] or a recursion that never returns. *)
Notation "x <- c ;; k" := (match c with Some x => k | None => None end)
  (at level 61, c at next level, right associativity).
Notation "' p <- c ;; k" := (match c with Some p => k | None => None end)
  (at level 61, p pattern, c at next level, right associativity).

Fixpoint foldM {A B : Type} (f : A -> B -> option A) (l : list B) (a : A)
  : option A :=
  match l with
  | [] => Some a
  | b :: l' => a' <- f a b ;; foldM f l' a'
  end.

(** A node key: a number (an address) or a string. *)
Inductive keyval : Type :=
| Num (n : N)
| Str (s : string).

(** [a === b] on keys. *)
Definition key_eqb (a b : keyval) : bool :=
  match a, b with
  | Num x, Num y => N.eqb x y
  | Str x, Str y => String.eqb x y
  | _, _ => false
  end.

Definition decimal (n : N) : string := NilEmpty.string_of_uint (N.to_uint n).

(** The property name a key is stored under: [this.nodes[key]].  A number
    is named by its decimal digits, which is the name JavaScript gives to
    an integer below [2^53]. *)
Definition ToPropertyKey (k : keyval) : string :=
  match k with
  | Num n => decimal n
  | Str s => s
  end.

(** [if (key)]: the number 0 and the empty string are falsy. *)
Definition truthy (k : keyval) : bool :=
  match k with
  | Num n => negb (N.eqb n 0)
  | Str s => negb (String.eqb s "")
  end.

(** A property name is an array index when it is the canonical decimal form
    of an integer below 2^32 - 1. *)
Definition array_index (name : string) : option N :=
  match NilEmpty.uint_of_string name with
  | Some u =>
      let n := N.of_uint u in
      if String.eqb (decimal n) name && N.ltb n (2 ^ 32 - 1) then Some n
      else None
  | None => None
  end.

(** A JavaScript object used as a map.  The list holds the own properties
    and is kept in the order in which [Object.keys] enumerates them: the
    array indices in ascending order, then the other names in insertion
    order.  What the object inherits from its prototype is not part of the
    list. *)
Section Object.

Context {A : Type}.

Definition object : Type := list (string * A).

Fixpoint get (o : object) (name : string) : option A :=
  match o with
  | [] => None
  | (k, v) :: o' => if String.eqb k name then Some v else get o' name
  end.

Fixpoint update (o : object) (name : string) (v : A) : object :=
  match o with
  | [] => []
  | (k, w) :: o' =>
      if String.eqb k name then (k, v) :: o' else (k, w) :: update o' name v
  end.

Fixpoint insert_index (o : object) (i : N) (name : string) (v : A) : object :=
  match o with
  | [] => [(name, v)]
  | (k, w) :: o' =>
      match array_index k with
      | Some j =>
          if N.ltb j i then (k, w) :: insert_index o' i name v
          else (name, v) :: o
      | None => (name, v) :: o
      end
  end.

(** [o[name] = v] *)
Definition set (o : object) (name : string) (v : A) : object :=
  match get o name with
  | Some _ => update o name v
  | None =>
      match array_index name with
      | Some i => insert_index o i name v
      | None => o ++ [(name, v)]
      end
  end.

(** [delete o[name]] *)
Fixpoint remove (o : object) (name : string) : object :=
  match o with
  | [] => []
  | (k, w) :: o' =>
      if String.eqb k name then o' else (k, w) :: remove o' name
  end.

(** [o[name] = v] where [v] may be [undefined]; reading the property
    afterwards gives [v] either way. *)
Definition assign (o : object) (name : string) (v : option A) : object :=
  match v with
  | Some x => set o name x
  | None => remove o name
  end.

(** [Object.keys(o)] *)
Definition keys (o : object) : list string := map fst o.

End Object.

Arguments object : clear implicits.

(** Nodes are objects; inside one graph a node is referred to by the
    property name it is stored under. *)
Definition ref : Type := string.

Record Node : Type := mkNode {
  key : keyval;
  inbound : list ref;
  outbound : list ref
}.

Record Directed_ : Type := mkDirected {
  nodes : object Node;
  root : option ref
}.

Definition addNode (g : Directed_) (k : keyval) : Directed_ :=
  mkDirected (set (nodes g) (ToPropertyKey k) (mkNode k [] [])) (root g).

Definition getNode (g : Directed_) (k : keyval) : option Node :=
  get (nodes g) (ToPropertyKey k).

(** [setRoot]: the root is [undefined] when the key is absent. *)
Definition setRoot (g : Directed_) (k : keyval) : Directed_ :=
  mkDirected (nodes g)
    (match getNode g k with Some _ => Some (ToPropertyKey k) | None => None end).

(** [addEdge] throws when an endpoint is absent. *)
Definition addEdge (g : Directed_) (edge : keyval * keyval) : option Directed_ :=
  let s := ToPropertyKey (fst edge) in
  let d := ToPropertyKey (snd edge) in
  src <- get (nodes g) s ;;
  _ <- get (nodes g) d ;;
  let nodes1 := update (nodes g) s (mkNode (key src) (inbound src) (outbound src ++ [d])) in
  dst <- get nodes1 d ;;
  Some (mkDirected
          (update nodes1 d (mkNode (key dst) (inbound dst ++ [s]) (outbound dst)))
          (root g)).

(** [new Directed(nodes, edges, root)] *)
Definition Directed (nodes_ : list keyval) (edges : list (keyval * keyval))
    (root_ : option keyval) : option Directed_ :=
  let g0 := fold_left addNode nodes_ (mkDirected [] None) in
  g1 <- foldM addEdge edges g0 ;;
  match root_ with
  | Some k => if truthy k then Some (setRoot g1 k) else Some g1
  | None => Some g1
  end.

(** [Directed.prototype.iterNodes]: the nodes in [Object.keys] order. *)
Definition iterNodes (g : Directed_) : list ref := keys (nodes g).

(** [predecessors(node)], [successors(node)]: looked up by the node's key. *)
Definition predecessors (g : Directed_) (k : keyval) : option (list ref) :=
  n <- getNode g k ;; Some (inbound n).

Definition successors (g : Directed_) (k : keyval) : option (list ref) :=
  n <- getNode g k ;; Some (outbound n).

(** The depth-first spanning tree, with the order of discovery and the
    [dfnum] of every node. *)
Record DFSpanningTree_ : Type := mkDFSpanningTree {
  tree : Directed_;
  keys_dfs : list keyval;
  dfnum : object N
}.

(** The closure [explore] of [DFSpanningTree]; the state is the pair
    [(_nodes, _edges)], [n] a node of [g].  Every call adds a node, so a
    recursion deeper than the number of nodes does not happen; [fuel]
    bounds the depth. *)
Fixpoint explore (fuel : nat) (g : Directed_) (n : ref)
    (st : list keyval * list (keyval * keyval))
  : option (list keyval * list (keyval * keyval)) :=
  match fuel with
  | O => None
  | S fuel' =>
      nd <- get (nodes g) n ;;
      succs <- successors g (key nd) ;;
      foldM (fun st succ =>
               sn <- get (nodes g) succ ;;
               if existsb (key_eqb (key sn)) (fst st) then Some st
               else explore fuel' g succ (fst st, snd st ++ [(key nd, key sn)]))
            succs (fst st ++ [key nd], snd st)
  end.

Fixpoint number_from (i : N) (ks : list keyval) (o : object N) : object N :=
  match ks with
  | [] => o
  | k :: ks' => number_from (N.succ i) ks' (set o (ToPropertyKey k) i)
  end.

(** [new DFSpanningTree(g)] *)
Definition DFSpanningTree (g : Directed_) : option DFSpanningTree_ :=
  r <- root g ;;
  '(_nodes, _edges) <- explore (S (List.length (nodes g))) g r ([], []) ;;
  t <- Directed _nodes _edges (hd_error _nodes) ;;
  Some (mkDFSpanningTree t _nodes (number_from 0 _nodes [])).

(** [DFSpanningTree.prototype.parent] *)
Definition parent (t : DFSpanningTree_) (k : keyval) : option ref :=
  match predecessors (tree t) k with
  | Some (p :: _) => Some p
  | _ => None
  end.

(** The fields that [DominatorTree] keeps on the nodes of the spanning
    tree while it runs, one table per field; a node without an entry has the
    field [undefined]. *)
Module Scratch.
Record t : Type := mk {
  semi : object ref;
  ancestor : object ref;
  best : object ref;
  idom : object ref;
  samedom : object ref;
  bucket : object (list ref)
}.
Definition with_semi (s : t) (x : object ref) : t :=
  mk x (ancestor s) (best s) (idom s) (samedom s) (bucket s).
Definition with_ancestor (s : t) (x : object ref) : t :=
  mk (semi s) x (best s) (idom s) (samedom s) (bucket s).
Definition with_best (s : t) (x : object ref) : t :=
  mk (semi s) (ancestor s) x (idom s) (samedom s) (bucket s).
Definition with_idom (s : t) (x : object ref) : t :=
  mk (semi s) (ancestor s) (best s) x (samedom s) (bucket s).
Definition with_samedom (s : t) (x : object ref) : t :=
  mk (semi s) (ancestor s) (best s) (idom s) x (bucket s).
Definition with_bucket (s : t) (x : object (list ref)) : t :=
  mk (semi s) (ancestor s) (best s) (idom s) (samedom s) x.
End Scratch.
Import Scratch.

(** [a == b] on two node references, either of which may be [undefined]. *)
Definition ref_eqb (a b : option ref) : bool :=
  match a, b with
  | Some x, Some y => String.eqb x y
  | None, None => true
  | _, _ => false
  end.

(** The closure [AncestorWithLowestSemi]; [fuel] bounds the recursion
    along the [ancestor] links. *)
Fixpoint AncestorWithLowestSemi (fuel : nat) (dfs : DFSpanningTree_) (v : ref)
    (st : Scratch.t) : option (ref * Scratch.t) :=
  match fuel with
  | O => None
  | S fuel' =>
      a <- get (ancestor st) v ;;
      st1 <- match get (ancestor st) a with
             | Some _ =>
                 '(b, st') <- AncestorWithLowestSemi fuel' dfs a st ;;
                 let st'' :=
                   with_ancestor st' (assign (ancestor st') v (get (ancestor st') a)) in
                 b_semi <- get (semi st'') b ;;
                 b_num <- get (dfnum dfs) b_semi ;;
                 v_best <- get (best st'') v ;;
                 v_semi <- get (semi st'') v_best ;;
                 v_num <- get (dfnum dfs) v_semi ;;
                 Some (if N.ltb b_num v_num
                       then with_best st'' (set (best st'') v b)
                       else st'')
             | None => Some st
             end ;;
      v_best <- get (best st1) v ;;
      Some (v_best, st1)
  end.

(** [Link(p, n)] *)
Definition Link (p n : ref) (st : Scratch.t) : Scratch.t :=
  let st' := with_ancestor st (set (ancestor st) n p) in
  with_best st' (set (best st') n n).

(** The body of the main loop of [DominatorTree] for the node [n] of the
    spanning tree. *)
Definition visit (fuel : nat) (g : Directed_) (dfs : DFSpanningTree_)
    (st : Scratch.t) (n : ref) : option Scratch.t :=
  nd <- get (nodes (tree dfs)) n ;;
  p <- parent dfs (key nd) ;;
  preds <- predecessors g (key nd) ;;
  '(s, st1) <-
    foldM (fun '(s, st) pred =>
             pn <- get (nodes g) pred ;;
             _ <- getNode (tree dfs) (key pn) ;;
             let v := ToPropertyKey (key pn) in
             v_num <- get (dfnum dfs) v ;;
             n_num <- get (dfnum dfs) n ;;
             '(s_tag, st') <-
               (if N.leb v_num n_num then Some (v, st)
                else
                  '(y, st') <- AncestorWithLowestSemi fuel dfs v st ;;
                  y_semi <- get (semi st') y ;;
                  Some (y_semi, st')) ;;
             s_tag_num <- get (dfnum dfs) s_tag ;;
             s_num <- get (dfnum dfs) s ;;
             Some (if N.ltb s_tag_num s_num then s_tag else s, st'))
          preds (p, st) ;;
  let st2 := with_semi st1 (set (semi st1) n s) in
  s_bucket <- get (bucket st2) s ;;
  let st3 :=
    if existsb (String.eqb n) s_bucket then st2
    else with_bucket st2 (set (bucket st2) s (s_bucket ++ [n])) in
  let st4 := Link p n st3 in
  p_bucket <- get (bucket st4) p ;;
  st5 <-
    foldM (fun st v =>
             '(y, st') <- AncestorWithLowestSemi fuel dfs v st ;;
             if ref_eqb (get (semi st') y) (get (semi st') v)
             then Some (with_idom st' (set (idom st') v p))
             else Some (with_samedom st' (set (samedom st') v y)))
          (rev p_bucket) st4 ;;
  Some (with_bucket st5 (set (bucket st5) p [])).

(** The second loop: [samedom] is resolved and the edge from the immediate
    dominator is recorded. *)
Definition resolve (dfs : DFSpanningTree_)
    (acc : Scratch.t * list (keyval * keyval)) (n : ref)
  : option (Scratch.t * list (keyval * keyval)) :=
  let '(st, edges) := acc in
  let st' :=
    match get (samedom st) n with
    | Some sd => with_idom st (assign (idom st) n (get (idom st) sd))
    | None => st
    end in
  n_idom <- get (idom st') n ;;
  idom_node <- get (nodes (tree dfs)) n_idom ;;
  nd <- get (nodes (tree dfs)) n ;;
  Some (st', edges ++ [(key idom_node, key nd)]).

Record DominatorTree_ : Type := mkDominatorTree {
  cfg : Directed_;
  dom : Directed_;
  DF : object (list ref)
}.

(** [new DominatorTree(g)]; [dom] holds the nodes and the root of the new
    object, [DF] the memoized frontiers, none at first. *)
Definition DominatorTree (g : Directed_) : option DominatorTree_ :=
  dfstree <- DFSpanningTree g ;;
  let nodes_ := map ToPropertyKey (keys_dfs dfstree) in
  let fuel := S (List.length nodes_) in
  let init :=
    Scratch.mk [] [] [] [] [] (fold_left (fun b n => set b n []) nodes_ []) in
  st <- foldM (visit fuel g dfstree) (rev (tl nodes_)) init ;;
  '(_, edges) <- foldM (resolve dfstree) (tl nodes_) (st, []) ;;
  let keys_ := map Str (keys (nodes (tree dfstree))) in
  d <- Directed keys_ edges (hd_error keys_) ;;
  Some (mkDominatorTree g d []).

(** [n.idom], set by the constructor to [n.inbound[0]]. *)
Definition idom (d : DominatorTree_) (n : ref) : option ref :=
  nd <- get (nodes (dom d)) n ;; hd_error (inbound nd).

(** [DominatorTree.prototype.dominates]; [u] may be [undefined].  [fuel]
    bounds the recursion along the [idom] links. *)
Fixpoint dominates (fuel : nat) (d : DominatorTree_) (v : ref) (u : option ref)
  : option bool :=
  match fuel with
  | O => None
  | S fuel' =>
      if ref_eqb u (Some v) then Some true
      else if ref_eqb u (root (dom d)) then Some false
      else
        match u with
        | Some un => dominates fuel' d v (idom d un)
        | None => None
        end
  end.

Definition strictlyDominates (fuel : nat) (d : DominatorTree_) (v u : ref)
  : option bool :=
  if negb (String.eqb v u) then dominates fuel d v (Some u) else Some false.

(** [S.indexOf(y) === -1] and [S.push(y)] *)
Definition push_new (S_ : list ref) (y : ref) : list ref :=
  if existsb (String.eqb y) S_ then S_ else S_ ++ [y].

(** [DominatorTree.prototype.dominanceFrontier]: the frontier of [n] and
    the tree with the memoized sets. *)
Fixpoint dominanceFrontier (fuel : nat) (d : DominatorTree_) (n : ref)
  : option (list ref * DominatorTree_) :=
  match fuel with
  | O => None
  | S fuel' =>
      match get (DF d) n with
      | Some S_ => Some (S_, d)
      | None =>
          nd <- get (nodes (dom d)) n ;;
          cfg_succs <- successors (cfg d) (key nd) ;;
          S1 <- foldM (fun S_ succ =>
                         sn <- get (nodes (cfg d)) succ ;;
                         _ <- getNode (dom d) (key sn) ;;
                         let y := ToPropertyKey (key sn) in
                         if negb (ref_eqb (idom d y) (Some n))
                         then Some (push_new S_ y)
                         else Some S_)
                      cfg_succs [] ;;
          children <- successors (dom d) (key nd) ;;
          '(S2, d2) <-
            foldM (fun '(S_, d') c =>
                     '(DFc, d'') <- dominanceFrontier fuel' d' c ;;
                     S' <- foldM (fun S_ w =>
                                    dom_w <- dominates (S (List.length (nodes (dom d)))) d'' n (Some w) ;;
                                    if negb dom_w || String.eqb n w
                                    then Some (push_new S_ w)
                                    else Some S_)
                                 DFc S_ ;;
                     Some (S', d''))
                  children (S1, d) ;;
          Some (S2, mkDominatorTree (cfg d2) (dom d2) (set (DF d2) n S2))
      end
  end.

(** [dominates(v, u)] and [dominanceFrontier(n)] with enough fuel for
    every chain of distinct nodes. *)
Definition dominates_ (d : DominatorTree_) (v u : ref) : option bool :=
  dominates (S (List.length (nodes (dom d)))) d v (Some u).

Definition dominanceFrontier_ (d : DominatorTree_) (n : ref)
  : option (list ref) :=
  option_map fst (dominanceFrontier (S (List.length (nodes (dom d)))) d n).

(** The frontiers of several nodes asked one after the other of the same
    tree, each call seeing the sets the earlier ones memoized. *)
Fixpoint frontiers (d : DominatorTree_) (ns : list ref)
  : option (list (list ref)) :=
  match ns with
  | [] => Some []
  | n :: ns' =>
      '(S_, d') <- dominanceFrontier (S (List.length (nodes (dom d)))) d n ;;
      rest <- frontiers d' ns' ;;
      Some (S_ :: rest)
  end.

(** The diamond: [A -> B], [A -> C], [B -> D], [C -> D], root [A]. *)
Definition diamond : option Directed_ :=
  Directed [Str "A"; Str "B"; Str "C"; Str "D"]
    [(Str "A", Str "B"); (Str "A", Str "C"); (Str "B", Str "D");
     (Str "C", Str "D")]
    (Some (Str "A")).

(** Two blocks keyed by their addresses, the entry at the higher one:
    [new Directed([2, 1], [[2, 1]], 2)]. *)
Definition entry_above : option Directed_ :=
  Directed [Num 2; Num 1] [(Num 2, Num 1)] (Some (Num 2)).

(** The same two blocks keyed by names. *)
Definition entry_named : option Directed_ :=
  Directed [Str "entry"; Str "exit"] [(Str "entry", Str "exit")]
    (Some (Str "entry")).

End Graph.

(** ** Predicates for the properties of the simplifier *)
Module SimplifyProps.
Import Expr.

(** The binary operators that no rule of [rules] has a case for. *)
Definition inert_bop (o : bop) : bool :=
  match o with
  | Shr | BoolAnd | NE | LT | LE | GT | GE => true
  | _ => false
  end.

(** The unary operators that no rule of [rules] has a case for. *)
Definition inert_uop (o : uop) : bool :=
  match o with
  | Neg | Not => true
  | _ => false
  end.

End SimplifyProps.

(** ** Predicates for the properties of the graphs *)
Module GraphProps.
Import Graph.

(** What [addNode] and [addEdge] maintain: a node is stored under the
    property name of its key, the nodes in [inbound] and [outbound] are
    nodes of the graph, and [q] occurs in [p.outbound] as often as [p] in
    [q.inbound]. *)
Definition consistent (g : Directed_) : Prop :=
  (forall p n, get (nodes g) p = Some n -> ToPropertyKey (key n) = p)
  /\ (forall p n q, get (nodes g) p = Some n ->
       In q (outbound n) \/ In q (inbound n) -> get (nodes g) q <> None)
  /\ (forall p q np nq,
       get (nodes g) p = Some np -> get (nodes g) q = Some nq ->
       count_occ string_dec (outbound np) q = count_occ string_dec (inbound nq) p).

(** The sources of the edges into [p], and the targets of the edges out of
    [p], in the order of the edge list. *)
Definition sources (es : list (keyval * keyval)) (p : ref) : list ref :=
  map (fun e => ToPropertyKey (fst e))
    (filter (fun e => String.eqb p (ToPropertyKey (snd e))) es).

Definition targets (es : list (keyval * keyval)) (p : ref) : list ref :=
  map (fun e => ToPropertyKey (snd e))
    (filter (fun e => String.eqb p (ToPropertyKey (fst e))) es).

(** The node [n] after [addEdge([s, d])], when it is stored under [p]. *)
Definition with_edge (s d p : ref) (n : Node) : Node :=
  mkNode (key n)
    (inbound n ++ if String.eqb p d then [s] else [])
    (outbound n ++ if String.eqb p s then [d] else []).

(** The order of [Object.keys]: array indices ascending and before every
    other name; two other names are different names. *)
Definition key_before (a b : string) : Prop :=
  match array_index a, array_index b with
  | Some i, Some j => (i < j)%N
  | Some _, None => True
  | None, Some _ => False
  | None, None => a <> b
  end.

(** A name that is an array index. *)
Definition is_index (name : string) : bool :=
  match array_index name with
  | Some _ => true
  | None => false
  end.

(** Two array indices, the first the smaller. *)
Definition index_before (a b : string) : Prop :=
  match array_index a, array_index b with
  | Some i, Some j => (i < j)%N
  | _, _ => False
  end.

(** The names of [l] that are not array indices. *)
Definition other_names (l : list string) : list string :=
  filter (fun name => negb (is_index name)) l.

(** The names of [l], each once, where it comes first. *)
Definition distinct (l : list string) : list string :=
  fold_left push_new l [].

(** The keys whose property name is the one given by [ToPropertyKey] and
    is stored as a property of its own: an address below [2^53], whose
    name is its decimal form (a larger number is named by its shortest
    digits), and a string other than [__proto__], which is the name of the
    prototype of [this.nodes]. *)
Definition plain (k : keyval) : Prop :=
  match k with
  | Num n => (n < 2 ^ 53)%N
  | Str s => s <> "__proto__"%string
  end.

(** The names that [this.nodes], made by [{}], answers without a node
    stored under them: the members of [Object.prototype]. *)
Definition inherited (name : string) : bool :=
  existsb (String.eqb name)
    ["constructor"; "toString"; "toLocaleString"; "valueOf";
     "hasOwnProperty"; "isPrototypeOf"; "propertyIsEnumerable";
     "__proto__"; "__defineGetter__"; "__defineSetter__";
     "__lookupGetter__"; "__lookupSetter__"]%string.

(** [k] is the key of the node stored under its property name. *)
Definition is_key (g : Directed_) (k : keyval) : Prop :=
  exists nd, get (nodes g) (ToPropertyKey k) = Some nd /\ key nd = k.

(** The edges [explore] pushes, in order: the source has been discovered
    before, the target is one of its successors in [g] and is discovered
    with the edge. *)
Fixpoint tree_edges (g : Directed_) (seen : list keyval)
    (E : list (keyval * keyval)) : Prop :=
  match E with
  | [] => True
  | (a, b) :: E' =>
      In a seen
      /\ (exists l, successors g a = Some l /\ In (ToPropertyKey b) l)
      /\ tree_edges g (seen ++ [b]) E'
  end.

(** Every successor of the node [k] has its key in [V]. *)
Definition closed_in (g : Directed_) (V : list keyval) (k : keyval) : Prop :=
  forall n s sn, getNode g k = Some n -> In s (outbound n) ->
  get (nodes g) s = Some sn -> In (key sn) V.

(** A path along [outbound] from [a]. *)
Inductive reachable (g : Directed_) (a : ref) : ref -> Prop :=
| reachable_refl : reachable g a a
| reachable_step (b c : ref) (n : Node) :
    reachable g a b -> get (nodes g) b = Some n -> In c (outbound n) ->
    reachable g a c.

(** What a call of [explore] on an undiscovered node [n] does when the
    recursion may go [f] deep: it returns, having pushed [n], then the
    targets of the edges [E] it pushed. *)
Definition explore_ok (g : Directed_) (f : nat) : Prop :=
  forall n nd ns es,
  get (nodes g) n = Some nd -> NoDup ns -> Forall (is_key g) ns ->
  ~ In (key nd) ns -> (List.length (nodes g) < f + List.length ns)%nat ->
  exists E,
    explore f g n (ns, es) = Some (ns ++ key nd :: map snd E, es ++ E)%list
    /\ NoDup (ns ++ key nd :: map snd E)
    /\ Forall (is_key g) (ns ++ key nd :: map snd E)
    /\ tree_edges g (ns ++ [key nd]) E
    /\ Forall (closed_in g (ns ++ key nd :: map snd E)) (key nd :: map snd E).

(** Every memoized frontier is a set: no node twice. *)
Definition memo_sets (d : DominatorTree_) : Prop :=
  forall m l, get (DF d) m = Some l -> NoDup l.

(** What a call of [dominanceFrontier] on [d] leaves behind. *)
Definition memo_step (d : DominatorTree_)
    (r : list ref * DominatorTree_) : Prop :=
  cfg (snd r) = cfg d /\ dom (snd r) = dom d
  /\ (forall m l, get (DF d) m = Some l -> get (DF (snd r)) m = Some l)
  /\ (memo_sets d -> memo_sets (snd r) /\ NoDup (fst r)).

(** Three blocks in a row. *)
Definition chain : option Directed_ :=
  Directed [Str "A"; Str "B"; Str "C"]
    [(Str "A", Str "B"); (Str "B", Str "C")]
    (Some (Str "A")).

(** Two blocks keyed by their addresses, the entry at address 0:
    [new Directed([0, 1], [[0, 1]], 0)]. *)
Definition entry_zero : option Directed_ :=
  Directed [Num 0; Num 1] [(Num 0, Num 1)] (Some (Num 0)).

(** The diamond with a fifth block that no edge leads to. *)
Definition diamond_aside : option Directed_ :=
  Directed [Str "A"; Str "B"; Str "C"; Str "D"; Str "E"]
    [(Str "A", Str "B"); (Str "A", Str "C"); (Str "B", Str "D");
     (Str "C", Str "D"); (Str "E", Str "D")]
    (Some (Str "A")).

End GraphProps.

(** * Properties of the simplifier *)
Module SimplifyFacts.
Import Number Expr Simplify.
Local Open Scope string_scope.

Lemma abs_not_negative (v : number) : lt (abs v) (Int 0) = false.
Proof.
  destruct v as [z | q | | s | ]; simpl; trivial.
  - apply Z.ltb_ge, Z.abs_nonneg.
  - destruct q as [n d]; unfold Qcompare; simpl.
    destruct (Z.compare_spec (Z.abs n * 1) 0); trivial; lia.
Qed.

(** An integer of no more than 53 bits is a double: nothing is rounded. *)
Lemma round_Z_small (z : Z) : (Z.abs z < 2 ^ 53)%Z -> round_Z z = Int z.
Proof.
  intros Hz. unfold round_Z.
  destruct (Z.eq_dec (Z.abs z) 0) as [-> | Hnz]; [reflexivity | ].
  assert (Hlog : (Z.log2 (Z.abs z) < 53)%Z) by (apply Z.log2_lt_pow2; lia).
  destruct (Z.leb_spec (Z.log2 (Z.abs z) - 52) 0); [reflexivity | lia].
Qed.

(** Beyond 53 bits a result is rounded, to the even neighbour when it lies
    half way; a zero product or quotient has the sign of its operands. *)
Lemma rounding_examples :
  add (Int (2 ^ 53)) (Int 1) = Int (2 ^ 53)
  /\ add (Int (2 ^ 53 + 2)) (Int 1) = Int (2 ^ 53 + 4)
  /\ mul (Int (2 ^ 32 - 1)) (Int (2 ^ 32 - 1)) = Int (2 ^ 64 - 2 ^ 33)
  /\ mul (Int (2 ^ 1000)) (Int (2 ^ 24)) = Inf false
  /\ div (Int 1) (Int 3) = Frac (6004799503160661 # 18014398509481984)
  /\ mul (Int 0) (Int (-5)) = NegZero
  /\ div (Int 1) (mul (Int 0) (Int (-5))) = Inf true
  /\ rem (Int (-5)) (Int 5) = NegZero
  /\ strict_eq NegZero (Int 0) = true.
Proof. repeat split. Qed.

Lemma weight_pos (e : expr) : (2 <= weight e)%nat.
Proof.
  induction e as [v s | k n s | o x IH | o l IHl r IHr]; simpl.
  - destruct (lt v (Int 0)); lia.
  - lia.
  - destruct o; lia.
  - lia.
Qed.

Create HintDb decreasing.
Create HintDb sizing.

(** Case analysis on the tests a rule made before it returned. *)
Ltac rule_cases :=
  repeat match goal with
    | H : Some _ = Some _ |- _ => inversion H; subst; clear H
    | H : None = Some _ |- _ => discriminate H
    | H : match ?x with _ => _ end = Some _ |- _ =>
        destruct x eqn:?; try discriminate; cbn beta iota in H
    end.

(** The weights of both sides of a rewrite, compared. *)
Ltac weigh :=
  cbn [weight] in *;
  repeat match goal with
    | |- context [lt (abs ?v) (Int 0)] => rewrite (abs_not_negative v)
    | H : lt ?v (Int 0) = _ |- context [lt ?v (Int 0)] => rewrite H
    | |- context [if lt ?v (Int 0) then _ else _] => destruct (lt v (Int 0))
    end;
  repeat match goal with
    | e : expr |- _ =>
        lazymatch goal with
        | _ : (2 <= weight e)%nat |- _ => fail
        | _ => pose proof (weight_pos e)
        end
    end;
  lia.

Section Measure.
Variable node_size : expr -> option N.

Lemma _correct_arith_decreasing : decreasing (_correct_arith node_size).
Proof. intros e alt H; unfold _correct_arith in H; rule_cases; weigh. Qed.

Lemma _correct_sign_decreasing : decreasing _correct_sign.
Proof.
  intros e alt H.
  destruct e as [ | | | o l r]; try discriminate.
  destruct o; try discriminate; destruct r; simpl in H; try discriminate;
    rule_cases; weigh.
Qed.

Lemma _correct_ref_decreasing : decreasing _correct_ref.
Proof. intros e alt H; unfold _correct_ref in H; rule_cases; weigh. Qed.

Lemma _correct_bitwise_decreasing : decreasing (_correct_bitwise node_size).
Proof. intros e alt H; unfold _correct_bitwise in H; rule_cases; weigh. Qed.

Lemma _equality_decreasing : decreasing (_equality node_size).
Proof. intros e alt H; unfold _equality in H; rule_cases; weigh. Qed.

Lemma _negate_decreasing : decreasing _negate.
Proof. intros e alt H; unfold _negate in H; rule_cases; weigh. Qed.

Lemma _converged_cond_decreasing : decreasing (_converged_cond node_size).
Proof. intros e alt H; unfold _converged_cond in H; rule_cases; weigh. Qed.

Lemma _constant_folding_decreasing : decreasing _constant_folding.
Proof. intros e alt H; unfold _constant_folding in H; rule_cases; weigh. Qed.

Lemma _ctx_fold_assoc_decreasing : decreasing _ctx_fold_assoc.
Proof. intros e alt H; unfold _ctx_fold_assoc in H; rule_cases; weigh. Qed.

Lemma _ctx_fold_arith_decreasing : decreasing _ctx_fold_arith.
Proof. intros e alt H; unfold _ctx_fold_arith in H; rule_cases; weigh. Qed.

Hint Resolve _correct_arith_decreasing _correct_sign_decreasing
  _correct_ref_decreasing _correct_bitwise_decreasing _equality_decreasing
  _negate_decreasing _converged_cond_decreasing _constant_folding_decreasing
  _ctx_fold_assoc_decreasing _ctx_fold_arith_decreasing : decreasing.

Lemma every_rule_decreasing (r : rule) :
  In r (rules node_size) -> decreasing r.
Proof.
  unfold rules; cbn [In]; intros H.
  repeat destruct H as [<- | H]; auto with decreasing.
  destruct H.
Qed.

Lemma first_alt_some (rs : list rule) (o alt : expr) :
  first_alt rs o = Some alt -> exists r, In r rs /\ r o = Some alt.
Proof.
  induction rs as [ | r rs IH]; cbn [first_alt]; [discriminate | ].
  destruct (r o) as [alt' | ] eqn:E.
  - intros [= <-]. exists r; split; [left; reflexivity | exact E].
  - intros H. destruct (IH H) as [r' [Hin Hr']].
    exists r'; split; [right; exact Hin | exact Hr'].
Qed.

Lemma rules_decreasing (o alt : expr) :
  first_alt (rules node_size) o = Some alt -> (weight alt < weight o)%nat.
Proof.
  intros H. apply first_alt_some in H as [r [Hin Hr]].
  exact (every_rule_decreasing r Hin o alt Hr).
Qed.

(** *** The pass, by recursion on the tree *)

Lemma first_rewrite_app (l1 l2 : list (path * expr)) :
  first_rewrite node_size (l1 ++ l2) =
  match first_rewrite node_size l1 with
  | Some x => Some x
  | None => first_rewrite node_size l2
  end.
Proof.
  induction l1 as [ | [p o] l1 IH]; cbn [first_rewrite app]; trivial.
  destruct (first_alt (rules node_size) o); auto.
Qed.

Lemma first_rewrite_below (i : nat) (l : list (path * expr)) :
  first_rewrite node_size (map (below i) l) =
  option_map (below i) (first_rewrite node_size l).
Proof.
  induction l as [ | [p o] l IH]; cbn [first_rewrite map below fst snd]; trivial.
  destruct (first_alt (rules node_size) o); auto.
Qed.

Lemma _reduce_expr_once_leaf (e : expr) :
  iter_operands e = [([], e)] ->
  _reduce_expr_once node_size e = first_alt (rules node_size) e.
Proof.
  unfold _reduce_expr_once; intros ->; cbn [first_rewrite].
  destruct (first_alt (rules node_size) e); reflexivity.
Qed.

Lemma _reduce_expr_once_UExpr (o : uop) (x : expr) :
  _reduce_expr_once node_size (UExpr o x) =
  match _reduce_expr_once node_size x with
  | Some x' => Some (UExpr o x')
  | None => first_alt (rules node_size) (UExpr o x)
  end.
Proof.
  unfold _reduce_expr_once; cbn [iter_operands].
  rewrite first_rewrite_app, first_rewrite_below.
  destruct (first_rewrite node_size (iter_operands x)) as [[p alt] | ];
    cbn [option_map below fst snd first_rewrite]; [reflexivity | ].
  destruct (first_alt (rules node_size) (UExpr o x)); reflexivity.
Qed.

Lemma _reduce_expr_once_BExpr (o : bop) (l r : expr) :
  _reduce_expr_once node_size (BExpr o l r) =
  match _reduce_expr_once node_size l with
  | Some l' => Some (BExpr o l' r)
  | None =>
      match _reduce_expr_once node_size r with
      | Some r' => Some (BExpr o l r')
      | None => first_alt (rules node_size) (BExpr o l r)
      end
  end.
Proof.
  unfold _reduce_expr_once; cbn [iter_operands].
  rewrite !first_rewrite_app, !first_rewrite_below.
  destruct (first_rewrite node_size (iter_operands l)) as [[p alt] | ];
    cbn [option_map below fst snd]; [reflexivity | ].
  destruct (first_rewrite node_size (iter_operands r)) as [[p alt] | ];
    cbn [option_map below fst snd first_rewrite]; [reflexivity | ].
  destruct (first_alt (rules node_size) (BExpr o l r)); reflexivity.
Qed.

Lemma weight_UExpr_mono (o : uop) (x x' : expr) :
  (weight x' < weight x)%nat -> (weight (UExpr o x') < weight (UExpr o x))%nat.
Proof. destruct o; cbn [weight]; lia. Qed.

Lemma _reduce_expr_once_decreasing (e e' : expr) :
  _reduce_expr_once node_size e = Some e' -> (weight e' < weight e)%nat.
Proof.
  revert e'; induction e as [v s | k n s | o x IH | o l IHl r IHr]; intros e'.
  - rewrite _reduce_expr_once_leaf by reflexivity. apply rules_decreasing.
  - rewrite _reduce_expr_once_leaf by reflexivity. apply rules_decreasing.
  - rewrite _reduce_expr_once_UExpr.
    destruct (_reduce_expr_once node_size x) as [x' | ].
    + intros [= <-]. apply weight_UExpr_mono, IH; reflexivity.
    + apply rules_decreasing.
  - rewrite _reduce_expr_once_BExpr.
    destruct (_reduce_expr_once node_size l) as [l' | ].
    + intros [= <-]. specialize (IHl l' eq_refl). cbn [weight]; lia.
    + destruct (_reduce_expr_once node_size r) as [r' | ].
      * intros [= <-]. specialize (IHr r' eq_refl). cbn [weight]; lia.
      * apply rules_decreasing.
Qed.

(** *** The loop *)

Lemma reduce_loop_enough (fuel : nat) (e : expr) :
  (weight e <= fuel)%nat ->
  exists r, reduce_loop node_size fuel e = Some r
            /\ _reduce_expr_once node_size r = None.
Proof.
  revert e; induction fuel as [ | fuel IH]; intros e Hw; cbn [reduce_loop];
    destruct (_reduce_expr_once node_size e) as [e' | ] eqn:E; eauto.
  - apply _reduce_expr_once_decreasing in E; lia.
  - apply IH. apply _reduce_expr_once_decreasing in E; lia.
Qed.

Lemma reduce_loop_more (fuel fuel' : nat) (e r : expr) :
  reduce_loop node_size fuel e = Some r -> (fuel <= fuel')%nat ->
  reduce_loop node_size fuel' e = Some r.
Proof.
  revert fuel' e; induction fuel as [ | fuel IH]; intros fuel' e;
    cbn [reduce_loop]; destruct (_reduce_expr_once node_size e) as [e' | ] eqn:E.
  - discriminate.
  - intros H _. destruct fuel'; cbn [reduce_loop]; rewrite E; trivial.
  - intros H Hle. destruct fuel' as [ | fuel']; [lia | ].
    cbn [reduce_loop]; rewrite E. apply IH; trivial; lia.
  - intros H _. destruct fuel'; cbn [reduce_loop]; rewrite E; trivial.
Qed.

Lemma reduce_loop_total (e : expr) :
  reduce_loop node_size (weight e) e = Some (_reduce_expr node_size e).
Proof.
  unfold _reduce_expr.
  destruct (reduce_loop_enough (weight e) e (le_n _)) as [r [-> _]]; trivial.
Qed.

Lemma _reduce_expr_fixed (e : expr) :
  _reduce_expr_once node_size (_reduce_expr node_size e) = None.
Proof.
  destruct (reduce_loop_enough (weight e) e (le_n _)) as [r [H Hr]].
  rewrite reduce_loop_total in H. injection H as ->. exact Hr.
Qed.

(** The loop, one pass at a time. *)
Lemma _reduce_expr_step (e : expr) :
  _reduce_expr node_size e =
  match _reduce_expr_once node_size e with
  | Some e' => _reduce_expr node_size e'
  | None => e
  end.
Proof.
  destruct (_reduce_expr_once node_size e) as [e' | ] eqn:E.
  - pose proof (reduce_loop_total e) as H.
    pose proof (_reduce_expr_once_decreasing _ _ E) as Hw.
    destruct (weight e) as [ | n] eqn:Hn; [lia | ].
    cbn [reduce_loop] in H; rewrite E in H.
    pose proof (reduce_loop_total e') as H'.
    apply reduce_loop_more with (fuel' := n) in H'; [ | lia].
    congruence.
  - pose proof (reduce_loop_total e) as H.
    destruct (weight e); cbn [reduce_loop] in H; rewrite E in H; congruence.
Qed.

Lemma _reduce_expr_irreducible (e : expr) :
  _reduce_expr_once node_size e = None -> _reduce_expr node_size e = e.
Proof. intros H; rewrite _reduce_expr_step, H; trivial. Qed.

End Measure.

Lemma size_eqb_refl (s : option N) : size_eqb s s = true.
Proof. destruct s; simpl; trivial. apply N.eqb_refl. Qed.

Section Claims.
Variable node_size : expr -> option N.
Local Abbreviation reduce_expr := (_reduce_expr node_size).
Local Abbreviation once := (_reduce_expr_once node_size).

Lemma once_Val v s : once (Val v s) = None.
Proof. reflexivity. Qed.

Lemma reduce_Val v s : reduce_expr (Val v s) = Val v s.
Proof. apply _reduce_expr_irreducible, once_Val. Qed.

(** C1, as the code has it: nothing guards the divisor.  On a [Div] or a
    [Mod] of two [Val]s whose right value is 0 the rule [_constant_folding]
    fires, and [_reduce_expr] replaces the expression by the single [Val]
    that holds the quotient [a / 0] (an infinity, or NaN) or the remainder
    [a % 0] (NaN), with the size of the left operand.  No exception is
    raised: the result is a value. *)
Theorem constant_folding_zero_divisor (a : number) (sa sb : option N) :
  _constant_folding (BExpr Div (Val a sa) (Val (Int 0) sb)) = Some (Val (div a (Int 0)) sa)
  /\ _constant_folding (BExpr Mod (Val a sa) (Val (Int 0) sb)) = Some (Val (rem a (Int 0)) sa)
  /\ reduce_expr (BExpr Div (Val a sa) (Val (Int 0) sb)) = Val (div a (Int 0)) sa
  /\ reduce_expr (BExpr Mod (Val a sa) (Val (Int 0) sb)) = Val (rem a (Int 0)) sa
  /\ (forall z, div (Int z) (Int 0) = if (z =? 0)%Z then NaN else Inf (z <? 0)%Z)
  /\ (forall z, rem (Int z) (Int 0) = NaN).
Proof.
  repeat split.
  - rewrite _reduce_expr_step, _reduce_expr_once_BExpr, !once_Val.
    cbn. apply reduce_Val.
  - rewrite _reduce_expr_step, _reduce_expr_once_BExpr, !once_Val.
    cbn. apply reduce_Val.
  - intros z. cbn. destruct (z =? 0)%Z; [reflexivity | now rewrite xorb_false_r].
Qed.

Lemma fold_Add (a b : Z) (sa sb : option N) :
  is_double a ->
  reduce_expr (BExpr Add (Val (Int a) sa) (Val (Int b) sb)) = Val (add (Int a) (Int b)) sa.
Proof.
  intros Ha.
  rewrite _reduce_expr_step, _reduce_expr_once_BExpr, !once_Val.
  cbn. rewrite size_eqb_refl.
  destruct (Z.eqb_spec b 0) as [-> | Hb]; cbn.
  - rewrite Z.add_0_r, Ha. apply reduce_Val.
  - destruct (Z.ltb_spec b 0) as [Hneg | Hpos]; cbn.
    + rewrite _reduce_expr_step, _reduce_expr_once_BExpr, !once_Val.
      cbn. rewrite size_eqb_refl.
      destruct (Z.eqb_spec (Z.abs b) 0) as [H0 | _]; [lia | ].
      destruct (Z.ltb_spec (Z.abs b) 0) as [H0 | _]; [lia | ].
      cbn. rewrite reduce_Val. do 2 f_equal. lia.
    + apply reduce_Val.
Qed.

Lemma fold_Sub (a b : Z) (sa sb : option N) :
  is_double a ->
  reduce_expr (BExpr Sub (Val (Int a) sa) (Val (Int b) sb)) = Val (sub (Int a) (Int b)) sa.
Proof.
  intros Ha.
  rewrite _reduce_expr_step, _reduce_expr_once_BExpr, !once_Val.
  cbn. rewrite size_eqb_refl.
  destruct (Z.eqb_spec b 0) as [-> | Hb]; cbn.
  - rewrite Z.sub_0_r, Ha. apply reduce_Val.
  - destruct (Z.ltb_spec b 0) as [Hneg | Hpos]; cbn.
    + rewrite fold_Add by exact Ha. cbn. do 2 f_equal. lia.
    + apply reduce_Val.
Qed.

Lemma fold_Mul (a b : Z) (sa sb : option N) :
  is_double a ->
  reduce_expr (BExpr Mul (Val (Int a) sa) (Val (Int b) sb)) = Val (mul (Int a) (Int b)) sa.
Proof.
  intros Ha.
  rewrite _reduce_expr_step, _reduce_expr_once_BExpr, !once_Val.
  cbn. rewrite size_eqb_refl.
  destruct (Z.eqb_spec b 1) as [-> | Hb]; cbn.
  - rewrite Z.mul_1_r, Ha.
    destruct (Z.eqb_spec a 0) as [-> | _]; apply reduce_Val.
  - apply reduce_Val.
Qed.

Lemma fold_bitwise (o : bop) (f : number -> number -> number) (a b : number)
    (sa sb : option N) :
  In (o, f) [(And, band); (Or, bor); (Xor, bxor)] ->
  _correct_bitwise node_size (BExpr o (Val a sa) (Val b sb)) = None ->
  reduce_expr (BExpr o (Val a sa) (Val b sb)) = Val (f a b) sa.
Proof.
  intros Hin Hbit.
  rewrite _reduce_expr_step, _reduce_expr_once_BExpr, !once_Val.
  unfold rules; cbn [first_alt].
  rewrite Hbit.
  simpl in Hin; destruct Hin as [[= <- <-] | [[= <- <-] | [[= <- <-] | []]]];
    cbn; apply reduce_Val.
Qed.

Lemma size_eqb_eq (s t : option N) : size_eqb s t = true -> s = t.
Proof.
  destruct s, t; cbn; try discriminate; trivial.
  now intros ->%N.eqb_eq.
Qed.

Lemma once_Not_Val v s : once (UExpr Not (Val v s)) = None.
Proof. reflexivity. Qed.

(** [_correct_bitwise] is tried before [_constant_folding]: on two [Val]s
    the result is what it returns when it matches. *)
Lemma bitwise_priority (o : bop) (f : number -> number -> number) (a b : number)
    (sa sb : option N) :
  In (o, f) [(And, band); (Or, bor); (Xor, bxor)] ->
  reduce_expr (BExpr o (Val a sa) (Val b sb))
  = match _correct_bitwise node_size (BExpr o (Val a sa) (Val b sb)) with
    | Some alt => alt
    | None => Val (f a b) sa
    end.
Proof.
  intros Hin.
  destruct (_correct_bitwise node_size (BExpr o (Val a sa) (Val b sb)))
    as [alt | ] eqn:E; [ | now apply fold_bitwise].
  rewrite _reduce_expr_step, _reduce_expr_once_BExpr, !once_Val.
  assert (Hfirst : first_alt (rules node_size) (BExpr o (Val a sa) (Val b sb))
                   = Some alt).
  { simpl in Hin; destruct Hin as [[= <- <-] | [[= <- <-] | [[= <- <-] | []]]];
      unfold rules; cbn [first_alt]; cbn [_correct_arith _correct_sign _correct_ref];
      rewrite E; reflexivity. }
  rewrite Hfirst. apply _reduce_expr_irreducible.
  simpl in Hin; destruct Hin as [[= <- <-] | [[= <- <-] | [[= <- <-] | []]]];
    cbn in E;
    repeat match type of E with
           | (if ?c then _ else _) = _ => destruct c
           end;
    try discriminate; injection E as <-; reflexivity.
Qed.

Lemma bitwise_agrees (o : bop) (f : number -> number -> number) (a b : number)
    (sa sb : option N) :
  In (o, f) [(And, band); (Or, bor); (Xor, bxor)] ->
  reduce_expr (BExpr o (Val a sa) (Val b sb)) = Val (f a b) sa
  <-> _correct_bitwise node_size (BExpr o (Val a sa) (Val b sb)) = None
      \/ _correct_bitwise node_size (BExpr o (Val a sa) (Val b sb))
         = Some (Val (f a b) sa).
Proof.
  intros Hin. rewrite (bitwise_priority o f) by exact Hin.
  destruct (_correct_bitwise node_size (BExpr o (Val a sa) (Val b sb)))
    as [alt | ].
  - split; [intros ->; auto | intros [H | H]; [discriminate | now injection H]].
  - split; auto.
Qed.

Lemma ToInt32_0 : ToInt32 (Int 0) = 0%Z.
Proof. reflexivity. Qed.

(** C3, as the code has it: for two [Val]s [a] and [b] with integer values,
    [a] a double, [_reduce_expr] turns [Add], [Sub] and [Mul] of them into
    the single [Val] of the sum, difference or product (as JavaScript
    computes it) with the size of [a].  For [And], [Or] and [Xor] the rule
    [_correct_bitwise] is tried first and its result stands when it
    matches.  The result is the [Val] of [a & b], [a | b] or [a ^ b] with
    the size of [a] exactly when the rule does not match or returns that
    very [Val]: so it is for [And(a, 0)] and [Xor(a, a)], and whenever [a]
    is in the signed 32-bit range and [b] is not the all-ones constant
    [(1 << a.size) - 1] of the size of [a].  When [b] is that constant, and
    neither 0 nor [a], [Xor(a, b)] becomes [Not(a)]. *)
Theorem folding_agreement (a b : Z) (sa sb : option N) :
  let A := Val (Int a) sa in
  let B := Val (Int b) sb in
  let FF := Val (all_ones sa) sa in
  (is_double a ->
   reduce_expr (BExpr Add A B) = Val (add (Int a) (Int b)) sa
   /\ reduce_expr (BExpr Sub A B) = Val (sub (Int a) (Int b)) sa
   /\ reduce_expr (BExpr Mul A B) = Val (mul (Int a) (Int b)) sa)
  /\ Forall (fun '(o, f) =>
               reduce_expr (BExpr o A B)
               = match _correct_bitwise node_size (BExpr o A B) with
                 | Some alt => alt
                 | None => Val (f (Int a) (Int b)) sa
                 end)
       [(And, band); (Or, bor); (Xor, bxor)]
  /\ Forall (fun '(o, f) =>
               reduce_expr (BExpr o A B) = Val (f (Int a) (Int b)) sa
               <-> _correct_bitwise node_size (BExpr o A B) = None
                   \/ _correct_bitwise node_size (BExpr o A B)
                      = Some (Val (f (Int a) (Int b)) sa))
       [(And, band); (Or, bor); (Xor, bxor)]
  /\ reduce_expr (BExpr And A (Val (Int 0) sb)) = Val (band (Int a) (Int 0)) sa
  /\ reduce_expr (BExpr Xor A (Val (Int a) sb)) = Val (bxor (Int a) (Int a)) sa
  /\ (ToInt32 (Int a) = a -> equals node_size B FF = false ->
      reduce_expr (BExpr And A B) = Val (band (Int a) (Int b)) sa
      /\ reduce_expr (BExpr Or A B) = Val (bor (Int a) (Int b)) sa
      /\ reduce_expr (BExpr Xor A B) = Val (bxor (Int a) (Int b)) sa)
  /\ (equals node_size B (Val (Int 0) sa) = false ->
      equals node_size B A = false -> equals node_size B FF = true ->
      reduce_expr (BExpr Xor A B) = UExpr Not A).
Proof.
  cbv zeta.
  split; [intros Ha; auto using fold_Add, fold_Sub, fold_Mul | ].
  split.
  { repeat constructor; apply bitwise_priority; simpl; auto. }
  split.
  { apply Forall_cons; [ | apply Forall_cons; [ | apply Forall_cons; [ | constructor]]];
      apply bitwise_agrees; simpl; auto. }
  split.
  { rewrite (bitwise_priority And band) by (simpl; auto).
    cbn. destruct (size_eqb sb sa) eqn:Es; cbn.
    - apply size_eqb_eq in Es as ->. unfold band. rewrite ToInt32_0.
      now rewrite Z.land_0_r.
    - rewrite !andb_false_r. reflexivity. }
  split.
  { rewrite (bitwise_priority Xor bxor) by (simpl; auto).
    cbn. rewrite Z.eqb_refl. destruct (size_eqb sb sa) eqn:Es; cbn.
    - unfold bxor. rewrite Z.lxor_nilpotent.
      destruct (Z.eqb_spec a 0) as [-> | _]; reflexivity.
    - rewrite !andb_false_r. reflexivity. }
  split.
  2:{ intros H0 HA Hff.
      rewrite (bitwise_priority Xor bxor) by (simpl; auto).
      cbn [_correct_bitwise size]. now rewrite H0, HA, Hff. }
  intros Ha Hff.
  rewrite (bitwise_priority And band), (bitwise_priority Or bor),
    (bitwise_priority Xor bxor) by (simpl; auto).
  cbn in Hff |- *. rewrite Hff. unfold band, bor, bxor. rewrite Ha.
  destruct (size_eqb sb sa) eqn:Es; cbn; rewrite ?andb_false_r, ?andb_true_r; cbn;
    [apply size_eqb_eq in Es as -> | auto].
  destruct (Z.eqb_spec b 0) as [-> | Hb0]; cbn.
  - rewrite Z.land_0_r, Z.lor_0_r, Z.lxor_0_r. auto.
  - destruct (Z.eqb_spec b a) as [-> | Hba]; cbn.
    + rewrite ?Ha, Z.land_diag, Z.lor_diag, Z.lxor_nilpotent. auto.
    + auto.
Qed.

Lemma reduce_Add_zero_aux (w : option N) (n : nat) :
  forall x, (weight x < n)%nat ->
  reduce_expr (BExpr Add x (Val (Int 0) w)) = reduce_expr x.
Proof.
  induction n as [ | n IH]; intros x Hx; [lia | ].
  rewrite _reduce_expr_step, _reduce_expr_once_BExpr, once_Val.
  rewrite (_reduce_expr_step node_size x).
  destruct (once x) as [x' | ] eqn:E.
  - apply IH. apply _reduce_expr_once_decreasing in E. lia.
  - cbn. rewrite size_eqb_refl. cbn.
    rewrite (_reduce_expr_step node_size x), E. reflexivity.
Qed.

(** C7, as the code has it: for every expression [x] and width [w],
    [_reduce_expr] of [Add(x, Val(0, w))] is the tree [_reduce_expr] gives
    for [x] alone; it is [x] itself once [x] is reduced. *)
Theorem identity_elimination (x : expr) (w : option N) :
  reduce_expr (BExpr Add x (Val (Int 0) w)) = reduce_expr x
  /\ reduce_expr (BExpr Add (reduce_expr x) (Val (Int 0) w)) = reduce_expr x.
Proof.
  split.
  - apply (reduce_Add_zero_aux w (S (weight x))). lia.
  - rewrite (reduce_Add_zero_aux w (S (weight (reduce_expr x)))) by lia.
    apply _reduce_expr_irreducible, _reduce_expr_fixed.
Qed.

(** C6: [_reduce_expr] is idempotent.  On the tree it returns no rule
    fires at any subexpression, so a second run performs no rewrite and
    returns the same tree. *)
Theorem reduce_expr_idempotent (e : expr) :
  once (reduce_expr e) = None
  /\ reduce_expr (reduce_expr e) = reduce_expr e.
Proof.
  split.
  - apply _reduce_expr_fixed.
  - apply _reduce_expr_irreducible, _reduce_expr_fixed.
Qed.

Lemma replace_decreasing (e : expr) :
  forall p o alt, In (p, o) (iter_operands e) ->
  (weight alt < weight o)%nat -> (weight (replace p alt e) < weight e)%nat.
Proof.
  induction e as [v s | k n s | u x IH | b l IHl r IHr]; intros p o alt Hin Hw;
    cbn [iter_operands] in Hin.
  - destruct Hin as [[= <- <-] | []]; exact Hw.
  - destruct Hin as [[= <- <-] | []]; exact Hw.
  - apply in_app_or in Hin as [Hin | [[= <- <-] | []]]; [ | exact Hw].
    apply in_map_iff in Hin as [[p' o'] [[= <- <-] Hin]].
    cbn [replace]. apply weight_UExpr_mono. eauto.
  - apply in_app_or in Hin as [Hin | Hin].
    + apply in_map_iff in Hin as [[p' o'] [[= <- <-] Hin]].
      cbn [replace weight]. specialize (IHl _ _ _ Hin Hw). lia.
    + apply in_app_or in Hin as [Hin | [[= <- <-] | []]]; [ | exact Hw].
      apply in_map_iff in Hin as [[p' o'] [[= <- <-] Hin]].
      cbn [replace weight]. specialize (IHr _ _ _ Hin Hw). lia.
Qed.

Lemma first_rewrite_none (l : list (path * expr)) :
  first_rewrite node_size l = None ->
  Forall (fun o => first_alt (rules node_size) (snd o) = None) l.
Proof.
  induction l as [ | [p o] l IH]; cbn [first_rewrite]; intros H.
  - constructor.
  - destruct (first_alt (rules node_size) o) eqn:E; [discriminate | ].
    constructor; auto.
Qed.

Lemma rewrites_decreasing (e e' : expr) :
  rewrites node_size e e' -> (weight e' < weight e)%nat.
Proof.
  intros (p & o & r & alt & Hin & Hr & Halt & ->).
  eapply replace_decreasing; eauto. eapply every_rule_decreasing; eauto.
Qed.

(** C5: [_reduce_expr] terminates on every expression tree.  The loop
    reaches, within [weight e] passes, a tree on which a pass finds no rule
    to fire; and there is no infinite sequence of passes, nor of rule
    applications at arbitrary subexpressions, hence no cycle. *)
Theorem reduce_expr_terminates :
  (forall e, exists r,
      reduce_loop node_size (weight e) e = Some r
      /\ once r = None
      /\ Forall (fun o => first_alt (rules node_size) (snd o) = None)
           (iter_operands r))
  /\ well_founded (fun e' e => once e = Some e')
  /\ well_founded (fun e' e => rewrites node_size e e').
Proof.
  split; [ | split].
  - intros e.
    destruct (reduce_loop_enough node_size (weight e) e (le_n _)) as [r [H Hr]].
    exists r. repeat split; trivial.
    apply first_rewrite_none. unfold _reduce_expr_once in Hr.
    destruct (first_rewrite node_size (iter_operands r)) as [[p alt] | ];
      [discriminate | reflexivity].
  - apply (well_founded_lt_compat _ weight).
    intros e' e. apply _reduce_expr_once_decreasing.
  - apply (well_founded_lt_compat _ weight).
    intros e' e. apply rewrites_decreasing.
Qed.

Lemma rules_Sub_irreducible (x y : expr) :
  is_Val y = false -> first_alt (rules node_size) (BExpr Sub x y) = None.
Proof.
  intros Hy. destruct y; try discriminate; cbn;
    destruct x as [ | | | [] ? ?]; reflexivity.
Qed.

Lemma rules_EQ_irreducible (x y : expr) :
  is_Val y = false -> first_alt (rules node_size) (BExpr EQ x y) = None.
Proof.
  intros Hy. destruct y; try discriminate; cbn;
    destruct x as [ | | | ? ? []]; reflexivity.
Qed.

(** C8: [_equality] performs the three rewrites, but the constant it
    builds in the first two has no size: [new Expr.Val(c2.value - c1.value)]
    and [new Expr.Val(c2.value + c1.value)] pass one argument.  The branch
    for a constant right operand comes first, so [EQ(Sub(x, y), Val(0))]
    with [y] a [Val] becomes [EQ(x, c)] where [c] has the value of [y] and
    no size: with [y] the [Val] 5 of size 32 the result is [EQ(x, y)] but
    for the size that was dropped.  When [y] is not a [Val] the rule
    returns [EQ(x, y)], and so does [_reduce_expr] on reduced [x] and
    [y]. *)
Theorem equality_rewrites :
  (forall x c1 s1 c2 s2,
      _equality node_size (BExpr EQ (BExpr Add x (Val c1 s1)) (Val c2 s2))
      = Some (BExpr EQ x (Val (sub c2 c1) None)))
  /\ (forall x c1 s1 c2 s2,
      _equality node_size (BExpr EQ (BExpr Sub x (Val c1 s1)) (Val c2 s2))
      = Some (BExpr EQ x (Val (add c2 c1) None)))
  /\ (forall x y s, is_Val y = false ->
      _equality node_size (BExpr EQ (BExpr Sub x y) (Val (Int 0) s))
      = Some (BExpr EQ x y))
  /\ (forall x y, is_Val y = false -> once x = None -> once y = None ->
      reduce_expr (BExpr EQ (BExpr Sub x y) (Val (Int 0) (Some 32%N)))
      = BExpr EQ x y)
  /\ (forall x v s w, is_double v ->
      _equality node_size
        (BExpr EQ (BExpr Sub x (Val (Int v) (Some s))) (Val (Int 0) w))
      = Some (BExpr EQ x (Val (Int v) None))
      /\ BExpr EQ x (Val (Int v) None) <> BExpr EQ x (Val (Int v) (Some s)))
  /\ (let y := imm32 5 in
      let input := BExpr EQ (BExpr Sub eax y) (imm32 0) in
      _equality node_size input = Some (BExpr EQ eax (Val (Int 5) None))
      /\ reduce_expr input = BExpr EQ eax (Val (Int 5) None)
      /\ reduce_expr input <> BExpr EQ eax y
      /\ equals node_size (reduce_expr input) (BExpr EQ eax y) = false).
Proof.
  split; [ | split; [ | split; [ | split; [ | split]]]].
  - reflexivity.
  - reflexivity.
  - intros x y s Hy. destruct y; try discriminate; cbn;
      rewrite ?size_eqb_refl; reflexivity.
  - intros x y Hy Hx Hy'.
    rewrite _reduce_expr_step, _reduce_expr_once_BExpr, _reduce_expr_once_BExpr.
    rewrite Hx, Hy', rules_Sub_irreducible, once_Val by exact Hy.
    replace (first_alt (rules node_size)
               (BExpr EQ (BExpr Sub x y) (Val (Int 0) (Some 32%N))))
      with (Some (BExpr EQ x y))
      by (destruct y; try discriminate; reflexivity).
    apply _reduce_expr_irreducible.
    rewrite _reduce_expr_once_BExpr, Hx, Hy'.
    apply rules_EQ_irreducible, Hy.
  - intros x v s w Hv. split; [ | intros [=]].
    cbn [_equality]. unfold add. now rewrite Z.add_0_l, Hv.
  - cbv zeta.
    assert (Hred : reduce_expr (BExpr EQ (BExpr Sub eax (imm32 5)) (imm32 0))
                   = BExpr EQ eax (Val (Int 5) None)).
    { rewrite _reduce_expr_step.
      replace (once (BExpr EQ (BExpr Sub eax (imm32 5)) (imm32 0)))
        with (Some (BExpr EQ eax (Val (Int 5) None))) by reflexivity.
      apply _reduce_expr_irreducible. reflexivity. }
    rewrite Hred.
    split; [reflexivity | ]. split; [reflexivity | ].
    split; [intros [=] | ].
    cbn. now rewrite !andb_false_r.
Qed.

Lemma sized_values (e : expr) : sized node_size e = true -> values_sized e = true.
Proof.
  induction e as [v s | k n s | u x IH | b l IHl r IHr]; cbn; trivial.
  - intros [_ H]%andb_prop; auto.
  - intros [[_ Hl]%andb_prop Hr]%andb_prop. rewrite IHl, IHr; trivial.
Qed.

Lemma sized_size (e : expr) :
  sized node_size e = true -> is_some (size node_size e) = true.
Proof.
  destruct e; cbn; trivial.
  - intros [H _]%andb_prop; trivial.
  - intros [[H _]%andb_prop _]%andb_prop; trivial.
Qed.

Ltac sizes :=
  cbn [sized values_sized is_some abs_value] in *;
  repeat match goal with
    | H : _ && _ = true |- _ => apply andb_prop in H; destruct H
    end;
  repeat match goal with
    | H : sized node_size ?e = true |- _ =>
        lazymatch goal with
        | _ : values_sized e = true |- _ => fail
        | _ => pose proof (sized_values e H); pose proof (sized_size e H)
        end
    end;
  cbn [sized values_sized is_some size] in *;
  repeat match goal with
    | |- _ && _ = true => apply andb_true_intro; split
    end;
  trivial.

Lemma _correct_arith_sizing : sizing node_size (_correct_arith node_size).
Proof. intros e alt Hs H; unfold _correct_arith in H; rule_cases; sizes. Qed.

Lemma _correct_sign_sizing : sizing node_size _correct_sign.
Proof.
  intros e alt Hs H.
  destruct e as [ | | | o l r]; try discriminate.
  destruct o; try discriminate; destruct r; simpl in H; try discriminate;
    rule_cases; sizes.
Qed.

Lemma _correct_ref_sizing : sizing node_size _correct_ref.
Proof. intros e alt Hs H; unfold _correct_ref in H; rule_cases; sizes. Qed.

Lemma _correct_bitwise_sizing : sizing node_size (_correct_bitwise node_size).
Proof. intros e alt Hs H; unfold _correct_bitwise in H; rule_cases; sizes. Qed.

Lemma _negate_sizing : sizing node_size _negate.
Proof. intros e alt Hs H; unfold _negate in H; rule_cases; sizes. Qed.

Lemma _converged_cond_sizing : sizing node_size (_converged_cond node_size).
Proof. intros e alt Hs H; unfold _converged_cond in H; rule_cases; sizes. Qed.

Lemma _constant_folding_sizing : sizing node_size _constant_folding.
Proof. intros e alt Hs H; unfold _constant_folding in H; rule_cases; sizes. Qed.

Lemma _ctx_fold_assoc_sizing : sizing node_size _ctx_fold_assoc.
Proof. intros e alt Hs H; unfold _ctx_fold_assoc in H; rule_cases; sizes. Qed.

Lemma _ctx_fold_arith_sizing : sizing node_size _ctx_fold_arith.
Proof. intros e alt Hs H; unfold _ctx_fold_arith in H; rule_cases; sizes. Qed.

Hint Resolve _correct_arith_sizing _correct_sign_sizing _correct_ref_sizing
  _correct_bitwise_sizing _negate_sizing _converged_cond_sizing
  _constant_folding_sizing _ctx_fold_assoc_sizing _ctx_fold_arith_sizing
  : sizing.

Lemma _equality_sizing (e alt : expr) :
  sized node_size e = true -> _equality node_size e = Some alt ->
  values_sized alt = true \/ exists x v, alt = BExpr EQ x (Val v None).
Proof.
  intros Hs H; unfold _equality in H; rule_cases;
    solve [ right; eauto | left; sizes ].
Qed.

(** C10: the [Val] that [_equality] builds when it combines two constants
    is constructed without a size, so its size is [undefined]; such a
    replacement is the only one of [_equality] that holds a [Val] without
    size, and every other rule, on a tree whose nodes all have a size,
    returns a replacement whose [Val]s all have one. *)
Theorem equality_value_without_size :
  (forall x c1 s1 c2 s2,
      _equality node_size (BExpr EQ (BExpr Add x (Val c1 s1)) (Val c2 s2))
      = Some (BExpr EQ x (Val (sub c2 c1) None)))
  /\ (forall x c1 s1 c2 s2,
      _equality node_size (BExpr EQ (BExpr Sub x (Val c1 s1)) (Val c2 s2))
      = Some (BExpr EQ x (Val (add c2 c1) None)))
  /\ (forall x v, values_sized (BExpr EQ x (Val v None)) = false)
  /\ (forall e alt, sized node_size e = true ->
      _equality node_size e = Some alt ->
      values_sized alt = true \/ exists x v, alt = BExpr EQ x (Val v None))
  /\ (forall r e alt,
      In r [ _correct_arith node_size; _correct_sign; _correct_ref;
             _correct_bitwise node_size; _negate; _converged_cond node_size;
             _constant_folding; _ctx_fold_assoc; _ctx_fold_arith ] ->
      sized node_size e = true -> r e = Some alt -> values_sized alt = true).
Proof.
  split; [reflexivity | ].
  split; [reflexivity | ].
  split; [intros x v; cbn; apply andb_false_r | ].
  split; [apply _equality_sizing | ].
  intros r e alt Hin. cbn [In] in Hin.
  repeat destruct Hin as [<- | Hin]; [eauto with sizing .. | destruct Hin].
Qed.
(** The mask is [2^size - 1] exactly for the sizes below 31. *)
Lemma wrap32_small (z : Z) : - 2 ^ 31 <= z < 2 ^ 31 -> wrap32 z = z.
Proof. intros H; unfold wrap32; rewrite Z.mod_small; lia. Qed.

Lemma wrap32_bound (z : Z) : wrap32 z < 2 ^ 31.
Proof.
  unfold wrap32. pose proof (Z.mod_pos_bound (z + 2 ^ 31) (2 ^ 32)). lia.
Qed.

Lemma wrap32_low (z : Z) : - 2 ^ 31 <= wrap32 z.
Proof.
  unfold wrap32. pose proof (Z.mod_pos_bound (z + 2 ^ 31) (2 ^ 32)). lia.
Qed.

(** [(1 << size) - 1] is computed without rounding. *)
Lemma all_ones_exact (s : option N) :
  all_ones s = Int (wrap32 (Z.shiftl 1 (ToUint32 (size_number s) mod 32)) - 1).
Proof.
  unfold all_ones, shl, sub.
  change (ToInt32 (Int 1)) with 1.
  apply round_Z_small.
  match goal with |- Z.abs (wrap32 ?z - 1) < _ =>
    pose proof (wrap32_bound z); pose proof (wrap32_low z) end.
  lia.
Qed.

Lemma all_ones_narrow (s : N) :
  (s < 31)%N -> all_ones (Some s) = Int (2 ^ Z.of_N s - 1).
Proof.
  intros Hs. rewrite all_ones_exact.
  unfold size_number, ToUint32, trunc.
  rewrite (Z.mod_small (Z.of_N s) (2 ^ 32)) by lia.
  rewrite (Z.mod_small (Z.of_N s) 32) by lia.
  rewrite Z.shiftl_1_l, wrap32_small; trivial.
  split; [pose proof (Z.pow_nonneg 2 (Z.of_N s)); lia | ].
  apply Z.pow_lt_mono_r; lia.
Qed.

Lemma all_ones_wide (s : N) :
  (31 <= s)%N -> all_ones (Some s) <> Int (2 ^ Z.of_N s - 1).
Proof.
  intros Hs. rewrite all_ones_exact.
  intros [= H].
  match type of H with wrap32 ?z - 1 = _ => pose proof (wrap32_bound z) end.
  assert (2 ^ 31 <= 2 ^ Z.of_N s) by (apply Z.pow_le_mono_r; lia).
  lia.
Qed.

(** C2, at the widths 32 and 64: the mask [(1 << size) - 1] that
    [_correct_bitwise] compares with is 0, not [2^size - 1], because the
    shift count is taken modulo 32.  A [Xor] of a 32-bit (64-bit) register
    with the [Val] that has all 32 (64) bits set is therefore not rewritten
    to [Not]: the rule returns [null] and [_reduce_expr] leaves the
    expression as it is.  At the width 8 the mask is 255 and the rewrite
    happens. *)
Theorem correct_bitwise_all_ones_mask :
  let eax := Leaf Register "eax" (Some 32%N) in
  let rax := Leaf Register "rax" (Some 64%N) in
  let al := Leaf Register "al" (Some 8%N) in
  all_ones (Some 32%N) = Int 0
  /\ all_ones (Some 64%N) = Int 0
  /\ _correct_bitwise node_size (BExpr Xor eax (Val (Int (2 ^ 32 - 1)) (Some 32%N)))
     = None
  /\ reduce_expr (BExpr Xor eax (Val (Int (2 ^ 32 - 1)) (Some 32%N)))
     = BExpr Xor eax (Val (Int (2 ^ 32 - 1)) (Some 32%N))
  /\ _correct_bitwise node_size (BExpr Xor rax (Val (Int (2 ^ 64 - 1)) (Some 64%N)))
     = None
  /\ reduce_expr (BExpr Xor rax (Val (Int (2 ^ 64 - 1)) (Some 64%N)))
     = BExpr Xor rax (Val (Int (2 ^ 64 - 1)) (Some 64%N))
  /\ all_ones (Some 8%N) = Int (2 ^ 8 - 1)
  /\ _correct_bitwise node_size (BExpr Xor al (Val (Int (2 ^ 8 - 1)) (Some 8%N)))
     = Some (UExpr Not al).
Proof.
  cbv zeta.
  repeat split; try reflexivity;
    apply _reduce_expr_irreducible; reflexivity.
Qed.

End Claims.

(** *** The rules on concrete trees *)

(** C1 fails as stated: [_constant_folding] fires on [7 / 0] and on
    [7 % 0], and [_reduce_expr] does not leave the expressions unchanged. *)
Lemma constant_folding_fires_on_zero_divisor :
  _constant_folding (BExpr Div (imm32 7) (imm32 0))
  = Some (Val (Inf false) (Some 32%N))
  /\ _constant_folding (BExpr Mod (imm32 7) (imm32 0))
     = Some (Val NaN (Some 32%N))
  /\ _reduce_expr operand_size (BExpr Div (imm32 7) (imm32 0))
     <> BExpr Div (imm32 7) (imm32 0)
  /\ _reduce_expr operand_size (BExpr Mod (imm32 7) (imm32 0))
     <> BExpr Mod (imm32 7) (imm32 0).
Proof. repeat split; try reflexivity; vm_compute; discriminate. Qed.

(** C3 fails as stated: [5 ^ 255] on 8 bits is rewritten to [Not(5)] by
    [_correct_bitwise], not folded to the [Val] 250. *)
Lemma xor_all_ones_is_not_folded :
  _reduce_expr operand_size (BExpr Xor (imm8 5) (imm8 255)) = UExpr Not (imm8 5)
  /\ bxor (Int 5) (Int 255) = Int 250
  /\ _reduce_expr operand_size (BExpr Xor (imm8 5) (imm8 255))
     <> Val (bxor (Int 5) (Int 255)) (Some 8%N)
  /\ equals operand_size
       (_reduce_expr operand_size (BExpr Xor (imm8 5) (imm8 255)))
       (Val (bxor (Int 5) (Int 255)) (Some 8%N)) = false.
Proof. repeat split; try reflexivity; vm_compute; discriminate. Qed.

Lemma folding_agreement_witness :
  is_double 12
  /\ ToInt32 (Int 12) = 12%Z
  /\ equals operand_size (imm8 10) (Val (all_ones (Some 8%N)) (Some 8%N)) = false
  /\ _reduce_expr operand_size (BExpr Add (imm8 12) (imm8 10)) = imm8 22
  /\ _reduce_expr operand_size (BExpr Sub (imm8 12) (imm8 10)) = imm8 2
  /\ _reduce_expr operand_size (BExpr Mul (imm8 12) (imm8 10)) = imm8 120
  /\ _reduce_expr operand_size (BExpr And (imm8 12) (imm8 10)) = imm8 8
  /\ _reduce_expr operand_size (BExpr Or (imm8 12) (imm8 10)) = imm8 14
  /\ _reduce_expr operand_size (BExpr Xor (imm8 12) (imm8 10)) = imm8 6
  /\ is_double (2 ^ 53)
  /\ _reduce_expr operand_size
       (BExpr Add (Val (Int (2 ^ 53)) (Some 64%N)) (Val (Int 1) (Some 64%N)))
     = Val (Int (2 ^ 53)) (Some 64%N).
Proof.
  destruct (folding_agreement operand_size 12 10 (Some 8%N) (Some 8%N))
    as (Harith & _ & _ & _ & _ & Hbits & _).
  destruct (Harith eq_refl) as (HAdd & HSub & HMul).
  destruct (Hbits eq_refl eq_refl) as (HAnd & HOr & HXor).
  destruct (folding_agreement operand_size (2 ^ 53) 1 (Some 64%N) (Some 64%N))
    as (Hbig & _).
  destruct (Hbig eq_refl) as (HAdd' & _).
  split; [reflexivity | ].
  split; [reflexivity | ].
  split; [reflexivity | ].
  split; [exact HAdd | ].
  split; [exact HSub | ].
  split; [exact HMul | ].
  split; [exact HAnd | ].
  split; [exact HOr | ].
  split; [exact HXor | ].
  split; [reflexivity | exact HAdd'].
Defined.

(** C7 fails as stated: with [x = 1 + 2] the result is the [Val] 3, which
    is not [x]. *)
Lemma identity_elimination_reduces_operand :
  _reduce_expr operand_size (BExpr Add (BExpr Add (imm32 1) (imm32 2)) (imm32 0))
  = imm32 3
  /\ _reduce_expr operand_size (BExpr Add (BExpr Add (imm32 1) (imm32 2)) (imm32 0))
     <> BExpr Add (imm32 1) (imm32 2)
  /\ equals operand_size
       (_reduce_expr operand_size
          (BExpr Add (BExpr Add (imm32 1) (imm32 2)) (imm32 0)))
       (BExpr Add (imm32 1) (imm32 2)) = false.
Proof. repeat split; try reflexivity; vm_compute; discriminate. Qed.

Lemma equality_rewrites_witness :
  is_Val ebx = false
  /\ _reduce_expr_once operand_size eax = None
  /\ _reduce_expr_once operand_size ebx = None
  /\ _equality operand_size (BExpr EQ (BExpr Sub eax ebx) (imm32 0))
     = Some (BExpr EQ eax ebx)
  /\ _reduce_expr operand_size (BExpr EQ (BExpr Sub eax ebx) (imm32 0))
     = BExpr EQ eax ebx
  /\ is_double 5
  /\ _equality operand_size (BExpr EQ (BExpr Sub eax (imm32 5)) (imm32 0))
     = Some (BExpr EQ eax (Val (Int 5) None)).
Proof.
  destruct (equality_rewrites operand_size) as (_ & _ & Hrule & Hreduce & Hconst & _).
  split; [reflexivity | ].
  split; [reflexivity | ].
  split; [reflexivity | ].
  split; [apply Hrule; reflexivity | ].
  split; [apply Hreduce; reflexivity | ].
  split; [reflexivity | ].
  apply (Hconst eax 5%Z 32%N (Some 32%N)). reflexivity.
Defined.

Lemma equality_value_without_size_witness :
  sized operand_size (BExpr Xor eax eax) = true
  /\ _correct_bitwise operand_size (BExpr Xor eax eax) = Some (imm32 0)
  /\ values_sized (imm32 0) = true
  /\ sized operand_size (BExpr EQ (BExpr Sub eax ebx) (imm32 0)) = true
  /\ _equality operand_size (BExpr EQ (BExpr Sub eax ebx) (imm32 0))
     = Some (BExpr EQ eax ebx)
  /\ (values_sized (BExpr EQ eax ebx) = true
      \/ exists x v, BExpr EQ eax ebx = BExpr EQ x (Val v None)).
Proof.
  destruct (equality_value_without_size operand_size)
    as (_ & _ & _ & Hequality & Hothers).
  split; [reflexivity | ].
  split; [reflexivity | ].
  split.
  - apply (Hothers (_correct_bitwise operand_size) (BExpr Xor eax eax)).
    + simpl; auto.
    + reflexivity.
    + reflexivity.
  - split; [reflexivity | ].
    split; [reflexivity | ].
    apply (Hequality (BExpr EQ (BExpr Sub eax ebx) (imm32 0))); reflexivity.
Defined.

End SimplifyFacts.

(** * Properties of the graph analyses *)
Module GraphFacts.
Import Graph.
Local Open Scope string_scope.

(** C4: on the diamond with root [A] the dominator tree has
    [idom(B) = idom(C) = idom(D) = A], and the dominance frontiers are
    [DF(A) = {}], [DF(B) = {D}], [DF(C) = {D}] and [DF(D) = {}], whether
    each is asked of a fresh tree or all four one after the other. *)
Theorem diamond_dominators :
  exists g d,
    diamond = Some g
    /\ DominatorTree g = Some d
    /\ idom d "B" = Some "A"
    /\ idom d "C" = Some "A"
    /\ idom d "D" = Some "A"
    /\ dominanceFrontier_ d "A" = Some []
    /\ dominanceFrontier_ d "B" = Some ["D"]
    /\ dominanceFrontier_ d "C" = Some ["D"]
    /\ dominanceFrontier_ d "D" = Some []
    /\ frontiers d ["A"; "B"; "C"; "D"] = Some [[]; ["D"]; ["D"]; []].
Proof.
  eexists; eexists.
  split; [vm_compute; reflexivity | ].
  split; [vm_compute; reflexivity | ].
  repeat split; vm_compute; reflexivity.
Qed.

(** C9, on two blocks whose entry has the higher address: the node 1 is
    reachable from the root 2 and its immediate dominator is 2, yet
    [dominates(root, n)] is [false] for it.  The constructor takes
    [Object.keys(dfstree.nodes)[0]] for the root of the dominator tree, and
    the keys that are array indices are enumerated in ascending order, so
    the root of the tree is the node 1; the climb from 1 stops there.
    Asked from the root the tree itself has, the query throws. *)
Theorem dominates_root_entry_above :
  exists g d,
    entry_above = Some g
    /\ root g = Some "2"
    /\ successors g (Num 2) = Some ["1"]
    /\ DominatorTree g = Some d
    /\ idom d "1" = Some "2"
    /\ root (dom d) = Some "1"
    /\ dominates_ d "2" "1" = Some false
    /\ (forall fuel, dominates (S fuel) d "2" (Some "1") = Some false)
    /\ (forall fuel, dominates fuel d "1" (Some "2") = None).
Proof.
  eexists; eexists.
  split; [vm_compute; reflexivity | ].
  split; [reflexivity | ].
  split; [reflexivity | ].
  split; [vm_compute; reflexivity | ].
  split; [reflexivity | ].
  split; [reflexivity | ].
  split; [reflexivity | ].
  split.
  - intros fuel; reflexivity.
  - intros [ | [ | fuel]]; reflexivity.
Qed.

(** With names for keys the enumeration follows the insertion, the root of
    the dominator tree is the entry, and the query holds. *)
Lemma dominates_root_entry_named :
  exists g d,
    entry_named = Some g
    /\ DominatorTree g = Some d
    /\ root (dom d) = Some "entry"
    /\ dominates_ d "entry" "exit" = Some true.
Proof.
  eexists; eexists.
  split; [vm_compute; reflexivity | ].
  split; [vm_compute; reflexivity | ].
  split; reflexivity.
Qed.

(** On the diamond the root dominates every node. *)
Lemma diamond_root_dominates :
  exists g d,
    diamond = Some g
    /\ DominatorTree g = Some d
    /\ map (dominates_ d "A") (iterNodes (dom d))
       = [Some true; Some true; Some true; Some true].
Proof.
  eexists; eexists.
  split; [vm_compute; reflexivity | ].
  split; [vm_compute; reflexivity | ].
  reflexivity.
Qed.

End GraphFacts.

(** * Further properties of the simplifier *)
Module SimplifyMore.
Import Number Expr Simplify SimplifyProps SimplifyFacts.
Local Open Scope string_scope.

Section Operands.
Variable node_size : expr -> option N.
Local Abbreviation reduce_expr := (_reduce_expr node_size).
Local Abbreviation once := (_reduce_expr_once node_size).

Lemma reduce_lhand (o : bop) (y : expr) (n : nat) :
  forall x, (weight x < n)%nat ->
  reduce_expr (BExpr o x y) = reduce_expr (BExpr o (reduce_expr x) y).
Proof.
  induction n as [ | n IH]; intros x Hx; [lia | ].
  rewrite (_reduce_expr_step node_size x).
  destruct (once x) as [x' | ] eqn:E; [ | reflexivity].
  rewrite (_reduce_expr_step node_size (BExpr o x y)), _reduce_expr_once_BExpr, E.
  apply IH. apply _reduce_expr_once_decreasing in E. lia.
Qed.

Lemma reduce_rhand (o : bop) (x : expr) (n : nat) :
  once x = None ->
  forall y, (weight y < n)%nat ->
  reduce_expr (BExpr o x y) = reduce_expr (BExpr o x (reduce_expr y)).
Proof.
  intros Hx. induction n as [ | n IH]; intros y Hy; [lia | ].
  rewrite (_reduce_expr_step node_size y).
  destruct (once y) as [y' | ] eqn:E; [ | reflexivity].
  rewrite (_reduce_expr_step node_size (BExpr o x y)), _reduce_expr_once_BExpr, Hx, E.
  apply IH. apply _reduce_expr_once_decreasing in E. lia.
Qed.

Lemma reduce_operand (o : uop) (n : nat) :
  forall x, (weight x < n)%nat ->
  reduce_expr (UExpr o x) = reduce_expr (UExpr o (reduce_expr x)).
Proof.
  induction n as [ | n IH]; intros x Hx; [lia | ].
  rewrite (_reduce_expr_step node_size x).
  destruct (once x) as [x' | ] eqn:E; [ | reflexivity].
  rewrite (_reduce_expr_step node_size (UExpr o x)), _reduce_expr_once_UExpr, E.
  apply IH. apply _reduce_expr_once_decreasing in E. lia.
Qed.

Lemma reduce_BExpr (o : bop) (x y : expr) :
  reduce_expr (BExpr o x y)
  = reduce_expr (BExpr o (reduce_expr x) (reduce_expr y)).
Proof.
  rewrite (reduce_lhand o y (S (weight x))) by lia.
  apply (reduce_rhand o _ (S (weight y))); [apply _reduce_expr_fixed | lia].
Qed.

Lemma reduce_UExpr (o : uop) (x : expr) :
  reduce_expr (UExpr o x) = reduce_expr (UExpr o (reduce_expr x)).
Proof. apply (reduce_operand o (S (weight x))). lia. Qed.

(** On reduced operands the pass looks at the root only. *)
Lemma once_BExpr_reduced (o : bop) (x y : expr) :
  once (BExpr o (reduce_expr x) (reduce_expr y))
  = first_alt (rules node_size) (BExpr o (reduce_expr x) (reduce_expr y)).
Proof. now rewrite _reduce_expr_once_BExpr, !_reduce_expr_fixed. Qed.

Lemma once_UExpr_reduced (o : uop) (x : expr) :
  once (UExpr o (reduce_expr x))
  = first_alt (rules node_size) (UExpr o (reduce_expr x)).
Proof. now rewrite _reduce_expr_once_UExpr, !_reduce_expr_fixed. Qed.

Lemma inert_bop_rules (o : bop) (x y : expr) :
  inert_bop o = true -> first_alt (rules node_size) (BExpr o x y) = None.
Proof. destruct o; try discriminate; reflexivity. Qed.

Lemma inert_uop_rules (o : uop) (x : expr) :
  inert_uop o = true -> first_alt (rules node_size) (UExpr o x) = None.
Proof. destruct o; try discriminate; reflexivity. Qed.

Lemma reduce_inert_bop (o : bop) (x y : expr) :
  inert_bop o = true ->
  reduce_expr (BExpr o x y) = BExpr o (reduce_expr x) (reduce_expr y).
Proof.
  intros Ho. rewrite reduce_BExpr. apply _reduce_expr_irreducible.
  rewrite once_BExpr_reduced. now apply inert_bop_rules.
Qed.

Lemma reduce_inert_uop (o : uop) (x : expr) :
  inert_uop o = true ->
  reduce_expr (UExpr o x) = UExpr o (reduce_expr x).
Proof.
  intros Ho. rewrite reduce_UExpr. apply _reduce_expr_irreducible.
  rewrite once_UExpr_reduced. now apply inert_uop_rules.
Qed.


(** X1: [_reduce_expr] works from the inside out: the operands of an operator
    are brought to their reduced form before any rule sees the operator, so
    reducing [op(x, y)] is reducing [op] applied to the reduced [x] and the
    reduced [y], and likewise for a unary operator. *)
Theorem operands_reduced_first (x y : expr) :
  (forall o, reduce_expr (BExpr o x y)
             = reduce_expr (BExpr o (reduce_expr x) (reduce_expr y)))
  /\ (forall o, reduce_expr (UExpr o x) = reduce_expr (UExpr o (reduce_expr x))).
Proof. split; intros o; [apply reduce_BExpr | apply reduce_UExpr]. Qed.

(** X2: no rule of [rules] has a case for [Shr], [BoolAnd], [NE], [LT],
    [LE], [GT], [GE], [Neg] or [Not] at the root: reducing such a node
    reduces its operands and keeps the operator. *)
Theorem inert_operators (x y : expr) :
  Forall (fun o => reduce_expr (BExpr o x y)
                   = BExpr o (reduce_expr x) (reduce_expr y))
    [Shr; BoolAnd; NE; LT; LE; GT; GE]
  /\ Forall (fun o => reduce_expr (UExpr o x) = UExpr o (reduce_expr x))
       [Neg; Not].
Proof.
  split; repeat constructor;
    solve [ now apply reduce_inert_bop | now apply reduce_inert_uop ].
Qed.

Lemma reduce_negated_fixed (o o' : bop) (a b : expr) :
  inert_bop o = true -> inert_bop o' = true ->
  once a = None -> once b = None ->
  _negate (UExpr BoolNot (BExpr o a b)) = Some (BExpr o' a b) ->
  reduce_expr (UExpr BoolNot (BExpr o a b)) = BExpr o' a b.
Proof.
  intros Ho Ho' Ha Hb Hneg.
  rewrite _reduce_expr_step, _reduce_expr_once_UExpr, _reduce_expr_once_BExpr.
  rewrite Ha, Hb, (inert_bop_rules o) by exact Ho.
  replace (first_alt (rules node_size) (UExpr BoolNot (BExpr o a b)))
    with (_negate (UExpr BoolNot (BExpr o a b))).
  - rewrite Hneg. apply _reduce_expr_irreducible.
    rewrite _reduce_expr_once_BExpr, Ha, Hb. now apply inert_bop_rules.
  - unfold rules; cbn [first_alt].
    destruct (_negate (UExpr BoolNot (BExpr o a b))); reflexivity.
Qed.

Lemma reduce_negated (o o' : bop) (x y : expr) :
  inert_bop o = true -> inert_bop o' = true ->
  (forall a b, _negate (UExpr BoolNot (BExpr o a b)) = Some (BExpr o' a b)) ->
  (forall a b, _negate (UExpr BoolNot (BExpr o' a b)) = Some (BExpr o a b)) ->
  reduce_expr (UExpr BoolNot (BExpr o x y))
  = BExpr o' (reduce_expr x) (reduce_expr y)
  /\ reduce_expr (UExpr BoolNot (UExpr BoolNot (BExpr o x y)))
     = BExpr o (reduce_expr x) (reduce_expr y).
Proof.
  intros Ho Ho' H1 H2.
  assert (E : reduce_expr (UExpr BoolNot (BExpr o x y))
              = BExpr o' (reduce_expr x) (reduce_expr y)).
  { rewrite reduce_UExpr, (reduce_inert_bop o) by exact Ho.
    apply reduce_negated_fixed; auto using _reduce_expr_fixed. }
  split; [exact E | ].
  rewrite reduce_UExpr, E.
  apply reduce_negated_fixed; auto using _reduce_expr_fixed.
Qed.

(** X3: [_negate] on the orderings: [!(x < y)] becomes [x >= y], [!(x <= y)]
    becomes [x > y], [!(x > y)] becomes [x <= y] and [!(x >= y)] becomes
    [x < y], over the reduced operands; negating twice gives the ordering
    back. *)
Theorem negated_orderings (x y : expr) :
  let x' := reduce_expr x in
  let y' := reduce_expr y in
  reduce_expr (UExpr BoolNot (BExpr LT x y)) = BExpr GE x' y'
  /\ reduce_expr (UExpr BoolNot (BExpr LE x y)) = BExpr GT x' y'
  /\ reduce_expr (UExpr BoolNot (BExpr GT x y)) = BExpr LE x' y'
  /\ reduce_expr (UExpr BoolNot (BExpr GE x y)) = BExpr LT x' y'
  /\ reduce_expr (UExpr BoolNot (UExpr BoolNot (BExpr LT x y))) = BExpr LT x' y'
  /\ reduce_expr (UExpr BoolNot (UExpr BoolNot (BExpr LE x y))) = BExpr LE x' y'
  /\ reduce_expr (UExpr BoolNot (UExpr BoolNot (BExpr GT x y))) = BExpr GT x' y'
  /\ reduce_expr (UExpr BoolNot (UExpr BoolNot (BExpr GE x y))) = BExpr GE x' y'.
Proof.
  cbv zeta.
  pose proof (fun o o' => reduce_negated o o' x y) as H.
  destruct (H LT GE) as [? ?]; try reflexivity.
  destruct (H LE GT) as [? ?]; try reflexivity.
  destruct (H GT LE) as [? ?]; try reflexivity.
  destruct (H GE LT) as [? ?]; try reflexivity.
  repeat split; assumption.
Qed.


(** X4: De Morgan in [_negate]: [!(a && b)] reduces to what
    [!a || !b] reduces to, the negations pushed onto the reduced
    operands. *)
Theorem de_morgan_and (a b : expr) :
  reduce_expr (UExpr BoolNot (BExpr BoolAnd a b))
  = reduce_expr (BExpr BoolOr (UExpr BoolNot (reduce_expr a))
                              (UExpr BoolNot (reduce_expr b))).
Proof.
  rewrite reduce_UExpr, (reduce_inert_bop BoolAnd) by reflexivity.
  rewrite _reduce_expr_step, _reduce_expr_once_UExpr, _reduce_expr_once_BExpr.
  rewrite !_reduce_expr_fixed. reflexivity.
Qed.

Lemma reduce_identity (o : bop) (c : Z) (x : expr) (w : option N) :
  In (o, c) [(Add, 0); (Sub, 0); (Mul, 1); (Div, 1)]%Z ->
  reduce_expr (BExpr o x (Val (Int c) w)) = reduce_expr x.
Proof.
  intros Hin. rewrite reduce_BExpr, reduce_Val.
  rewrite _reduce_expr_step, _reduce_expr_once_BExpr, once_Val.
  rewrite _reduce_expr_fixed.
  replace (first_alt (rules node_size) (BExpr o (reduce_expr x) (Val (Int c) w)))
    with (Some (reduce_expr x)).
  - apply _reduce_expr_irreducible, _reduce_expr_fixed.
  - cbn [In] in Hin.
    destruct Hin as [[= <- <-] | [[= <- <-] | [[= <- <-] | [[= <- <-] | []]]]];
      cbn; rewrite size_eqb_refl; reflexivity.
Qed.

(** X5: the other identities of [_correct_arith]: [x - 0], [x * 1] and
    [x / 1] reduce to the reduced [x], whatever the size of the constant. *)
Theorem arithmetic_identities (x : expr) (w : option N) :
  reduce_expr (BExpr Sub x (Val (Int 0) w)) = reduce_expr x
  /\ reduce_expr (BExpr Mul x (Val (Int 1) w)) = reduce_expr x
  /\ reduce_expr (BExpr Div x (Val (Int 1) w)) = reduce_expr x.
Proof. repeat split; apply reduce_identity; cbn; auto. Qed.

Lemma once_UExpr_none (o : uop) (x : expr) :
  once (UExpr o x) = None -> once x = None.
Proof.
  rewrite _reduce_expr_once_UExpr. destruct (once x); [discriminate | reflexivity].
Qed.

Lemma reduce_ref (o o' : uop) (x : expr) :
  In (o, o') [(AddrOf, Deref); (Deref, AddrOf)] ->
  reduce_expr (UExpr o (UExpr o' x)) = reduce_expr x.
Proof.
  intros Hin.
  assert (Hrule : forall u, first_alt (rules node_size) (UExpr o (UExpr o' u)) = Some u).
  { intros u. cbn [In] in Hin.
    destruct Hin as [[= <- <-] | [[= <- <-] | []]]; reflexivity. }
  assert (Hinner : forall u alt,
             first_alt (rules node_size) (UExpr o' u) = Some alt ->
             u = UExpr o alt).
  { intros u alt. cbn [In] in Hin.
    destruct Hin as [[= <- <-] | [[= <- <-] | []]];
      destruct u as [ | | [] ? | ]; cbn; congruence. }
  rewrite reduce_UExpr, (reduce_UExpr o').
  set (x' := reduce_expr x).
  assert (Hx' : once x' = None) by apply _reduce_expr_fixed.
  rewrite (_reduce_expr_step node_size (UExpr o' x')), _reduce_expr_once_UExpr, Hx'.
  destruct (first_alt (rules node_size) (UExpr o' x')) as [alt | ] eqn:E.
  - apply Hinner in E. pose proof Hx' as Halt. rewrite E in Halt.
    rewrite (_reduce_expr_irreducible node_size alt)
      by (eapply once_UExpr_none; exact Halt).
    rewrite <- E. now apply _reduce_expr_irreducible.
  - rewrite _reduce_expr_step, _reduce_expr_once_UExpr, _reduce_expr_once_UExpr.
    rewrite Hx', E, Hrule. now apply _reduce_expr_irreducible.
Qed.

(** X6: [_correct_ref]: [&*x] and [*&x] reduce to the reduced [x]. *)
Theorem reference_cancellation (x : expr) :
  reduce_expr (UExpr AddrOf (UExpr Deref x)) = reduce_expr x
  /\ reduce_expr (UExpr Deref (UExpr AddrOf x)) = reduce_expr x.
Proof. split; apply reduce_ref; cbn; auto. Qed.

(** X7: [_correct_sign]: adding a negative constant reduces as subtracting
    its absolute value and subtracting one as adding it; on integers the two
    forms have the same value. *)
Theorem negative_constant_flips_operator (x : expr) (z : Z) (s : option N) :
  (z < 0)%Z ->
  reduce_expr (BExpr Add x (Val (Int z) s))
  = reduce_expr (BExpr Sub (reduce_expr x) (Val (Int (- z)) s))
  /\ reduce_expr (BExpr Sub x (Val (Int z) s))
     = reduce_expr (BExpr Add (reduce_expr x) (Val (Int (- z)) s))
  /\ (forall v, add (Int v) (Int z) = sub (Int v) (Int (- z)))
  /\ (forall v, sub (Int v) (Int z) = add (Int v) (Int (- z))).
Proof.
  intros Hz.
  assert (Habs : Z.abs z = (- z)%Z) by lia.
  assert (Hz0 : (z =? 0)%Z = false) by (apply Z.eqb_neq; lia).
  assert (Hneg : (z <? 0)%Z = true) by (apply Z.ltb_lt; lia).
  split; [ | split; [ | split]].
  - rewrite reduce_BExpr, reduce_Val.
    rewrite _reduce_expr_step, _reduce_expr_once_BExpr, once_Val, _reduce_expr_fixed.
    cbn. rewrite Hz0, Hneg. cbn. now rewrite Habs.
  - rewrite reduce_BExpr, reduce_Val.
    rewrite _reduce_expr_step, _reduce_expr_once_BExpr, once_Val, _reduce_expr_fixed.
    cbn. rewrite Hz0, Hneg. cbn. now rewrite Habs.
  - intros v. unfold add, sub. f_equal; lia.
  - intros v. unfold add, sub. f_equal; lia.
Qed.

Lemma shift_count (c : Z) : ((c mod 2 ^ 32) mod 32 = c mod 32)%Z.
Proof.
  apply Z.mod_mod_divide. exists (2 ^ 27)%Z. reflexivity.
Qed.

Lemma low_bits_mask (c : Z) :
  bnot (sub (shl (Int 1) (Int c)) (Int 1)) = Int (- 2 ^ (c mod 32)).
Proof.
  unfold shl, sub.
  rewrite round_Z_small.
  2:{ match goal with |- (Z.abs (wrap32 ?z - 1) < _)%Z =>
        pose proof (wrap32_bound z); pose proof (wrap32_low z) end.
      lia. }
  unfold bnot, ToInt32, ToUint32, trunc.
  rewrite shift_count, (wrap32_small 1) by lia.
  rewrite Z.shiftl_1_l.
  pose proof (Z.mod_pos_bound c 32 ltac:(lia)) as Hk.
  destruct (Z.eq_dec (c mod 32) 31) as [-> | Hne].
  - reflexivity.
  - assert (0 < 2 ^ (c mod 32) < 2 ^ 31)%Z.
    { split; [apply Z.pow_pos_nonneg; lia | apply Z.pow_lt_mono_r; lia]. }
    rewrite !wrap32_small by (try rewrite wrap32_small; lia).
    f_equal. unfold Z.lnot. lia.
Qed.

(** X8: [_correct_bitwise] turns [(x >> c) << c] into [x & m] with
    [m = ~((1 << c) - 1)], which is [-2^(c mod 32)]: the mask has exactly the
    bits from [c mod 32] upwards set, the shift count being taken modulo
    32. *)
Theorem shift_pair_becomes_mask (x : expr) (c : Z) (s : option N) :
  _correct_bitwise node_size
    (BExpr Shl (BExpr Shr x (Val (Int c) s)) (Val (Int c) s))
  = Some (BExpr And x (Val (Int (- 2 ^ (c mod 32))) s))
  /\ (forall n : N,
        Z.testbit (- 2 ^ (c mod 32)) (Z.of_N n) = (c mod 32 <=? Z.of_N n)%Z).
Proof.
  split.
  - cbn [_correct_bitwise is_Val Expr.equals strict_eq andb].
    rewrite Z.eqb_refl, size_eqb_refl. cbn [andb].
    now rewrite low_bits_mask.
  - intros n.
    pose proof (Z.mod_pos_bound c 32 ltac:(lia)) as Hk.
    replace (- 2 ^ (c mod 32))%Z with (Z.lnot (Z.ones (c mod 32)))
      by (rewrite Z.ones_equiv; unfold Z.lnot; lia).
    rewrite Z.lnot_spec, Z.testbit_ones_nonneg by lia.
    destruct (Z.ltb_spec (Z.of_N n) (c mod 32)),
             (Z.leb_spec (c mod 32) (Z.of_N n)); trivial; lia.
Qed.

(** *** The value of the regrouped constants *)















(** *** What the reduced tree no longer contains *)

Lemma first_alt_none (rs : list rule) (o : expr) :
  first_alt rs o = None -> forall r, In r rs -> r o = None.
Proof.
  induction rs as [ | r' rs IH]; cbn [first_alt In]; [tauto | ].
  destruct (r' o) eqn:E; [discriminate | ].
  intros H r [<- | Hin]; auto.
Qed.

Lemma reduced_subexpression (e : expr) (p : path) (o : expr) :
  In (p, o) (iter_operands (reduce_expr e)) ->
  forall r, In r (rules node_size) -> r o = None.
Proof.
  intros Hin. apply first_alt_none.
  pose proof (_reduce_expr_fixed node_size e) as Hfix.
  unfold _reduce_expr_once in Hfix.
  destruct (first_rewrite node_size (iter_operands (reduce_expr e)))
    as [[q alt] | ] eqn:E; [discriminate | ].
  apply first_rewrite_none in E.
  rewrite Forall_forall in E. exact (E _ Hin).
Qed.

(** X11: what a reduced tree never contains, constants: at no position is
    there a foldable operator on two [Val]s, an addition or subtraction of
    the constant 0 or of a negative constant, or a multiplication or
    division by the constant 1. *)
Theorem reduced_constants (e : expr) (p : path) (o : expr) :
  In (p, o) (iter_operands (reduce_expr e)) ->
  (forall op a sa b sb, o = BExpr op (Val a sa) (Val b sb) ->
     ~ In op [Add; Sub; Mul; Div; Mod; And; Or; Xor])
  /\ (forall op x v s, o = BExpr op x (Val v s) -> In op [Add; Sub] ->
       strict_eq v (Int 0) = false /\ lt v (Int 0) = false)
  /\ (forall op x v s, o = BExpr op x (Val v s) -> In op [Mul; Div] ->
       strict_eq v (Int 1) = false).
Proof.
  intros Hin. pose proof (reduced_subexpression e p o Hin) as Hnone.
  assert (Hfold : _constant_folding o = None) by (apply Hnone; cbn; auto 12).
  assert (Harith : _correct_arith node_size o = None) by (apply Hnone; cbn; auto).
  assert (Hsign : _correct_sign o = None) by (apply Hnone; cbn; auto).
  split; [ | split].
  - intros op a sa b sb -> Hop. cbn [In] in Hop.
    repeat destruct Hop as [<- | Hop]; try discriminate. exact Hop.
  - intros op x v s -> Hop. cbn [In] in Hop.
    destruct Hop as [<- | [<- | []]]; cbn in Harith, Hsign;
      rewrite size_eqb_refl, andb_true_r in Harith;
      destruct (strict_eq v (Int 0)); try discriminate;
      destruct (lt v (Int 0)); try discriminate; auto.
  - intros op x v s -> Hop. cbn [In] in Hop.
    destruct Hop as [<- | [<- | []]]; cbn in Harith;
      rewrite size_eqb_refl, andb_true_r in Harith;
      destruct (strict_eq v (Int 1)); try discriminate; auto.
Qed.

(** X12: what a reduced tree never contains, unary operators: a [BoolNot]
    over a binary operator only over the arithmetic and bitwise ones, which
    [_negate] has no case for; no double [BoolNot]; no [&*x] and no
    [*&x]. *)
Theorem reduced_negations (e : expr) (p : path) (o : expr) :
  In (p, o) (iter_operands (reduce_expr e)) ->
  (forall op a b, o = UExpr BoolNot (BExpr op a b) ->
     In op [Mul; Div; Mod; And; Or; Xor; Shl; Shr])
  /\ (forall x, o <> UExpr BoolNot (UExpr BoolNot x))
  /\ (forall x, o <> UExpr AddrOf (UExpr Deref x))
  /\ (forall x, o <> UExpr Deref (UExpr AddrOf x)).
Proof.
  intros Hin. pose proof (reduced_subexpression e p o Hin) as Hnone.
  assert (Hneg : _negate o = None) by (apply Hnone; cbn; auto 12).
  assert (Href : _correct_ref o = None) by (apply Hnone; cbn; auto).
  repeat split.
  - intros op a b ->. destruct op; try discriminate; cbn; auto 12.
  - intros x ->. discriminate.
  - intros x ->. discriminate.
  - intros x ->. discriminate.
Qed.

End Operands.

Lemma reduced_constants_witness :
  In ([], BExpr Sub eax (imm32 3))
     (iter_operands (_reduce_expr operand_size (BExpr Add eax (imm32 (-3)))))
  /\ strict_eq (Int 3) (Int 0) = false
  /\ lt (Int 3) (Int 0) = false.
Proof.
  split; [vm_compute; auto | ].
  destruct (reduced_constants operand_size (BExpr Add eax (imm32 (-3))) []
              (BExpr Sub eax (imm32 3))) as (_ & H & _).
  - vm_compute; auto.
  - apply (H Sub eax (Int 3) (Some 32%N)); [reflexivity | simpl; auto].
Defined.

Lemma reduced_negations_witness :
  In ([], UExpr BoolNot (BExpr Mul eax ebx))
     (iter_operands (_reduce_expr operand_size (UExpr BoolNot (BExpr Mul eax ebx))))
  /\ In Mul [Mul; Div; Mod; And; Or; Xor; Shl; Shr].
Proof.
  split; [vm_compute; auto | ].
  destruct (reduced_negations operand_size (UExpr BoolNot (BExpr Mul eax ebx)) []
              (UExpr BoolNot (BExpr Mul eax ebx))) as (H & _).
  - vm_compute; auto.
  - apply (H Mul eax ebx). reflexivity.
Defined.



Lemma negative_constant_flips_operator_witness :
  (-3 < 0)%Z
  /\ _reduce_expr operand_size (BExpr Add eax (imm32 (-3)))
     = _reduce_expr operand_size
         (BExpr Sub (_reduce_expr operand_size eax) (Val (Int (- -3)) (Some 32%N))).
Proof.
  split; [reflexivity | ].
  apply (negative_constant_flips_operator operand_size eax (-3) (Some 32%N)).
  reflexivity.
Defined.

End SimplifyMore.

(** * Further properties of the graphs *)
Module GraphMore.
Import Graph GraphProps.
Local Open Scope string_scope.

Local Open Scope string_scope.

Section ObjectFacts.
Context {A : Type}.
Implicit Types (o : object A) (v : A).

Lemma get_update o name v name' :
  get (update o name v) name'
  = match get o name with
    | Some _ => if String.eqb name name' then Some v else get o name'
    | None => get o name'
    end.
Proof.
  induction o as [ | [k w] o IH]; cbn [update get]; [reflexivity | ].
  destruct (String.eqb_spec k name) as [-> | Hk].
  - cbn [get]. destruct (String.eqb_spec name name'); reflexivity.
  - cbn [get]. destruct (String.eqb_spec k name') as [-> | Hk'].
    + destruct (get o name); [ | reflexivity].
      destruct (String.eqb_spec name name'); [congruence | reflexivity].
    + exact IH.
Qed.

Lemma get_app_new o name v name' :
  get o name = None ->
  get (o ++ [(name, v)])%list name'
  = if String.eqb name name' then Some v else get o name'.
Proof.
  induction o as [ | [k w] o IH]; cbn [app get]; intros H.
  - destruct (String.eqb name name'); reflexivity.
  - destruct (String.eqb_spec k name) as [-> | Hk]; [discriminate | ].
    destruct (String.eqb_spec k name') as [-> | Hk'].
    + destruct (String.eqb_spec name name'); [congruence | reflexivity].
    + auto.
Qed.

Lemma get_insert_index o i name v name' :
  get o name = None ->
  get (insert_index o i name v) name'
  = if String.eqb name name' then Some v else get o name'.
Proof.
  induction o as [ | [k w] o IH]; cbn [insert_index get]; intros H.
  - destruct (String.eqb name name'); reflexivity.
  - destruct (String.eqb_spec k name) as [-> | Hk]; [discriminate | ].
    destruct (array_index k) as [j | ]; [destruct (N.ltb j i) | ]; cbn [get].
    + destruct (String.eqb_spec k name') as [-> | Hk'].
      * destruct (String.eqb_spec name name'); [congruence | reflexivity].
      * auto.
    + destruct (String.eqb_spec name name'); reflexivity.
    + destruct (String.eqb_spec name name'); reflexivity.
Qed.

Lemma get_set o name v name' :
  get (set o name v) name'
  = if String.eqb name name' then Some v else get o name'.
Proof.
  unfold set. destruct (get o name) eqn:E.
  - rewrite get_update, E. reflexivity.
  - destruct (array_index name).
    + now apply get_insert_index.
    + now apply get_app_new.
Qed.

End ObjectFacts.

Lemma addEdge_none (g : Directed_) (a b : keyval) :
  addEdge g (a, b) = None <-> getNode g a = None \/ getNode g b = None.
Proof.
  unfold addEdge, getNode; cbn [fst snd].
  destruct (get (nodes g) (ToPropertyKey a)) as [src | ] eqn:Ea; [ | tauto].
  destruct (get (nodes g) (ToPropertyKey b)) as [dst | ] eqn:Eb; [ | tauto].
  rewrite get_update, Ea.
  destruct (String.eqb (ToPropertyKey a) (ToPropertyKey b));
    [ | rewrite Eb]; split; (discriminate || intros [H | H]; discriminate).
Qed.

(** X14: [addEdge] throws exactly when an endpoint of the edge is not a node
    of the graph. *)
Theorem addEdge_throws (g : Directed_) (a b : keyval) :
  addEdge g (a, b) = None <-> getNode g a = None \/ getNode g b = None.
Proof. exact (addEdge_none g a b). Qed.

(** *** The root *)

Lemma addNode_root (ns : list keyval) (g : Directed_) :
  root (fold_left addNode ns g) = root g.
Proof. revert g; induction ns as [ | k ns IH]; intros g; cbn; [ | rewrite IH]; reflexivity. Qed.

Lemma addEdge_root (g g' : Directed_) (e : keyval * keyval) :
  addEdge g e = Some g' -> root g' = root g.
Proof.
  unfold addEdge.
  destruct (get (nodes g) (ToPropertyKey (fst e))); [ | discriminate].
  destruct (get (nodes g) (ToPropertyKey (snd e))); [ | discriminate].
  match goal with |- context [get ?o ?k] => destruct (get o k) end;
    [ | discriminate].
  now intros [= <-].
Qed.

Lemma addEdges_root (es : list (keyval * keyval)) (g g' : Directed_) :
  foldM addEdge es g = Some g' -> root g' = root g.
Proof.
  revert g; induction es as [ | e es IH]; intros g; cbn [foldM].
  - now intros [= <-].
  - destruct (addEdge g e) as [g1 | ] eqn:E; [ | discriminate].
    intros H. rewrite (IH _ H). eapply addEdge_root; eauto.
Qed.

Lemma Directed_root_eq (ns : list keyval) (es : list (keyval * keyval))
    (r : option keyval) (g : Directed_) :
  Directed ns es r = Some g ->
  root g
  = match r with
    | Some k =>
        if truthy k
        then match getNode g k with
             | Some _ => Some (ToPropertyKey k)
             | None => None
             end
        else None
    | None => None
    end.
Proof.
  unfold Directed.
  destruct (foldM addEdge es (fold_left addNode ns (mkDirected [] None)))
    as [g1 | ] eqn:E; [ | discriminate].
  apply addEdges_root in E. rewrite addNode_root in E. cbn in E.
  destruct r as [k | ]; [destruct (truthy k) | ]; intros [= <-]; trivial.
Qed.

(** X20: without a root nothing can be built.  When the root key is [0]
    or the empty string, which [if (root)] takes for no root, or when it is
    the key of no node and not the name of a member of [Object.prototype]
    (all keys plain), the graph has no root, and [DFSpanningTree] and
    [DominatorTree] throw. *)
Theorem DominatorTree_needs_root (ns : list keyval)
    (es : list (keyval * keyval)) (k : keyval) (g : Directed_) :
  Directed ns es (Some k) = Some g ->
  truthy k = false
  \/ (getNode g k = None /\ inherited (ToPropertyKey k) = false
      /\ Forall plain (k :: ns)) ->
  root g = None /\ DFSpanningTree g = None /\ DominatorTree g = None.
Proof.
  intros Hg Hk. apply Directed_root_eq in Hg.
  assert (Hroot : root g = None).
  { rewrite Hg. destruct Hk as [-> | [-> _]]; [ | destruct (truthy k)];
      reflexivity. }
  unfold DominatorTree, DFSpanningTree. rewrite Hroot. auto.
Qed.

(** *** The queries *)

Lemma dominates_more_fuel (d : DominatorTree_) (v : ref) (f k : nat) :
  forall (u : option ref) (b : bool),
  dominates f d v u = Some b -> dominates (f + k) d v u = Some b.
Proof.
  induction f as [ | f IH]; intros u b; cbn [dominates Nat.add]; [discriminate | ].
  destruct (ref_eqb u (Some v)); [trivial | ].
  destruct (ref_eqb u (root (dom d))); [trivial | ].
  destruct u as [un | ]; [apply IH | discriminate].
Qed.

Lemma dominates_chain (d : DominatorTree_) (v u : ref) (f1 : nat) :
  dominates f1 d v (Some u) = Some true ->
  forall (f2 : nat) (w : option ref),
  dominates f2 d u w = Some true ->
  dominates (f2 + f1) d v w = Some true.
Proof.
  intros Hvu. induction f2 as [ | f2 IH]; intros w; cbn [dominates];
    [discriminate | ].
  destruct (ref_eqb w (Some u)) eqn:Eu.
  - intros _. destruct w as [wn | ]; [ | discriminate].
    apply String.eqb_eq in Eu as ->. rewrite Nat.add_comm.
    now apply (dominates_more_fuel d v f1 (S f2) (Some u) true).
  - destruct (ref_eqb w (root (dom d))) eqn:Er; [discriminate | ].
    destruct w as [wn | ]; [ | discriminate].
    intros H. cbn [Nat.add dominates]. rewrite Er.
    destruct (ref_eqb (Some wn) (Some v)); [reflexivity | ].
    now apply IH.
Qed.

(** X24: [dominates] is transitive where it answers [true]: the climb from
    [w] that finds [u], followed by the climb from [u] that finds [v], is the
    climb from [w] that finds [v]. *)
Theorem dominates_transitive (d : DominatorTree_) (v u w : ref) (f1 f2 : nat) :
  dominates f1 d v (Some u) = Some true ->
  dominates f2 d u (Some w) = Some true ->
  dominates (f2 + f1) d v (Some w) = Some true.
Proof. intros Hvu Huw. now apply (dominates_chain d v u f1 Hvu). Qed.


(** *** The order of the keys *)

Lemma array_index_decimal (k : string) (j : N) :
  array_index k = Some j -> k = decimal j.
Proof.
  unfold array_index. destruct (NilEmpty.uint_of_string k) as [u | ]; [ | discriminate].
  destruct (String.eqb_spec (decimal (N.of_uint u)) k) as [E | ]; [ | discriminate].
  destruct (N.ltb (N.of_uint u) (2 ^ 32 - 1)); [ | discriminate].
  cbn. intros [= <-]. now symmetry.
Qed.

Section KeyOrder.
Context {A : Type}.
Implicit Types (o : object A) (v : A).

Lemma keys_update o name v : keys (update o name v) = keys o.
Proof.
  induction o as [ | [k w] o IH]; cbn [update keys map fst]; [reflexivity | ].
  destruct (String.eqb k name); cbn [map fst]; [reflexivity | ].
  f_equal. exact IH.
Qed.

Lemma get_none o name : get o name = None <-> ~ In name (keys o).
Proof.
  induction o as [ | [k w] o IH]; cbn [get keys map fst In]; [tauto | ].
  destruct (String.eqb_spec k name); [ | tauto].
  split; [discriminate | tauto].
Qed.

Lemma keys_insert_index o i name v x :
  In x (keys (insert_index o i name v)) <-> x = name \/ In x (keys o).
Proof.
  induction o as [ | [k w] o IH]; cbn [insert_index keys map fst In].
  - intuition.
  - destruct (array_index k) as [j | ]; [destruct (N.ltb j i) | ];
      cbn [map fst In]; fold (keys o) in *; fold (keys (insert_index o i name v)) in *;
      intuition.
Qed.

Lemma sorted_insert_index o i name v :
  StronglySorted key_before (keys o) ->
  get o name = None -> array_index name = Some i ->
  StronglySorted key_before (keys (insert_index o i name v)).
Proof.
  intros Hs Hget Hi.
  induction o as [ | [k w] o IH]; cbn [insert_index keys map fst].
  - repeat constructor.
  - cbn [keys map fst] in Hs. apply StronglySorted_inv in Hs as [Hs Hk].
    fold (keys o) in *.
    cbn [get] in Hget. destruct (String.eqb_spec k name) as [ | Hne]; [discriminate | ].
    assert (Hhere : StronglySorted key_before (name :: k :: keys o) ->
                    StronglySorted key_before (keys ((name, v) :: (k, w) :: o)))
      by (intros H; exact H).
    destruct (array_index k) as [j | ] eqn:Ej.
    + destruct (N.ltb_spec j i) as [Hlt | Hge].
      * cbn [map fst]. fold (keys (insert_index o i name v)).
        constructor; [now apply IH | ].
        apply Forall_forall. intros x [-> | Hx]%keys_insert_index.
        -- unfold key_before. now rewrite Ej, Hi.
        -- rewrite Forall_forall in Hk. now apply Hk.
      * apply Hhere. constructor; [now constructor | ].
        assert (Hij : (i < j)%N).
        { destruct (N.eq_dec i j) as [<- | ]; [ | lia].
          apply array_index_decimal in Ej, Hi. congruence. }
        constructor.
        -- unfold key_before. now rewrite Hi, Ej.
        -- apply Forall_forall. intros x Hx. rewrite Forall_forall in Hk.
           specialize (Hk x Hx). unfold key_before in *. rewrite Hi.
           rewrite Ej in Hk. destruct (array_index x); [lia | trivial].
    + apply Hhere. constructor; [now constructor | ].
      constructor.
      * unfold key_before. now rewrite Hi, Ej.
      * apply Forall_forall. intros x Hx. rewrite Forall_forall in Hk.
        specialize (Hk x Hx). unfold key_before in *. rewrite Hi.
        rewrite Ej in Hk. destruct (array_index x); [contradiction | trivial].
Qed.

Lemma sorted_app_name o name v :
  StronglySorted key_before (keys o) ->
  get o name = None -> array_index name = None ->
  StronglySorted key_before (keys (o ++ [(name, v)])%list).
Proof.
  intros Hs Hget Hi. apply get_none in Hget.
  induction o as [ | [k w] o IH]; cbn [app keys map fst].
  - repeat constructor.
  - cbn [keys map fst] in Hs. apply StronglySorted_inv in Hs as [Hs Hk].
    fold (keys o) in *. cbn [keys map fst In] in Hget.
    constructor; [apply IH; tauto | ].
    unfold keys. rewrite map_app. apply Forall_app. split; [exact Hk | ].
    constructor; [ | constructor]. cbn [fst]. unfold key_before. rewrite Hi.
    destruct (array_index k); [trivial | ]. tauto.
Qed.

Lemma sorted_set o name v :
  StronglySorted key_before (keys o) ->
  StronglySorted key_before (keys (set o name v)).
Proof.
  intros Hs. unfold set. destruct (get o name) eqn:E.
  - now rewrite keys_update.
  - destruct (array_index name) eqn:Ei.
    + now apply sorted_insert_index.
    + now apply sorted_app_name.
Qed.

Lemma keys_set o name v x :
  In x (keys (set o name v)) <-> x = name \/ In x (keys o).
Proof.
  unfold set. destruct (get o name) eqn:E.
  - rewrite keys_update. split; [tauto | ].
    intros [-> | H]; [ | exact H].
    destruct (in_dec string_dec name (keys o)) as [ | Hn]; [trivial | ].
    apply get_none in Hn. congruence.
  - destruct (array_index name).
    + apply keys_insert_index.
    + unfold keys. rewrite map_app, in_app_iff. cbn. intuition (subst; auto).
Qed.

End KeyOrder.

Lemma addNodes_keys (ns : list keyval) (g : Directed_) :
  StronglySorted key_before (keys (nodes g)) ->
  StronglySorted key_before (keys (nodes (fold_left addNode ns g)))
  /\ forall x, In x (keys (nodes (fold_left addNode ns g)))
               <-> In x (map ToPropertyKey ns) \/ In x (keys (nodes g)).
Proof.
  revert g. induction ns as [ | k ns IH]; intros g Hs; cbn [fold_left map In].
  - split; [exact Hs | tauto].
  - destruct (IH (addNode g k)) as [H1 H2].
    + cbn [addNode nodes]. now apply sorted_set.
    + split; [exact H1 | ]. intros x. rewrite H2. cbn [addNode nodes].
      rewrite keys_set. intuition.
Qed.

Lemma addEdge_keys (g g' : Directed_) (e : keyval * keyval) :
  addEdge g e = Some g' -> keys (nodes g') = keys (nodes g).
Proof.
  unfold addEdge.
  destruct (get (nodes g) (ToPropertyKey (fst e))); [ | discriminate].
  destruct (get (nodes g) (ToPropertyKey (snd e))); [ | discriminate].
  match goal with |- context [get ?o ?k] => destruct (get o k) end;
    [ | discriminate].
  intros [= <-]. cbn [nodes]. now rewrite !keys_update.
Qed.

Lemma addEdges_keys (es : list (keyval * keyval)) (g g' : Directed_) :
  foldM addEdge es g = Some g' -> keys (nodes g') = keys (nodes g).
Proof.
  revert g; induction es as [ | e es IH]; intros g; cbn [foldM].
  - now intros [= <-].
  - destruct (addEdge g e) as [g1 | ] eqn:E; [ | discriminate].
    intros H. rewrite (IH _ H). eapply addEdge_keys; eauto.
Qed.

Lemma Directed_nodes (ns : list keyval) (es : list (keyval * keyval))
    (r : option keyval) (g : Directed_) :
  Directed ns es r = Some g ->
  keys (nodes g) = keys (nodes (fold_left addNode ns (mkDirected [] None))).
Proof.
  unfold Directed.
  destruct (foldM addEdge es (fold_left addNode ns (mkDirected [] None)))
    as [g1 | ] eqn:E; [ | discriminate].
  apply addEdges_keys in E.
  destruct r as [k | ]; [destruct (truthy k) | ]; intros [= <-]; exact E.
Qed.

Lemma Directed_keys_order (ns : list keyval) (es : list (keyval * keyval))
    (r : option keyval) (g : Directed_) :
  Directed ns es r = Some g ->
  StronglySorted key_before (iterNodes g)
  /\ forall name, In name (iterNodes g) <-> In name (map ToPropertyKey ns).
Proof.
  intros Hg. unfold iterNodes. rewrite (Directed_nodes _ _ _ _ Hg).
  destruct (addNodes_keys ns (mkDirected [] None)) as [H1 H2].
  - constructor.
  - split; [exact H1 | ]. intros name. rewrite H2. cbn. tauto.
Qed.

Lemma sorted_split (l : list string) :
  StronglySorted key_before l -> l = (filter is_index l ++ other_names l)%list.
Proof.
  unfold other_names.
  induction 1 as [ | a l Hs IH Hall]; [reflexivity | ].
  cbn [filter]. destruct (is_index a) eqn:Ei; cbn [negb app].
  - f_equal. exact IH.
  - assert (Ea : array_index a = None)
      by (unfold is_index in Ei; destruct (array_index a); [discriminate | trivial]).
    assert (Hnone : filter is_index l = []).
    { clear IH Hs. induction l as [ | b l IHl]; [reflexivity | ].
      apply Forall_cons_iff in Hall as [Hb Hall]. cbn [filter].
      unfold key_before in Hb. rewrite Ea in Hb. unfold is_index at 1.
      destruct (array_index b); [contradiction | auto]. }
    rewrite Hnone in IH |- *. cbn [app] in IH |- *. f_equal. exact IH.
Qed.

Lemma sorted_indices (l : list string) :
  StronglySorted key_before l -> StronglySorted index_before (filter is_index l).
Proof.
  induction 1 as [ | a l Hs IH Hall]; [constructor | ].
  cbn [filter]. destruct (is_index a) eqn:Ei; [ | exact IH].
  constructor; [exact IH | ].
  apply Forall_forall. intros b [Hb Hi]%filter_In.
  rewrite Forall_forall in Hall. specialize (Hall b Hb).
  unfold key_before in Hall. unfold index_before.
  unfold is_index in Ei, Hi.
  destruct (array_index a); [ | discriminate].
  destruct (array_index b); [exact Hall | discriminate].
Qed.

Section Names.
Context {A : Type}.
Implicit Types (o : object A) (v : A).

Lemma names_insert_index o i name v :
  array_index name = Some i ->
  other_names (keys (insert_index o i name v)) = other_names (keys o).
Proof.
  intros Hi.
  assert (Hname : negb (is_index name) = false)
    by (unfold is_index; now rewrite Hi).
  unfold other_names.
  induction o as [ | [k w] o IH]; cbn [insert_index keys map fst filter].
  - now rewrite Hname.
  - destruct (array_index k) as [j | ] eqn:Ek; [destruct (N.ltb j i) | ];
      cbn [map fst filter]; rewrite ?Hname; fold (keys o);
      fold (keys (insert_index o i name v)); try reflexivity.
    now rewrite IH.
Qed.

Lemma names_set o name v :
  other_names (keys (set o name v))
  = if is_index name then other_names (keys o)
    else push_new (other_names (keys o)) name.
Proof.
  unfold set, push_new.
  destruct (get o name) as [w | ] eqn:E.
  - rewrite keys_update. destruct (is_index name) eqn:Ei; [reflexivity | ].
    assert (Hin : In name (other_names (keys o))).
    { apply filter_In. split; [ | now rewrite Ei].
      destruct (in_dec string_dec name (keys o)) as [ | Hn]; [trivial | ].
      apply get_none in Hn. congruence. }
    destruct (existsb (String.eqb name) (other_names (keys o))) eqn:Ex;
      [reflexivity | ].
    exfalso. apply not_true_iff_false in Ex. apply Ex, existsb_exists.
    exists name. split; [exact Hin | apply String.eqb_refl].
  - unfold is_index. destruct (array_index name) as [i | ] eqn:Ei.
    + now apply names_insert_index.
    + unfold keys, other_names. rewrite map_app, filter_app. cbn [map fst filter].
      unfold is_index at 2. rewrite Ei. cbn [negb].
      destruct (existsb (String.eqb name)
                  (filter (fun n => negb (is_index n)) (map fst o))) eqn:Ex;
        [ | reflexivity].
      exfalso. apply existsb_exists in Ex as (x & [Hx _]%filter_In & ->%String.eqb_eq).
      apply get_none in E. now apply E.
Qed.

End Names.

Lemma addNodes_names (ns : list keyval) (g : Directed_) :
  other_names (keys (nodes (fold_left addNode ns g)))
  = fold_left push_new (other_names (map ToPropertyKey ns))
      (other_names (keys (nodes g))).
Proof.
  revert g. induction ns as [ | k ns IH]; intros g; [reflexivity | ].
  cbn [fold_left map]. rewrite IH. cbn [addNode nodes]. rewrite names_set.
  change (other_names (ToPropertyKey k :: map ToPropertyKey ns))
    with (if negb (is_index (ToPropertyKey k))
          then ToPropertyKey k :: other_names (map ToPropertyKey ns)
          else other_names (map ToPropertyKey ns)).
  destruct (is_index (ToPropertyKey k)); reflexivity.
Qed.

(** X17: [iterNodes] of a constructed graph, whose keys are plain, lists
    the property names in the order of [Object.keys]: first the names that
    are array indices, in ascending order and each once, then the other
    names in the order in which they were first inserted.  This is the
    insertion order only when no key is an array index. *)
Theorem iterNodes_order (ns : list keyval) (es : list (keyval * keyval))
    (r : option keyval) (g : Directed_) :
  Forall plain ns ->
  Directed ns es r = Some g ->
  exists indices,
    iterNodes g
    = (indices ++ distinct (other_names (map ToPropertyKey ns)))%list
    /\ StronglySorted index_before indices
    /\ (forall name, In name indices
                     <-> In name (map ToPropertyKey ns) /\ is_index name = true).
Proof.
  intros _ Hg.
  destruct (Directed_keys_order _ _ _ _ Hg) as [Hsorted Hin].
  exists (filter is_index (iterNodes g)).
  split; [ | split].
  - rewrite (sorted_split _ Hsorted) at 1. f_equal.
    unfold iterNodes. rewrite (Directed_nodes _ _ _ _ Hg), addNodes_names.
    reflexivity.
  - now apply sorted_indices.
  - intros name. rewrite filter_In, Hin. reflexivity.
Qed.


(** *** Edges *)

Lemma addEdge_get (g g' : Directed_) (a b : keyval) (p : ref) :
  addEdge g (a, b) = Some g' ->
  get (nodes g') p
  = option_map (with_edge (ToPropertyKey a) (ToPropertyKey b) p)
      (get (nodes g) p).
Proof.
  unfold addEdge; cbn [fst snd].
  set (s := ToPropertyKey a). set (d := ToPropertyKey b).
  destruct (get (nodes g) s) as [src | ] eqn:Es; [ | discriminate].
  destruct (get (nodes g) d) as [dst | ] eqn:Ed; [ | discriminate].
  rewrite get_update, Es.
  destruct (String.eqb_spec s d) as [Hsd | Hsd].
  - intros [= <-]. cbn [nodes]. rewrite !get_update, Es, <- Hsd.
    rewrite Es, String.eqb_refl. unfold with_edge.
    destruct (String.eqb_spec s p) as [<- | Hp].
    + rewrite Es. cbn. rewrite String.eqb_refl. now rewrite app_nil_r || reflexivity.
    + destruct (get (nodes g) p) as [nd | ]; [ | reflexivity]. cbn.
      destruct (String.eqb_spec p s); [congruence | ].
      rewrite !app_nil_r. now destruct nd.
  - rewrite Ed. intros [= <-]. cbn [nodes]. rewrite !get_update, Es.
    destruct (String.eqb_spec s d); [contradiction | ]. rewrite Ed.
    unfold with_edge.
    destruct (String.eqb_spec d p) as [<- | Hdp].
    + rewrite Ed. cbn. rewrite String.eqb_refl.
      destruct (String.eqb_spec d s); [congruence | ]. now rewrite app_nil_r.
    + destruct (String.eqb_spec s p) as [<- | Hsp].
      * rewrite Es. cbn. rewrite String.eqb_refl.
        destruct (String.eqb_spec s d); [congruence | ]. now rewrite app_nil_r.
      * destruct (get (nodes g) p) as [nd | ]; [ | reflexivity]. cbn.
        destruct (String.eqb_spec p d); [congruence | ].
        destruct (String.eqb_spec p s); [congruence | ].
        rewrite !app_nil_r. now destruct nd.
Qed.


Lemma addNode_consistent (g : Directed_) (k : keyval) :
  (forall p n, get (nodes g) p = Some n ->
     ToPropertyKey (key n) = p /\ inbound n = [] /\ outbound n = []) ->
  forall p n, get (nodes (addNode g k)) p = Some n ->
     ToPropertyKey (key n) = p /\ inbound n = [] /\ outbound n = [].
Proof.
  intros H p n. cbn [addNode nodes]. rewrite get_set.
  destruct (String.eqb_spec (ToPropertyKey k) p) as [<- | ].
  - intros [= <-]. auto.
  - apply H.
Qed.

Lemma addNodes_consistent (ns : list keyval) (g : Directed_) :
  (forall p n, get (nodes g) p = Some n ->
     ToPropertyKey (key n) = p /\ inbound n = [] /\ outbound n = []) ->
  forall p n, get (nodes (fold_left addNode ns g)) p = Some n ->
     ToPropertyKey (key n) = p /\ inbound n = [] /\ outbound n = [].
Proof.
  revert g. induction ns as [ | k ns IH]; intros g H; cbn [fold_left]; [exact H | ].
  apply IH. now apply addNode_consistent.
Qed.

Lemma count_occ_edge (l : list ref) (c : bool) (x q : ref) :
  count_occ string_dec (l ++ if c then [x] else []) q
  = (count_occ string_dec l q + if c && String.eqb x q then 1 else 0)%nat.
Proof.
  rewrite count_occ_app. f_equal. destruct c; cbn; [ | reflexivity].
  destruct (string_dec x q), (String.eqb_spec x q); congruence.
Qed.

Lemma addEdge_consistent (g g' : Directed_) (e : keyval * keyval) :
  addEdge g e = Some g' -> consistent g -> consistent g'.
Proof.
  destruct e as [a b]. intros He (Hkey & Href & Hcount).
  pose proof (fun p => addEdge_get g g' a b p He) as Hget.
  assert (Hends : get (nodes g) (ToPropertyKey a) <> None
                  /\ get (nodes g) (ToPropertyKey b) <> None).
  { unfold addEdge in He; cbn [fst snd] in He.
    destruct (get (nodes g) (ToPropertyKey a)); [ | discriminate].
    destruct (get (nodes g) (ToPropertyKey b)); [ | discriminate].
    split; discriminate. }
  assert (Hkeep : forall q, get (nodes g) q <> None -> get (nodes g') q <> None).
  { intros q Hq. rewrite Hget. destruct (get (nodes g) q); [discriminate | congruence]. }
  repeat split.
  - intros p n. rewrite Hget.
    destruct (get (nodes g) p) as [n0 | ] eqn:E; [ | discriminate].
    intros [= <-]. cbn. eauto.
  - intros p n q. rewrite Hget.
    destruct (get (nodes g) p) as [n0 | ] eqn:E; [ | discriminate].
    intros [= <-]. unfold with_edge; cbn [inbound outbound].
    rewrite !in_app_iff. intros [[H | H] | [H | H]].
    + apply Hkeep. eapply Href; eauto.
    + destruct (String.eqb p (ToPropertyKey a)); [ | destruct H].
      destruct H as [<- | []]. apply Hkeep, Hends.
    + apply Hkeep. eapply Href; eauto.
    + destruct (String.eqb p (ToPropertyKey b)); [ | destruct H].
      destruct H as [<- | []]. apply Hkeep, Hends.
  - intros p q np nq. rewrite !Hget.
    destruct (get (nodes g) p) as [n0 | ] eqn:Ep; [ | discriminate].
    destruct (get (nodes g) q) as [n1 | ] eqn:Eq; [ | discriminate].
    intros [= <-] [= <-]. unfold with_edge; cbn [inbound outbound].
    rewrite !count_occ_edge, (Hcount p q n0 n1 Ep Eq). f_equal.
    destruct (String.eqb_spec p (ToPropertyKey a)), (String.eqb_spec q (ToPropertyKey b)),
      (String.eqb_spec (ToPropertyKey b) q), (String.eqb_spec (ToPropertyKey a) p);
      cbn; congruence.
Qed.

Lemma addEdges_consistent (es : list (keyval * keyval)) (g g' : Directed_) :
  foldM addEdge es g = Some g' -> consistent g -> consistent g'.
Proof.
  revert g; induction es as [ | e es IH]; intros g; cbn [foldM].
  - now intros [= <-].
  - destruct (addEdge g e) as [g1 | ] eqn:E; [ | discriminate].
    intros H Hg. apply (IH _ H). eapply addEdge_consistent; eauto.
Qed.

Lemma Directed_is_consistent (ns : list keyval) (es : list (keyval * keyval))
    (r : option keyval) (g : Directed_) :
  Directed ns es r = Some g -> consistent g.
Proof.
  unfold Directed.
  destruct (foldM addEdge es (fold_left addNode ns (mkDirected [] None)))
    as [g1 | ] eqn:E; [ | discriminate].
  assert (Hg1 : consistent g1).
  { apply (addEdges_consistent _ _ _ E).
    pose proof (addNodes_consistent ns (mkDirected [] None)) as H.
    assert (H0 : forall p n, get (nodes (mkDirected [] None)) p = Some n ->
              ToPropertyKey (key n) = p /\ inbound n = [] /\ outbound n = [])
      by (cbn; discriminate).
    specialize (H H0). repeat split.
    - intros p n Hp. now apply H in Hp.
    - intros p n q Hp. apply H in Hp as (_ & -> & ->). cbn. tauto.
    - intros p q np nq Hp Hq. apply H in Hp as (_ & _ & ->).
      apply H in Hq as (_ & -> & _). reflexivity. }
  destruct r as [k | ]; [destruct (truthy k) | ]; intros [= <-]; exact Hg1.
Qed.

(** X18: a constructed graph is consistent: every node is stored under the
    name of its key, [inbound] and [outbound] hold nodes of the graph, and
    [q] is as often a successor of [p] as [p] is a predecessor of [q]. *)
Theorem Directed_consistent (ns : list keyval) (es : list (keyval * keyval))
    (r : option keyval) (g : Directed_) :
  Directed ns es r = Some g -> consistent g.
Proof. exact (Directed_is_consistent ns es r g). Qed.


(** *** The root of the dominator tree *)

(** X23: the root of a dominator tree is the first of
    [Object.keys(dfstree.nodes)], which are in [Object.keys] order, not in
    discovery order; it is [undefined] when that name is the empty
    string. *)
Theorem DominatorTree_root (g : Directed_) (d : DominatorTree_) :
  DominatorTree g = Some d ->
  exists dfstree,
    DFSpanningTree g = Some dfstree
    /\ cfg d = g
    /\ StronglySorted key_before (iterNodes (tree dfstree))
    /\ root (dom d)
       = match iterNodes (tree dfstree) with
         | first :: _ => if String.eqb first "" then None else Some first
         | [] => None
         end.
Proof.
  unfold DominatorTree.
  destruct (DFSpanningTree g) as [dfstree | ] eqn:Edfs; [ | discriminate].
  match goal with
  | |- context [foldM (visit ?f g dfstree) ?l ?i] =>
      destruct (foldM (visit f g dfstree) l i) as [st | ]; [ | discriminate]
  end.
  match goal with
  | |- context [foldM (resolve dfstree) ?l ?i] =>
      destruct (foldM (resolve dfstree) l i) as [[st' edges] | ]; [ | discriminate]
  end.
  set (keys_ := map Str (keys (nodes (tree dfstree)))).
  destruct (Directed keys_ edges (hd_error keys_)) as [dd | ] eqn:Ed; [ | discriminate].
  intros [= <-]. exists dfstree. cbn [cfg dom].
  split; [reflexivity | split; [reflexivity | split]].
  - unfold DFSpanningTree in Edfs.
    destruct (root g); [ | discriminate].
    destruct (explore _ g r ([], [])) as [[ns es] | ]; [ | discriminate].
    destruct (Directed ns es (hd_error ns)) as [t | ] eqn:Et; [ | discriminate].
    injection Edfs as <-. cbn [tree]. eapply Directed_keys_order; eauto.
  - rewrite (Directed_root_eq _ _ _ _ Ed). unfold iterNodes, keys_.
    destruct (keys (nodes (tree dfstree))) as [ | first rest] eqn:Ek; [reflexivity | ].
    cbn [map hd_error truthy ToPropertyKey].
    destruct (String.eqb first ""); [reflexivity | ]. cbn [negb].
    unfold getNode; cbn [ToPropertyKey].
    destruct (get (nodes dd) first) eqn:Eg; [reflexivity | ].
    apply get_none in Eg. exfalso. apply Eg.
    apply (Directed_keys_order _ _ _ _ Ed). unfold keys_. cbn. auto.
Qed.


(** *** The memoized frontiers *)

Lemma foldM_invariant {A B : Type} (P : A -> Prop) (f : A -> B -> option A)
    (l : list B) :
  (forall a b a', f a b = Some a' -> P a -> P a') ->
  forall a a', foldM f l a = Some a' -> P a -> P a'.
Proof.
  intros Hstep. induction l as [ | b l IH]; intros a a'; cbn [foldM].
  - now intros [= <-].
  - destruct (f a b) as [a1 | ] eqn:E; [ | discriminate]. eauto.
Qed.

Lemma push_new_NoDup (S_ : list ref) (y : ref) :
  NoDup S_ -> NoDup (push_new S_ y).
Proof.
  intros H. unfold push_new. destruct (existsb (String.eqb y) S_) eqn:E; [exact H | ].
  apply NoDup_app; [exact H | repeat constructor; cbn; tauto | ].
  - intros x Hx [Hy | []]. subst x.
    assert (existsb (String.eqb y) S_ = true); [ | congruence].
    apply existsb_exists. exists y. split; [exact Hx | apply String.eqb_refl].
Qed.

Lemma dominanceFrontier_memo (fuel : nat) :
  forall d n S_ d',
  dominanceFrontier fuel d n = Some (S_, d') ->
  get (DF d') n = Some S_ /\ memo_step d (S_, d').
Proof.
  induction fuel as [ | fuel IH]; intros d n S_ d'; cbn [dominanceFrontier];
    [discriminate | ].
  destruct (get (DF d) n) as [S0 | ] eqn:Ememo.
  - intros [= <- <-]. unfold memo_step; cbn [fst snd].
    repeat split; eauto.
  - destruct (get (nodes (dom d)) n) as [nd | ]; [ | discriminate].
    destruct (successors (cfg d) (key nd)) as [cfg_succs | ]; [ | discriminate].
    match goal with
    | |- context [foldM ?f cfg_succs []] =>
        destruct (foldM f cfg_succs []) as [S1 | ] eqn:E1; [ | discriminate];
        assert (HS1 : NoDup S1)
    end.
    { eapply (foldM_invariant (@NoDup ref)); [ | exact E1 | constructor].
      intros a b a'. cbv beta.
      destruct (get (nodes (cfg d)) b) as [sn | ]; [ | discriminate].
      destruct (getNode (dom d) (key sn)); [ | discriminate].
      destruct (negb _); intros [= <-]; auto using push_new_NoDup. }
    destruct (successors (dom d) (key nd)) as [children | ]; [ | discriminate].
    match goal with
    | |- context [foldM ?f children (S1, d)] =>
        destruct (foldM f children (S1, d)) as [[S2 d2] | ] eqn:E2; [ | discriminate];
        assert (H2 : memo_step d (S2, d2))
    end.
    { eapply (foldM_invariant (memo_step d)); [ | exact E2 | ].
      - intros [Sa da] c [Sb db] Hstep (Hc & Hd & Hkeep & Hsets).
        cbn [fst snd] in *.
        destruct (dominanceFrontier fuel da c) as [[DFc d''] | ] eqn:Ec;
          [ | discriminate].
        apply IH in Ec as (_ & Hc' & Hd' & Hkeep' & Hsets'). cbn [fst snd] in *.
        match type of Hstep with
        | context [foldM ?f DFc Sa] =>
            destruct (foldM f DFc Sa) as [S' | ] eqn:E'; [ | discriminate];
            assert (HS' : NoDup Sa -> NoDup S')
        end.
        { intros HSa.
          eapply (foldM_invariant (@NoDup ref)); [ | exact E' | exact HSa].
          intros a w a'. cbv beta.
          destruct (dominates _ d'' n (Some w)); [ | discriminate].
          destruct (_ || _); intros [= <-]; auto using push_new_NoDup. }
        injection Hstep as <- <-. unfold memo_step; cbn [fst snd].
        repeat split; try congruence; auto.
        + apply Hsets'. now apply Hsets.
        + apply HS'. now apply Hsets.
      - unfold memo_step; cbn [fst snd]. repeat split; auto. }
    intros [= <- <-]. cbn [DF]. rewrite get_set, String.eqb_refl.
    split; [reflexivity | ].
    destruct H2 as (Hc & Hd & Hkeep & Hsets). cbn [fst snd] in *.
    unfold memo_step; cbn [fst snd cfg dom DF].
    split; [exact Hc | split; [exact Hd | split]].
    + intros m l Hm. rewrite get_set.
      destruct (String.eqb_spec n m) as [<- | ]; [congruence | auto].
    + intros Hmemo. destruct (Hsets Hmemo) as [Hsets2 HS2].
      split; [ | exact HS2].
      intros m l. cbn [DF]. rewrite get_set.
      destruct (String.eqb_spec n m) as [<- | ].
      * now intros [= <-].
      * apply Hsets2.
Qed.

(** X25: [dominanceFrontier] memoizes: after a call that returned, the same
    question is answered from [n.DF] with the same set and without a further
    change; a call changes neither graph and keeps the sets memoized
    before. *)
Theorem dominanceFrontier_cached (fuel fuel' : nat) (d d' : DominatorTree_)
    (n : ref) (S_ : list ref) :
  dominanceFrontier fuel d n = Some (S_, d') ->
  dominanceFrontier (S fuel') d' n = Some (S_, d')
  /\ cfg d' = cfg d /\ dom d' = dom d
  /\ (forall m l, get (DF d) m = Some l -> get (DF d') m = Some l).
Proof.
  intros H. apply dominanceFrontier_memo in H as (Hn & Hc & Hd & Hkeep & _).
  cbn [fst snd] in *. cbn [dominanceFrontier]. rewrite Hn. auto.
Qed.

(** X26: a dominance frontier holds no node twice, and neither do the
    frontiers memoized on the way. *)
Theorem dominanceFrontier_set (fuel : nat) (d d' : DominatorTree_)
    (n : ref) (S_ : list ref) :
  memo_sets d ->
  dominanceFrontier fuel d n = Some (S_, d') ->
  NoDup S_ /\ memo_sets d'.
Proof.
  intros Hd H. apply dominanceFrontier_memo in H as (_ & _ & _ & _ & Hsets).
  cbn [fst snd] in *. destruct (Hsets Hd). auto.
Qed.


(** *** The edge lists *)

Lemma addEdges_get (es : list (keyval * keyval)) :
  forall g g' p, foldM addEdge es g = Some g' ->
  get (nodes g') p
  = option_map (fun n => mkNode (key n) (inbound n ++ sources es p)
                           (outbound n ++ targets es p))%list
      (get (nodes g) p).
Proof.
  induction es as [ | [a b] es IH]; intros g g' p; cbn [foldM].
  - intros [= <-]. destruct (get (nodes g) p) as [[k i o] | ]; cbn; [ | reflexivity].
    now rewrite !app_nil_r.
  - destruct (addEdge g (a, b)) as [g1 | ] eqn:E; [ | discriminate].
    intros H. rewrite (IH _ _ p H), (addEdge_get _ _ _ _ p E).
    destruct (get (nodes g) p) as [n | ]; [ | reflexivity].
    unfold with_edge, sources, targets; cbn [option_map key inbound outbound filter fst snd].
    f_equal. f_equal.
    + rewrite <- app_assoc. f_equal.
      destruct (String.eqb p (ToPropertyKey b)); reflexivity.
    + rewrite <- app_assoc. f_equal.
      destruct (String.eqb p (ToPropertyKey a)); reflexivity.
Qed.

Lemma addEdges_succeed (es : list (keyval * keyval)) :
  forall g,
  foldM addEdge es g <> None
  <-> Forall (fun e => getNode g (fst e) <> None /\ getNode g (snd e) <> None) es.
Proof.
  induction es as [ | [a b] es IH]; intros g; cbn [foldM].
  - split; [constructor | discriminate].
  - destruct (addEdge g (a, b)) as [g1 | ] eqn:E.
    + assert (Hsame : forall k, getNode g1 k <> None <-> getNode g k <> None).
      { intros k. unfold getNode. rewrite (addEdge_get _ _ _ _ _ E).
        destruct (get (nodes g) (ToPropertyKey k)); cbn; split; congruence. }
      assert (Hab : getNode g a <> None /\ getNode g b <> None).
      { destruct (getNode g a) eqn:Ea, (getNode g b) eqn:Eb;
          try (split; discriminate);
          assert (addEdge g (a, b) = None) by (apply addEdge_none; auto);
          congruence. }
      rewrite IH. split.
      * intros H. constructor; [exact Hab | ].
        eapply Forall_impl; [ | exact H]. cbv beta. intros e. rewrite !Hsame. tauto.
      * intros H. apply Forall_inv_tail in H.
        eapply Forall_impl; [ | exact H]. cbv beta. intros e. rewrite !Hsame. tauto.
    + split; [congruence | ]. intros H. apply Forall_inv in H. cbn [fst snd] in H.
      apply addEdge_none in E. tauto.
Qed.

Lemma get_some {A : Type} (o : object A) (name : string) :
  get o name <> None <-> In name (keys o).
Proof.
  rewrite get_none. destruct (in_dec string_dec name (keys o)); tauto.
Qed.

Lemma addNodes_in (ns : list keyval) (g : Directed_) (x : string) :
  In x (keys (nodes (fold_left addNode ns g)))
  <-> In x (map ToPropertyKey ns) \/ In x (keys (nodes g)).
Proof.
  revert g. induction ns as [ | k ns IH]; intros g; cbn [fold_left map In].
  - tauto.
  - rewrite IH. cbn [addNode nodes]. rewrite keys_set. intuition.
Qed.

Lemma addNodes_getNode (ns : list keyval) (k : keyval) :
  getNode (fold_left addNode ns (mkDirected [] None)) k <> None
  <-> In (ToPropertyKey k) (map ToPropertyKey ns).
Proof.
  unfold getNode. rewrite get_some, addNodes_in. cbn. tauto.
Qed.

Lemma Directed_none (ns : list keyval) (es : list (keyval * keyval))
    (r : option keyval) :
  Directed ns es r = None
  <-> exists e, In e es
        /\ (~ In (ToPropertyKey (fst e)) (map ToPropertyKey ns)
            \/ ~ In (ToPropertyKey (snd e)) (map ToPropertyKey ns)).
Proof.
  set (g0 := fold_left addNode ns (mkDirected [] None)).
  assert (H : Directed ns es r = None <-> foldM addEdge es g0 = None).
  { unfold Directed. fold g0. destruct (foldM addEdge es g0); [ | tauto].
    destruct r as [k | ]; [destruct (truthy k) | ]; split; discriminate. }
  rewrite H. clear H.
  pose proof (addEdges_succeed es g0) as H.
  split.
  - intros Hnone.
    assert (Hex : Exists (fun e => ~ (getNode g0 (fst e) <> None
                                      /\ getNode g0 (snd e) <> None)) es).
    { apply neg_Forall_Exists_neg.
      - intros e. destruct (getNode g0 (fst e)), (getNode g0 (snd e));
          [left; split; discriminate | right | right | right]; tauto.
      - intros HF. apply H in HF. congruence. }
    apply Exists_exists in Hex as [e [Hin He]]. exists e. split; [exact Hin | ].
    unfold g0 in He. rewrite !addNodes_getNode in He.
    destruct (in_dec string_dec (ToPropertyKey (fst e)) (map ToPropertyKey ns));
      tauto.
  - intros [e [Hin He]].
    destruct (foldM addEdge es g0) eqn:E; [ | reflexivity]. exfalso.
    pose proof (proj1 H ltac:(discriminate)) as HF.
    rewrite Forall_forall in HF. specialize (HF e Hin).
    unfold g0 in HF. rewrite !addNodes_getNode in HF. tauto.
Qed.

(** X15: the constructor [Directed] throws exactly when some edge has an
    endpoint that is not among the node keys. *)
Theorem Directed_throws (ns : list keyval) (es : list (keyval * keyval))
    (r : option keyval) :
  Directed ns es r = None
  <-> exists e, In e es
        /\ (~ In (ToPropertyKey (fst e)) (map ToPropertyKey ns)
            \/ ~ In (ToPropertyKey (snd e)) (map ToPropertyKey ns)).
Proof. exact (Directed_none ns es r). Qed.

Lemma Directed_adjacency (ns : list keyval) (es : list (keyval * keyval))
    (r : option keyval) (g : Directed_) (k : keyval) :
  Directed ns es r = Some g ->
  In (ToPropertyKey k) (map ToPropertyKey ns) ->
  predecessors g k = Some (sources es (ToPropertyKey k))
  /\ successors g k = Some (targets es (ToPropertyKey k)).
Proof.
  intros Hg Hk.
  set (g0 := fold_left addNode ns (mkDirected [] None)).
  assert (H : exists g1, foldM addEdge es g0 = Some g1 /\ nodes g = nodes g1).
  { unfold Directed in Hg. fold g0 in Hg.
    destruct (foldM addEdge es g0) as [g1 | ]; [ | discriminate].
    exists g1. split; [reflexivity | ].
    destruct r as [k' | ]; [destruct (truthy k') | ]; now injection Hg as <-. }
  destruct H as [g1 [E Hnodes]].
  unfold predecessors, successors, getNode. rewrite Hnodes.
  rewrite (addEdges_get es _ _ (ToPropertyKey k) E).
  apply addNodes_getNode in Hk. fold g0 in Hk. unfold getNode in Hk.
  destruct (get (nodes g0) (ToPropertyKey k)) as [n | ] eqn:En; [ | congruence].
  destruct (addNodes_consistent ns (mkDirected [] None)
              ltac:(cbn; discriminate) _ _ En) as (_ & Hi & Ho).
  cbn. rewrite Hi, Ho. auto.
Qed.

(** X19: [predecessors] and [successors] of a node of a constructed graph
    are the sources of the edges into it and the targets of the edges out of
    it, in the order of the edge list and with repetitions. *)
Theorem Directed_edges (ns : list keyval) (es : list (keyval * keyval))
    (r : option keyval) (g : Directed_) (k : keyval) :
  Directed ns es r = Some g ->
  In (ToPropertyKey k) (map ToPropertyKey ns) ->
  predecessors g k = Some (sources es (ToPropertyKey k))
  /\ successors g k = Some (targets es (ToPropertyKey k)).
Proof. exact (Directed_adjacency ns es r g k). Qed.




(** *** The depth-first spanning tree *)



Lemma closed_in_more (g : Directed_) (V V' : list keyval) (k : keyval) :
  incl V V' -> closed_in g V k -> closed_in g V' k.
Proof. unfold closed_in. intros Hi H n s sn Hn Hs Hsn. apply Hi. eauto. Qed.

Lemma key_eqb_eq (a b : keyval) : key_eqb a b = true <-> a = b.
Proof.
  destruct a, b; cbn; rewrite ?N.eqb_eq, ?String.eqb_eq;
    split; congruence.
Qed.

Lemma visited_spec (k : keyval) (ns : list keyval) :
  existsb (key_eqb k) ns = false <-> ~ In k ns.
Proof.
  rewrite <- not_true_iff_false, existsb_exists. split.
  - intros H Hin. apply H. exists k. split; [exact Hin | now apply key_eqb_eq].
  - intros H [x [Hin Hx]]. apply key_eqb_eq in Hx. now subst.
Qed.

Lemma tree_edges_app (g : Directed_) (E1 E2 : list (keyval * keyval)) :
  forall seen,
  tree_edges g seen E1 -> tree_edges g (seen ++ map snd E1) E2 ->
  tree_edges g seen (E1 ++ E2).
Proof.
  induction E1 as [ | [a b] E1 IH]; intros seen; cbn [tree_edges map app snd].
  - now rewrite app_nil_r.
  - intros (Ha & Hedge & H1) H2. repeat split; trivial.
    apply IH; [exact H1 | ]. now rewrite <- app_assoc.
Qed.

Section Explore.
Variable g : Directed_.
Hypothesis Hcons : consistent g.

Lemma is_key_injective (a b : keyval) :
  is_key g a -> is_key g b -> ToPropertyKey a = ToPropertyKey b -> a = b.
Proof. intros [na [Ha <-]] [nb [Hb <-]] E. rewrite E in Ha. congruence. Qed.

Lemma keys_bound (ks : list keyval) :
  NoDup ks -> Forall (is_key g) ks ->
  (List.length ks <= List.length (nodes g))%nat.
Proof.
  intros Hnd Hk.
  replace (List.length (nodes g)) with (List.length (keys (nodes g)))
    by apply length_map.
  rewrite <- (length_map ToPropertyKey ks).
  apply NoDup_incl_length.
  - induction ks as [ | k ks IH]; cbn; [constructor | ].
    apply NoDup_cons_iff in Hnd as [Hk1 Hk2].
    apply Forall_cons_iff in Hk as [Hk3 Hk4].
    constructor; [ | auto].
    intros [k' [E Hin]]%in_map_iff. rewrite Forall_forall in Hk4.
    apply is_key_injective in E; auto. now subst.
  - intros p [k [<- Hin]]%in_map_iff. rewrite Forall_forall in Hk.
    destruct (Hk k Hin) as [nd [Hget _]]. apply get_some. congruence.
Qed.


Lemma explore_successors (f : nat) (nd : Node) :
  explore_ok g f ->
  forall succs,
  (forall s, In s succs -> In s (outbound nd)) ->
  get (nodes g) (ToPropertyKey (key nd)) = Some nd ->
  forall ns0 es0,
  NoDup ns0 -> Forall (is_key g) ns0 -> In (key nd) ns0 ->
  (List.length (nodes g) < f + List.length ns0)%nat ->
  exists E,
    foldM (fun st succ =>
             sn <- get (nodes g) succ ;;
             if existsb (key_eqb (key sn)) (fst st) then Some st
             else explore f g succ (fst st, snd st ++ [(key nd, key sn)])%list)
          succs (ns0, es0)
    = Some (ns0 ++ map snd E, es0 ++ E)%list
    /\ NoDup (ns0 ++ map snd E)
    /\ Forall (is_key g) (ns0 ++ map snd E)
    /\ tree_edges g ns0 E
    /\ Forall (closed_in g (ns0 ++ map snd E)) (map snd E)
    /\ (forall s sn, In s succs -> get (nodes g) s = Some sn ->
        In (key sn) (ns0 ++ map snd E)).
Proof.
  intros IHf. destruct Hcons as (Hkey & Href & _).
  induction succs as [ | s succs IHs]; intros Hsub Hnd ns0 es0 Hno Hks Hin Hlen;
    cbn [foldM].
  - exists []. cbn. rewrite !app_nil_r. repeat split; auto. tauto.
  - assert (Hs : get (nodes g) s <> None).
    { eapply Href; [exact Hnd | left; apply Hsub; now left]. }
    destruct (get (nodes g) s) as [sn | ] eqn:Es; [ | congruence].
    cbn [fst snd].
    destruct (existsb (key_eqb (key sn)) ns0) eqn:Ev.
    + destruct (IHs (fun x Hx => Hsub x (or_intror Hx)) Hnd ns0 es0 Hno Hks Hin Hlen)
        as (E & HE & Hno' & Hks' & Ht & Hcl & Hall).
      exists E. repeat split; trivial.
      intros s' sn' [<- | Hs'] Hsn'; [ | eauto].
      apply in_or_app. left. rewrite Es in Hsn'. injection Hsn' as <-.
      destruct (existsb (key_eqb (key sn)) ns0) eqn:Ex; [ | discriminate].
      apply existsb_exists in Ex. destruct Ex as (x & Hx & Hk).
      apply key_eqb_eq in Hk. now subst.
    + apply visited_spec in Ev.
      destruct (IHf s sn ns0 (es0 ++ [(key nd, key sn)])%list Es Hno Hks Ev Hlen)
        as (E1 & -> & Hno1 & Hks1 & Ht1 & Hcl1).
      destruct (IHs (fun x Hx => Hsub x (or_intror Hx)) Hnd
                  (ns0 ++ key sn :: map snd E1)%list
                  ((es0 ++ [(key nd, key sn)]) ++ E1)%list Hno1 Hks1)
        as (E2 & -> & Hno2 & Hks2 & Ht2 & Hcl2 & Hall2).
      * apply in_or_app. now left.
      * rewrite length_app. cbn. lia.
      * exists ((key nd, key sn) :: E1 ++ E2)%list.
        cbn [map snd]. rewrite map_app.
        replace (ns0 ++ key sn :: map snd E1 ++ map snd E2)%list
          with ((ns0 ++ key sn :: map snd E1) ++ map snd E2)%list
          by (rewrite <- app_assoc; reflexivity).
        replace (es0 ++ (key nd, key sn) :: E1 ++ E2)%list
          with (((es0 ++ [(key nd, key sn)]) ++ E1) ++ E2)%list
          by (rewrite <- !app_assoc; reflexivity).
        repeat split; trivial.
        -- exists (outbound nd). split.
           ++ unfold successors, getNode. now rewrite Hnd.
           ++ rewrite (Hkey _ _ Es). apply Hsub. now left.
        -- apply tree_edges_app; [exact Ht1 | ].
           rewrite <- app_assoc. exact Ht2.
        -- change (key sn :: map snd E1 ++ map snd E2)%list
             with ((key sn :: map snd E1) ++ map snd E2)%list.
           apply Forall_app. split; [ | exact Hcl2].
           eapply Forall_impl; [ | exact Hcl1]. intros k.
           apply closed_in_more. intros x Hx. apply in_or_app. now left.
        -- intros s' sn' [<- | Hs'] Hsn'; [ | eauto].
           rewrite Es in Hsn'. injection Hsn' as <-.
           apply in_or_app. left. apply in_or_app. right. now left.
Qed.

Lemma explore_total (f : nat) : explore_ok g f.
Proof.
  induction f as [ | f IH]; intros n nd ns es Hn Hno Hks Hnew Hlen.
  - pose proof (keys_bound ns Hno Hks). lia.
  - destruct Hcons as (Hkey & _).
    pose proof (Hkey _ _ Hn) as Hprop.
    cbn [explore]. rewrite Hn. unfold successors, getNode. rewrite Hprop, Hn.
    cbn [fst snd].
    destruct (explore_successors f nd IH (outbound nd) (fun s H => H)
                ltac:(now rewrite Hprop) (ns ++ [key nd])%list es)
      as (E & -> & Hno' & Hks' & Ht & Hcl & Hall).
    + apply NoDup_app; [exact Hno | repeat constructor; cbn; tauto | ].
      intros x Hx [<- | []]. contradiction.
    + apply Forall_app. split; [exact Hks | ].
      constructor; [ | constructor]. exists nd. now rewrite Hprop.
    + apply in_or_app. right. now left.
    + rewrite length_app. cbn. lia.
    + exists E. rewrite <- !app_assoc in *. cbn [app] in *.
      repeat split; trivial.
      constructor; [ | exact Hcl].
      intros n0 s sn. unfold getNode. rewrite Hprop, Hn. intros [= <-]. eauto.
Qed.

End Explore.


Lemma sorted_NoDup (l : list string) :
  StronglySorted key_before l -> NoDup l.
Proof.
  induction 1 as [ | a l Hs IH Hall]; constructor; [ | exact IH].
  intros Hin. rewrite Forall_forall in Hall. specialize (Hall a Hin).
  unfold key_before in Hall. destruct (array_index a); [lia | congruence].
Qed.

Lemma tree_edges_sources (g : Directed_) (E1 E2 : list (keyval * keyval))
    (a b : keyval) :
  forall seen,
  tree_edges g seen (E1 ++ (a, b) :: E2) ->
  In a (seen ++ map snd E1)
  /\ exists l, successors g a = Some l /\ In (ToPropertyKey b) l.
Proof.
  induction E1 as [ | [a1 b1] E1 IH]; intros seen; cbn [tree_edges app map snd].
  - rewrite app_nil_r. tauto.
  - intros (_ & _ & H). apply IH in H. now rewrite <- app_assoc in H.
Qed.

Lemma number_from_other (ks : list keyval) (p : string) :
  forall i o, ~ In p (map ToPropertyKey ks) ->
  get (number_from i ks o) p = get o p.
Proof.
  induction ks as [ | k ks IH]; intros i o Hp; cbn [number_from]; [reflexivity | ].
  cbn [map In] in Hp. rewrite IH by tauto. rewrite get_set.
  destruct (String.eqb_spec (ToPropertyKey k) p); [tauto | reflexivity].
Qed.

Lemma number_from_nth (ks : list keyval) :
  NoDup (map ToPropertyKey ks) ->
  forall s o i k, nth_error ks i = Some k ->
  get (number_from s ks o) (ToPropertyKey k) = Some (s + N.of_nat i)%N.
Proof.
  induction ks as [ | k0 ks IH]; intros Hnd s o i k; [destruct i; discriminate | ].
  cbn [map] in Hnd. apply NoDup_cons_iff in Hnd as [Hk0 Hnd].
  destruct i as [ | i]; cbn [nth_error number_from].
  - intros [= <-]. rewrite number_from_other by exact Hk0.
    rewrite get_set, String.eqb_refl. f_equal. lia.
  - intros Hi. rewrite (IH Hnd _ _ _ _ Hi). f_equal. lia.
Qed.

Lemma sources_unique (E : list (keyval * keyval)) (a k : keyval) :
  NoDup (map ToPropertyKey (map snd E)) -> In (a, k) E ->
  sources E (ToPropertyKey k) = [ToPropertyKey a].
Proof.
  unfold sources.
  induction E as [ | [a1 b1] E IH]; cbn [map snd In filter fst]; [tauto | ].
  intros [Hb1 Hnd]%NoDup_cons_iff Hin.
  assert (Hnone : forall p, ~ In p (map ToPropertyKey (map snd E)) ->
            filter (fun e => String.eqb p (ToPropertyKey (snd e))) E = []).
  { clear. intros p Hp. induction E as [ | [x y] E IH]; cbn; [reflexivity | ].
    cbn in Hp. destruct (String.eqb_spec p (ToPropertyKey y)); [ | tauto].
    subst. tauto. }
  destruct Hin as [[= -> ->] | Hin].
  - rewrite String.eqb_refl. cbn [map fst]. now rewrite Hnone.
  - destruct (String.eqb_spec (ToPropertyKey k) (ToPropertyKey b1)) as [E' | ].
    + exfalso. apply Hb1. rewrite <- E'.
      apply in_map, (in_map snd _ _ Hin).
    + now apply IH.
Qed.

Lemma sources_none (E : list (keyval * keyval)) (p : string) :
  ~ In p (map ToPropertyKey (map snd E)) -> sources E p = [].
Proof.
  unfold sources. induction E as [ | [x y] E IH]; cbn; [reflexivity | ].
  intros Hp. destruct (String.eqb_spec p (ToPropertyKey y)); [ | tauto].
  subst. tauto.
Qed.

Lemma map_keys_NoDup (g : Directed_) (ks : list keyval) :
  consistent g -> NoDup ks -> Forall (is_key g) ks ->
  NoDup (map ToPropertyKey ks).
Proof.
  intros Hc Hnd Hk. induction ks as [ | k ks IH]; cbn; [constructor | ].
  apply NoDup_cons_iff in Hnd as [Hk1 Hk2].
  apply Forall_cons_iff in Hk as [Hk3 Hk4].
  constructor; [ | auto].
  intros [k' [E Hin]]%in_map_iff. rewrite Forall_forall in Hk4.
  apply (is_key_injective g) in E; auto. now subst.
Qed.

Lemma tree_edges_reachable (g : Directed_) (rt : ref)
    (E : list (keyval * keyval)) :
  forall seen,
  tree_edges g seen E ->
  Forall (fun k => reachable g rt (ToPropertyKey k)) seen ->
  Forall (fun k => reachable g rt (ToPropertyKey k)) (seen ++ map snd E).
Proof.
  induction E as [ | [a b] E IH]; intros seen; cbn [tree_edges map snd].
  - now rewrite app_nil_r.
  - intros (Ha & (l & Hl & Hb) & Ht) Hseen.
    change (b :: map snd E)%list with ([b] ++ map snd E)%list.
    rewrite app_assoc. apply IH; [exact Ht | ].
    apply Forall_app. split; [exact Hseen | ].
    constructor; [ | constructor].
    rewrite Forall_forall in Hseen. specialize (Hseen a Ha).
    unfold successors, getNode in Hl.
    destruct (get (nodes g) (ToPropertyKey a)) as [n | ] eqn:En; [ | discriminate].
    injection Hl as <-. eapply reachable_step; eauto.
Qed.

Lemma DFSpanningTree_explored (ns : list keyval) (es : list (keyval * keyval))
    (r : option keyval) (g : Directed_) (rt : ref) :
  Directed ns es r = Some g -> root g = Some rt ->
  exists nd E t0,
    get (nodes g) rt = Some nd
    /\ ToPropertyKey (key nd) = rt
    /\ NoDup (map ToPropertyKey (key nd :: map snd E))
    /\ Forall (is_key g) (key nd :: map snd E)
    /\ tree_edges g [key nd] E
    /\ Forall (closed_in g (key nd :: map snd E)) (key nd :: map snd E)
    /\ Directed (key nd :: map snd E) E (Some (key nd)) = Some t0
    /\ DFSpanningTree g
       = Some (mkDFSpanningTree t0 (key nd :: map snd E)
                 (number_from 0 (key nd :: map snd E) [])).
Proof.
  intros Hg Ert.
  pose proof (Directed_is_consistent _ _ _ _ Hg) as Hcons.
  assert (Hrt : exists nd, get (nodes g) rt = Some nd).
  { pose proof (Directed_root_eq _ _ _ _ Hg) as H. rewrite Ert in H.
    destruct r as [k | ]; [ | discriminate].
    destruct (truthy k); [ | discriminate]. unfold getNode in H.
    destruct (get (nodes g) (ToPropertyKey k)) as [nd | ] eqn:E; [ | discriminate].
    injection H as ->. eauto. }
  destruct Hrt as [nd Hnd].
  destruct (explore_total g Hcons (S (List.length (nodes g))) rt nd [] []
              Hnd ltac:(constructor) ltac:(constructor) ltac:(cbn; tauto)
              ltac:(cbn; lia))
    as (E & Hexp & Hno & Hks & Ht & Hcl).
  cbn [app] in Hexp, Hno, Hks, Ht, Hcl.
  set (ks := key nd :: map snd E) in *.
  assert (Hprops : NoDup (map ToPropertyKey ks))
    by (eapply map_keys_NoDup; eauto).
  destruct (Directed ks E (hd_error ks)) as [t0 | ] eqn:Et.
  2:{ exfalso. apply Directed_none in Et as [[a b] [Hin Hbad]].
      apply in_split in Hin as (E1 & E2 & ->).
      apply tree_edges_sources in Ht as [Ha _]. cbn [fst snd] in Hbad.
      assert (Ha' : In a ks).
      { unfold ks. rewrite map_app. cbn [app] in Ha. destruct Ha as [<- | Ha];
          [now left | right; apply in_or_app; now left]. }
      assert (Hb' : In b ks).
      { unfold ks. right. rewrite map_app. apply in_or_app. right. now left. }
      destruct Hbad as [Hbad | Hbad]; apply Hbad; now apply in_map. }
  exists nd, E, t0. fold ks.
  assert (Hprop : ToPropertyKey (key nd) = rt) by (destruct Hcons as [Hk _]; eauto).
  repeat split; trivial.
  unfold DFSpanningTree. rewrite Ert, Hexp. fold ks. now rewrite Et.
Qed.

(** X21: on a constructed graph with a root [DFSpanningTree] returns, and
    the result is a spanning tree in discovery order: the keys in
    [keys_dfs] are distinct nodes of the graph, the first is the root, the
    [dfnum] of a key is its position, the root has no parent, and every other
    node has exactly one predecessor in the tree, a node discovered before it
    of which it is a successor in the graph. *)
Theorem DFSpanningTree_spec (ns : list keyval) (es : list (keyval * keyval))
    (r : option keyval) (g : Directed_) :
  Directed ns es r = Some g -> root g <> None ->
  exists t,
    DFSpanningTree g = Some t
    /\ NoDup (map ToPropertyKey (keys_dfs t))
    /\ option_map ToPropertyKey (hd_error (keys_dfs t)) = root g
    /\ (forall i k, nth_error (keys_dfs t) i = Some k ->
        get (dfnum t) (ToPropertyKey k) = Some (N.of_nat i) /\ is_key g k)
    /\ (forall k, hd_error (keys_dfs t) = Some k -> parent t k = None)
    /\ (forall i k, nth_error (keys_dfs t) (S i) = Some k ->
        exists j a l,
          (j <= i)%nat /\ nth_error (keys_dfs t) j = Some a
          /\ predecessors (tree t) k = Some [ToPropertyKey a]
          /\ successors g a = Some l /\ In (ToPropertyKey k) l).
Proof.
  intros Hg Hroot.
  destruct (root g) as [rt | ] eqn:Ert; [clear Hroot | congruence].
  destruct (DFSpanningTree_explored _ _ _ _ _ Hg Ert)
    as (nd & E & t0 & Hnd & Hprop & Hprops & Hks & Ht & _ & Et & Hdfs).
  set (ks := key nd :: map snd E) in *.
  exists (mkDFSpanningTree t0 ks (number_from 0 ks [])).
  split; [ | split; [ | split; [ | split; [ | split]]]]; cbn [keys_dfs dfnum tree].
  - exact Hdfs.
  - exact Hprops.
  - cbn. now rewrite Hprop.
  - intros i k Hi. split.
    + now rewrite (number_from_nth ks Hprops 0%N [] i k Hi).
    + rewrite Forall_forall in Hks. eapply Hks, nth_error_In; eauto.
  - intros k [= <-]. unfold parent; cbn [tree].
    destruct (Directed_adjacency ks E _ t0 (key nd) Et ltac:(now left)) as [-> _].
    rewrite sources_none; [reflexivity | ].
    cbn [map] in Hprops. now apply NoDup_cons_iff in Hprops.
  - intros i k Hi. cbn [nth_error] in Hi.
    apply nth_error_split in Hi as (l1 & l2 & Hsplit & Hlen).
    apply map_eq_app in Hsplit as (E1 & E2' & -> & <- & Hsplit).
    destruct E2' as [ | [a b] E2]; [discriminate | ].
    cbn [map snd] in Hsplit. injection Hsplit as -> <-.
    pose proof (tree_edges_sources g E1 E2 a k _ Ht) as [Ha (l & Hl & Hin)].
    cbn [app] in Ha.
    assert (Hka : In a (key nd :: map snd E1)) by exact Ha.
    apply In_nth_error in Hka as [j Hj].
    exists j, a, l.
    assert (Hjlen : (j < List.length (key nd :: map snd E1))%nat)
      by (apply nth_error_Some; congruence).
    cbn [List.length] in Hjlen. rewrite length_map in Hlen.
    rewrite length_map in Hjlen.
    repeat split; trivial.
    + lia.
    + unfold ks. rewrite map_app.
      change (key nd :: map snd E1 ++ map snd ((a, k) :: E2))%list
        with ((key nd :: map snd E1) ++ map snd ((a, k) :: E2))%list.
      rewrite nth_error_app1 by (cbn [List.length]; rewrite length_map; lia).
      exact Hj.
    + destruct (Directed_adjacency ks (E1 ++ (a, k) :: E2) _ t0 k Et) as [-> _].
      * apply in_map. unfold ks. right. rewrite map_app.
        apply in_or_app. right. now left.
      * f_equal. apply sources_unique.
        -- cbn [map] in Hprops. now apply NoDup_cons_iff in Hprops.
        -- apply in_or_app. right. now left.
Qed.

Lemma DFSpanningTree_visits (ns : list keyval) (es : list (keyval * keyval))
    (r : option keyval) (g : Directed_) (t : DFSpanningTree_) :
  Directed ns es r = Some g -> DFSpanningTree g = Some t ->
  exists rt,
    root g = Some rt
    /\ forall p, In p (map ToPropertyKey (keys_dfs t)) <-> reachable g rt p.
Proof.
  intros Hg Ht0.
  pose proof (Directed_is_consistent _ _ _ _ Hg) as (Hkey & Href & _).
  destruct (root g) as [rt | ] eqn:Ert;
    [ | unfold DFSpanningTree in Ht0; rewrite Ert in Ht0; discriminate].
  destruct (DFSpanningTree_explored _ _ _ _ _ Hg Ert)
    as (nd & E & t0 & Hnd & Hprop & _ & Hks & Ht & Hcl & _ & Hdfs).
  rewrite Hdfs in Ht0. injection Ht0 as <-. cbn [keys_dfs].
  exists rt. split; [reflexivity | ]. intros p. split.
  - intros Hin. apply in_map_iff in Hin as (k & <- & Hin).
    assert (Hall : Forall (fun k => reachable g rt (ToPropertyKey k))
                     ([key nd] ++ map snd E)).
    { apply tree_edges_reachable; [exact Ht | ].
      constructor; [ | constructor]. rewrite Hprop. constructor. }
    cbn [app] in Hall. rewrite Forall_forall in Hall. now apply Hall.
  - induction 1 as [ | b c n Hb IH Hn Hc].
    + rewrite <- Hprop. now left.
    + apply in_map_iff in IH as (kb & <- & Hkb).
      destruct (get (nodes g) c) as [sn | ] eqn:Esn.
      2:{ exfalso. eapply Href; [exact Hn | left; exact Hc | exact Esn]. }
      rewrite Forall_forall in Hcl.
      rewrite <- (Hkey _ _ Esn). apply in_map.
      eapply (Hcl kb Hkb); [ | exact Hc | exact Esn]. exact Hn.
Qed.

(** X22: [DFSpanningTree] holds exactly the nodes that a path along the
    edges reaches from the root; the others are left out. *)
Theorem DFSpanningTree_reachable (ns : list keyval) (es : list (keyval * keyval))
    (r : option keyval) (g : Directed_) (t : DFSpanningTree_) :
  Directed ns es r = Some g -> DFSpanningTree g = Some t ->
  exists rt,
    root g = Some rt
    /\ forall p, In p (map ToPropertyKey (keys_dfs t)) <-> reachable g rt p.
Proof. exact (DFSpanningTree_visits ns es r g t). Qed.

(** *** Blocks that the root does not reach *)

Lemma foldM_none {A B : Type} (f : A -> B -> option A) (x : B) (l : list B) :
  In x l -> (forall a, f a x = None) -> forall a, foldM f l a = None.
Proof.
  intros Hin Hx. induction l as [ | y l IH]; intros a; [destruct Hin | ].
  cbn [foldM]. destruct Hin as [-> | Hin]; [now rewrite Hx | ].
  destruct (f a y); [now apply IH | reflexivity].
Qed.

(** X27: [DominatorTree] throws on a graph in which a block that the root
    reaches, other than the root, has a predecessor that the root does not
    reach: the spanning tree is built, without that predecessor, and the
    loop over the predecessors in the graph then reads [dfnum] of
    [undefined]. *)
Theorem DominatorTree_unreachable_predecessor (ns : list keyval)
    (es : list (keyval * keyval)) (r : option keyval) (g : Directed_)
    (rt q p : ref) (nq : Node) :
  Directed ns es r = Some g -> root g = Some rt ->
  reachable g rt q -> q <> rt ->
  get (nodes g) q = Some nq -> In p (inbound nq) ->
  ~ reachable g rt p ->
  DFSpanningTree g <> None /\ DominatorTree g = None.
Proof.
  intros Hg Ert Hq Hne Hnq Hp Hnp.
  pose proof (Directed_is_consistent _ _ _ _ Hg) as (Hkey & Href & _).
  destruct (DFSpanningTree_explored _ _ _ _ _ Hg Ert)
    as (nd & E & t0 & Hnd & Hprop & _ & _ & _ & _ & Et & Hdfs).
  destruct (DFSpanningTree_visits _ _ _ _ _ Hg Hdfs) as (rt' & Ert' & Hvis).
  rewrite Ert in Ert'. injection Ert' as <-. cbn [keys_dfs] in Hvis.
  split; [rewrite Hdfs; discriminate | ].
  pose proof (Directed_is_consistent _ _ _ _ Et) as (Hkey0 & _).
  pose proof (Directed_keys_order _ _ _ _ Et) as [_ Hkeys0].
  unfold iterNodes in Hkeys0.
  unfold DominatorTree. rewrite Hdfs. cbn [keys_dfs].
  rewrite foldM_none with (x := q); [reflexivity | | ].
  - apply -> in_rev. apply Hvis in Hq. cbn [map tl] in *.
    destruct Hq as [Hq | Hq]; [congruence | exact Hq].
  - intros st. unfold visit. cbn [tree].
    destruct (get (nodes t0) q) as [nd' | ] eqn:End'; [ | reflexivity].
    destruct (parent _ (key nd')); [ | reflexivity].
    unfold predecessors, getNode. rewrite (Hkey0 _ _ End'), Hnq.
    rewrite foldM_none with (x := p); [reflexivity | exact Hp | ].
    intros [s st']. cbn [tree].
    assert (Hpn : get (nodes g) p <> None)
      by (eapply Href; [exact Hnq | right; exact Hp]).
    destruct (get (nodes g) p) as [pn | ] eqn:Epn; [ | congruence].
    rewrite (Hkey _ _ Epn).
    assert (Hnone : get (nodes t0) p = None).
    { apply get_none. rewrite Hkeys0, Hvis. exact Hnp. }
    now rewrite Hnone.
Qed.

(** *** The properties on concrete graphs *)

Lemma addEdge_throws_witness :
  getNode (addNode (mkDirected [] None) (Num 2)) (Num 1) = None
  /\ addEdge (addNode (mkDirected [] None) (Num 2)) (Num 2, Num 1) = None.
Proof.
  split; [reflexivity | ].
  apply (proj2 (addEdge_throws (addNode (mkDirected [] None) (Num 2)) (Num 2) (Num 1))).
  right. reflexivity.
Defined.

Lemma Directed_throws_witness :
  In (Num 1, Num 2) [(Num 1, Num 2)]
  /\ ~ In "2" (map ToPropertyKey [Num 1])
  /\ Directed [Num 1] [(Num 1, Num 2)] None = None.
Proof.
  assert (H : ~ In "2" (map ToPropertyKey [Num 1])).
  { simpl. intros [H | []]. discriminate H. }
  split; [simpl; auto | ]. split; [exact H | ].
  apply (proj2 (Directed_throws [Num 1] [(Num 1, Num 2)] None)).
  exists (Num 1, Num 2). split; [simpl; auto | right; exact H].
Defined.

Lemma iterNodes_order_witness :
  exists g,
    Forall plain [Str "b"; Num 2; Str "a"; Num 1; Str "b"]
    /\ Directed [Str "b"; Num 2; Str "a"; Num 1; Str "b"] [] None = Some g
    /\ iterNodes g = ["1"; "2"; "b"; "a"]
    /\ exists indices,
         iterNodes g
         = (indices
            ++ distinct (other_names
                 (map ToPropertyKey [Str "b"; Num 2; Str "a"; Num 1; Str "b"])))%list
         /\ StronglySorted index_before indices.
Proof.
  assert (Hplain : Forall plain [Str "b"; Num 2; Str "a"; Num 1; Str "b"]).
  { repeat constructor; simpl; try discriminate; reflexivity. }
  eexists. split; [exact Hplain | ].
  split; [vm_compute; reflexivity | ]. split; [reflexivity | ].
  destruct (iterNodes_order [Str "b"; Num 2; Str "a"; Num 1; Str "b"] [] None _
              Hplain eq_refl) as (indices & H1 & H2 & _).
  exists indices. split; assumption.
Defined.

Lemma Directed_consistent_witness :
  exists g, diamond = Some g /\ consistent g.
Proof.
  eexists. split; [vm_compute; reflexivity | ].
  apply (Directed_consistent
           [Str "A"; Str "B"; Str "C"; Str "D"]
           [(Str "A", Str "B"); (Str "A", Str "C"); (Str "B", Str "D");
            (Str "C", Str "D")]
           (Some (Str "A"))).
  reflexivity.
Defined.

Lemma Directed_edges_witness :
  exists g,
    diamond = Some g
    /\ predecessors g (Str "D") = Some ["B"; "C"]
    /\ successors g (Str "D") = Some [].
Proof.
  eexists. split; [vm_compute; reflexivity | ].
  apply (Directed_edges
           [Str "A"; Str "B"; Str "C"; Str "D"]
           [(Str "A", Str "B"); (Str "A", Str "C"); (Str "B", Str "D");
            (Str "C", Str "D")]
           (Some (Str "A")) _ (Str "D")).
  - reflexivity.
  - simpl. auto.
Defined.

Lemma DominatorTree_needs_root_witness :
  exists g g',
    entry_zero = Some g
    /\ truthy (Num 0) = false
    /\ root g = None /\ DFSpanningTree g = None /\ DominatorTree g = None
    /\ Directed [Num 2; Num 1] [(Num 2, Num 1)] (Some (Num 3)) = Some g'
    /\ getNode g' (Num 3) = None
    /\ inherited (ToPropertyKey (Num 3)) = false
    /\ Forall plain [Num 3; Num 2; Num 1]
    /\ root g' = None /\ DFSpanningTree g' = None /\ DominatorTree g' = None.
Proof.
  eexists. eexists. split; [vm_compute; reflexivity | ]. split; [reflexivity | ].
  assert (Hplain : Forall plain [Num 3; Num 2; Num 1])
    by (repeat constructor).
  split; [ | split; [ | split; [ | split; [vm_compute; reflexivity | ]]]].
  1-3: apply (DominatorTree_needs_root [Num 0; Num 1] [(Num 0, Num 1)] (Num 0));
    [reflexivity | left; reflexivity].
  split; [reflexivity | ]. split; [reflexivity | ]. split; [exact Hplain | ].
  apply (DominatorTree_needs_root [Num 2; Num 1] [(Num 2, Num 1)] (Num 3));
    [reflexivity | right; repeat split; trivial].
Defined.

Lemma DFSpanningTree_spec_witness :
  exists g,
    diamond_aside = Some g
    /\ root g <> None
    /\ exists t,
         DFSpanningTree g = Some t
         /\ NoDup (map ToPropertyKey (keys_dfs t))
         /\ option_map ToPropertyKey (hd_error (keys_dfs t)) = root g.
Proof.
  eexists. split; [vm_compute; reflexivity | ].
  split; [simpl; discriminate | ].
  destruct (DFSpanningTree_spec
              [Str "A"; Str "B"; Str "C"; Str "D"; Str "E"]
              [(Str "A", Str "B"); (Str "A", Str "C"); (Str "B", Str "D");
               (Str "C", Str "D"); (Str "E", Str "D")]
              (Some (Str "A")) _ eq_refl ltac:(simpl; discriminate))
    as (t & Ht & Hno & Hhd & _).
  exists t. auto.
Defined.

Lemma DFSpanningTree_reachable_witness :
  exists g t,
    diamond_aside = Some g
    /\ DFSpanningTree g = Some t
    /\ keys_dfs t = [Str "A"; Str "B"; Str "D"; Str "C"]
    /\ exists rt,
         root g = Some rt
         /\ forall p, In p (map ToPropertyKey (keys_dfs t)) <-> reachable g rt p.
Proof.
  eexists. eexists. split; [vm_compute; reflexivity | ].
  split; [vm_compute; reflexivity | ]. split; [reflexivity | ].
  apply (DFSpanningTree_reachable
           [Str "A"; Str "B"; Str "C"; Str "D"; Str "E"]
           [(Str "A", Str "B"); (Str "A", Str "C"); (Str "B", Str "D");
            (Str "C", Str "D"); (Str "E", Str "D")]
           (Some (Str "A"))).
  - reflexivity.
  - vm_compute; reflexivity.
Defined.

Lemma DominatorTree_root_witness :
  exists g d,
    entry_above = Some g
    /\ DominatorTree g = Some d
    /\ root g = Some "2"
    /\ exists dfstree,
         DFSpanningTree g = Some dfstree
         /\ cfg d = g
         /\ StronglySorted key_before (iterNodes (tree dfstree))
         /\ root (dom d)
            = match iterNodes (tree dfstree) with
              | first :: _ => if String.eqb first "" then None else Some first
              | [] => None
              end.
Proof.
  eexists. eexists. split; [vm_compute; reflexivity | ].
  split; [vm_compute; reflexivity | ]. split; [reflexivity | ].
  apply DominatorTree_root. vm_compute; reflexivity.
Defined.

Lemma dominates_transitive_witness :
  exists g d,
    chain = Some g
    /\ DominatorTree g = Some d
    /\ dominates 3 d "A" (Some "B") = Some true
    /\ dominates 3 d "B" (Some "C") = Some true
    /\ dominates (3 + 3) d "A" (Some "C") = Some true.
Proof.
  eexists. eexists. split; [vm_compute; reflexivity | ].
  split; [vm_compute; reflexivity | ].
  split; [reflexivity | ]. split; [reflexivity | ].
  apply (dominates_transitive _ "A" "B" "C" 3 3); reflexivity.
Defined.

Lemma dominanceFrontier_cached_witness :
  exists g d d',
    diamond = Some g
    /\ DominatorTree g = Some d
    /\ dominanceFrontier 5 d "B" = Some (["D"], d')
    /\ dominanceFrontier 1 d' "B" = Some (["D"], d').
Proof.
  eexists. eexists. eexists. split; [vm_compute; reflexivity | ].
  split; [vm_compute; reflexivity | ].
  match goal with
  | |- ?A /\ _ => assert (H : A) by (vm_compute; reflexivity)
  end.
  split; [exact H | ].
  exact (proj1 (dominanceFrontier_cached 5 0 _ _ "B" ["D"] H)).
Defined.

Lemma dominanceFrontier_set_witness :
  exists g d d',
    diamond = Some g
    /\ DominatorTree g = Some d
    /\ memo_sets d
    /\ dominanceFrontier 5 d "B" = Some (["D"], d')
    /\ NoDup ["D"] /\ memo_sets d'.
Proof.
  eexists. eexists. eexists. split; [vm_compute; reflexivity | ].
  split; [vm_compute; reflexivity | ].
  match goal with
  | |- memo_sets ?d /\ _ =>
      assert (H : memo_sets d) by (intros m l E; vm_compute in E; discriminate E)
  end.
  split; [exact H | ].
  match goal with
  | |- ?A /\ _ => assert (H' : A) by (vm_compute; reflexivity)
  end.
  split; [exact H' | ].
  exact (dominanceFrontier_set 5 _ _ "B" ["D"] H H').
Defined.

Lemma DominatorTree_unreachable_predecessor_witness :
  exists g nq,
    diamond_aside = Some g
    /\ root g = Some "A"
    /\ reachable g "A" "D"
    /\ "D" <> "A"
    /\ get (nodes g) "D" = Some nq
    /\ In "E" (inbound nq)
    /\ ~ reachable g "A" "E"
    /\ DFSpanningTree g <> None
    /\ DominatorTree g = None.
Proof.
  eexists. eexists. split; [vm_compute; reflexivity | ].
  split; [reflexivity | ].
  match goal with
  | |- reachable ?g _ _ /\ _ =>
      assert (HD : reachable g "A" "D");
      [ | assert (HE' : forall x, reachable g "A" x -> x <> "E")]
  end.
  - apply reachable_step with (b := "B") (n := mkNode (Str "B") ["A"] ["D"]);
      [ | reflexivity | simpl; auto].
    apply reachable_step with (b := "A") (n := mkNode (Str "A") [] ["B"; "C"]);
      [ | reflexivity | simpl; auto].
    apply reachable_refl.
  - intros x H.
    induction H as [ | b c n Hb IH Hn Hc]; [discriminate | ]. intros ->.
    cbn [get nodes] in Hn.
    repeat (destruct (String.eqb _ b);
            [injection Hn as <-; simpl in Hc;
             repeat (destruct Hc as [Hc | Hc]; [discriminate Hc | ]);
             contradiction | ]).
    discriminate Hn.
  - pose (HE := fun H => HE' "E" H eq_refl).
    split; [exact HD | ]. split; [discriminate | ].
    split; [reflexivity | ]. split; [simpl; auto | ]. split; [exact HE | ].
    apply (DominatorTree_unreachable_predecessor
             [Str "A"; Str "B"; Str "C"; Str "D"; Str "E"]
             [(Str "A", Str "B"); (Str "A", Str "C"); (Str "B", Str "D");
              (Str "C", Str "D"); (Str "E", Str "D")]
             (Some (Str "A")) _ "A" "D" "E" _ eq_refl eq_refl HD
             ltac:(discriminate) eq_refl ltac:(simpl; auto) HE).
Defined.

End GraphMore.
